(** * joi-ful-routes: the Joi-schema-to-OpenAPI compiler

    A shallow embedding of [lib/joi-to-swagger.js] (the rule extractors and
    the recursive [parse]) and of [lib/schema-to-swagger.js] (the component
    registry, the reference resolver and the document assembler), followed by
    the properties of the specification that were checked against them.

    Conventions of the embedding:
    - a JavaScript value that ends up in the emitted document is a [json];
      numbers are integers ([Z]), a function reference is [JFun];
    - a JavaScript object is an association list kept in the order in which
      [Object.keys] enumerates it (canonical array indices first, ascending,
      then the other keys in insertion order), see [obj_set];
    - a [throw] is the outcome [Throw e]; [parse] is recursive on the schema
      tree and takes a recursion budget, [OutOfFuel] being the outcome of a
      budget that was too small (never of the JavaScript program). *)

From Stdlib Require Import ZArith String Ascii List Bool Lia DecimalString.
From stdpp Require Import base option list gmap strings.

Set Default Proof Using "Type".
Set Warnings "-register-all".
Local Open Scope string_scope.
Local Open Scope list_scope.

(* ===================================================================== *)
(** ** JavaScript values and objects *)
(* ===================================================================== *)

Module JS.

Inductive json : Type :=
| JUndefined
| JNull
| JBool (b : bool)
| JNum (n : Z)
| JStr (s : string)
| JFun (name : string)
| JArr (elems : list json)
| JObj (props : list (string * json)).

Definition object := list (string * json).

(** [!!v] of JavaScript: [undefined], [null], [false], [0] and [''] are
    falsy, everything else (objects, arrays and functions included) is
    truthy. *)
Definition truthy (v : json) : bool :=
  match v with
  | JUndefined | JNull => false
  | JBool b => b
  | JNum n => negb (n =? 0)%Z
  | JStr s => negb (String.eqb s EmptyString)
  | JFun _ | JArr _ | JObj _ => true
  end.

(** [typeof v] *)
Definition typeof (v : json) : string :=
  match v with
  | JUndefined => "undefined"
  | JNull => "object"
  | JBool _ => "boolean"
  | JNum _ => "number"
  | JStr _ => "string"
  | JFun _ => "function"
  | JArr _ | JObj _ => "object"
  end.

(** [v === 'literal'] for a value that is a string or [undefined] *)
Definition is_str (v : option string) (literal : string) : bool :=
  match v with
  | Some s => String.eqb s literal
  | None => false
  end.

(** [a || b] *)
Definition or_else (a b : json) : json := if truthy a then a else b.

Definition Z_to_string (n : Z) : string := NilZero.string_of_int (Z.to_int n).

(** A property key is a canonical array index when it is the decimal
    numeral, without sign or leading zero, of an integer below [2^32 - 1]. *)
Definition array_index (k : string) : option N :=
  match NilZero.uint_of_string k with
  | Some u =>
      let n := N.of_uint u in
      if String.eqb (NilZero.string_of_uint (N.to_uint n)) k
         && (n <? 4294967295)%N
      then Some n else None
  | None => None
  end.

(** [o[k]] on own properties ([None] when [k] is not a key of [o]). *)
Fixpoint obj_get (k : string) (o : object) : option json :=
  match o with
  | [] => None
  | (k', v) :: rest => if String.eqb k' k then Some v else obj_get k rest
  end.

Definition obj_has (k : string) (o : object) : bool :=
  match obj_get k o with Some _ => true | None => false end.

(** the position of a new key: an array index goes before the first key
    that is not an index or is a larger index, any other key goes last. *)
Fixpoint obj_insert_index (i : N) (k : string) (v : json) (o : object) : object :=
  match o with
  | [] => [(k, v)]
  | (k', v') :: rest =>
      match array_index k' with
      | Some j => if (j <? i)%N then (k', v') :: obj_insert_index i k v rest
                  else (k, v) :: (k', v') :: rest
      | None => (k, v) :: (k', v') :: rest
      end
  end.

Fixpoint obj_replace (k : string) (v : json) (o : object) : object :=
  match o with
  | [] => []
  | (k', v') :: rest =>
      if String.eqb k' k then (k', v) :: rest else (k', v') :: obj_replace k v rest
  end.

(** [o[k] = v] *)
Definition obj_set (k : string) (v : json) (o : object) : object :=
  if obj_has k o then obj_replace k v o
  else match array_index k with
       | Some i => obj_insert_index i k v o
       | None => o ++ [(k, v)]
       end.

(** [delete o[k]] *)
Fixpoint obj_delete (k : string) (o : object) : object :=
  match o with
  | [] => []
  | (k', v') :: rest =>
      if String.eqb k' k then rest else (k', v') :: obj_delete k rest
  end.

(** [Object.keys(o)] *)
Definition obj_keys (o : object) : list string := map fst o.

(** [Object.assign(target, source)] *)
Definition obj_assign (target source : object) : object :=
  fold_left (fun acc kv => obj_set (fst kv) (snd kv) acc) source target.

(** the own enumerable properties [Object.keys] and [Object.assign] see on
    a value: those of an object, the positions of an array, the
    characters of a string, none for the other primitives. *)
Fixpoint index_from (i : nat) (xs : list json) : object :=
  match xs with
  | [] => []
  | x :: rest => (Z_to_string (Z.of_nat i), x) :: index_from (S i) rest
  end.

Fixpoint chars (s : string) : list json :=
  match s with
  | EmptyString => []
  | String c rest => JStr (String c EmptyString) :: chars rest
  end.

Definition own_props (v : json) : object :=
  match v with
  | JObj o => o
  | JArr xs => index_from 0 xs
  | JStr s => index_from 0 (chars s)
  | _ => []
  end.

(** [v[k]] on own enumerable properties: [undefined] when [k] is not
    one of them. *)
Definition prop (k : string) (v : json) : json :=
  match obj_get k (own_props v) with
  | Some x => x
  | None => JUndefined
  end.

(** [String(v)] as template literals apply it; an object prints as
    ["[object Object]"], an array as its elements joined by commas. *)
Fixpoint to_string (v : json) : string :=
  match v with
  | JUndefined => "undefined"
  | JNull => "null"
  | JBool true => "true"
  | JBool false => "false"
  | JNum n => Z_to_string n
  | JStr s => s
  | JFun name => name
  | JArr xs =>
      (fix join (xs : list json) : string :=
         match xs with
         | [] => EmptyString
         | [x] => match x with JUndefined | JNull => EmptyString | _ => to_string x end
         | x :: rest =>
             (match x with JUndefined | JNull => EmptyString | _ => to_string x end)
               +:+ "," +:+ join rest
         end) xs
  | JObj _ => "[object Object]"
  end.

(** *** [JSON.stringify] *)

Definition hex_digit (n : N) : ascii :=
  ascii_of_N (if (n <? 10)%N then 48 + n else 87 + n).

Definition escape_char (c : ascii) : string :=
  let n := N_of_ascii c in
  if (n =? 34)%N then String (ascii_of_N 92) (String (ascii_of_N 34) EmptyString)
  else if (n =? 92)%N then "\\"
  else if (n =? 8)%N then "\b"
  else if (n =? 12)%N then "\f"
  else if (n =? 10)%N then "\n"
  else if (n =? 13)%N then "\r"
  else if (n =? 9)%N then "\t"
  else if (n <? 32)%N then
    "\u00" +:+ String (hex_digit (n / 16)) (String (hex_digit (n mod 16)) EmptyString)
  else String c EmptyString.

Fixpoint escape (s : string) : string :=
  match s with
  | EmptyString => EmptyString
  | String c rest => escape_char c +:+ escape rest
  end.

Definition quote (s : string) : string :=
  String (ascii_of_N 34) (escape s) +:+ String (ascii_of_N 34) EmptyString.

Fixpoint join_with (sep : string) (parts : list string) : string :=
  match parts with
  | [] => EmptyString
  | [p] => p
  | p :: rest => p +:+ sep +:+ join_with sep rest
  end.

(** [JSON.stringify(v)]: [None] is the JavaScript [undefined] it returns
    for [undefined] and for functions; such values are skipped as object
    properties and printed as [null] inside arrays. *)
Fixpoint JSON_stringify (v : json) : option string :=
  match v with
  | JUndefined | JFun _ => None
  | JNull => Some "null"
  | JBool true => Some "true"
  | JBool false => Some "false"
  | JNum n => Some (Z_to_string n)
  | JStr s => Some (quote s)
  | JArr xs =>
      Some ("[" +:+ join_with ","
              ((fix elems (xs : list json) : list string :=
                  match xs with
                  | [] => []
                  | x :: rest =>
                      match JSON_stringify x with
                      | Some s => s
                      | None => "null"
                      end :: elems rest
                  end) xs) +:+ "]")
  | JObj ps =>
      Some ("{" +:+ join_with ","
              ((fix members (ps : list (string * json)) : list string :=
                  match ps with
                  | [] => []
                  | (k, x) :: rest =>
                      match JSON_stringify x with
                      | Some s => (quote k +:+ ":" +:+ s) :: members rest
                      | None => members rest
                      end
                  end) ps) +:+ "}")
  end.

End JS.

(* ===================================================================== *)
(** ** The lodash functions the compiler imports *)
(* ===================================================================== *)

Module Lodash.
Import JS.

(** [_.get(v, path)]: [undefined] as soon as a step is missing. *)
Fixpoint get (v : json) (path : list string) : json :=
  match path with
  | [] => v
  | k :: rest =>
      match v with
      | JObj o => match obj_get k o with
                  | Some x => get x rest
                  | None => JUndefined
                  end
      | _ => JUndefined
      end
  end.

(** [_.set(o, [k1, k2], v)] for the two-step paths of the compiler; a
    missing or non-object intermediate value is replaced by a new
    object. *)
Definition set2 (o : object) (k1 k2 : string) (v : json) : object :=
  let inner := match obj_get k1 o with
               | Some (JObj i) => i
               | _ => []
               end in
  obj_set k1 (JObj (obj_set k2 v inner)) o.

Definition isNumber (v : json) : bool :=
  match v with JNum _ => true | _ => false end.

Definition isString (v : json) : bool :=
  match v with JStr _ => true | _ => false end.

(** [_.isEqual]: deep equality; arrays are compared position by position,
    objects by their key sets and the values under each key, whatever the
    order of the keys. *)
Fixpoint isEqual (a b : json) : bool :=
  match a, b with
  | JUndefined, JUndefined => true
  | JNull, JNull => true
  | JBool x, JBool y => Bool.eqb x y
  | JNum x, JNum y => (x =? y)%Z
  | JStr x, JStr y => String.eqb x y
  | JFun x, JFun y => String.eqb x y
  | JArr xs, JArr ys =>
      (fix all2 (xs ys : list json) : bool :=
         match xs, ys with
         | [], [] => true
         | x :: xs', y :: ys' => isEqual x y && all2 xs' ys'
         | _, _ => false
         end) xs ys
  | JObj ps, JObj qs =>
      Nat.eqb (length ps) (length qs)
      && (fix all (ps : list (string * json)) : bool :=
            match ps with
            | [] => true
            | (k, x) :: ps' =>
                match obj_get k qs with
                | Some y => isEqual x y
                | None => false
                end && all ps'
            end) ps
  | _, _ => false
  end.

(** [_.uniqWith(xs, cmp)]: an element is kept when no element kept before
    it is [cmp]-equal to it. *)
Definition uniq_step (cmp : json -> json -> bool) (kept : list json) (x : json)
  : list json :=
  if existsb (cmp x) kept then kept else kept ++ [x].

Definition uniqWith (cmp : json -> json -> bool) (xs : list json) : list json :=
  fold_left (uniq_step cmp) xs [].

(** One step of [_.merge]: the value left under a key whose current value
    is [objValue] ([None] when the key is absent) after merging
    [srcValue] into it.  Plain objects are merged key by key and arrays
    position by position; any other source value replaces the current
    one, except [undefined], which only fills an absent key.  (Merging a
    plain object into an array would hang named properties on the array;
    the array is then left as it is.) *)
Fixpoint merge_value (objValue : option json) (srcValue : json) {struct srcValue} : json :=
  match srcValue with
  | JObj sps =>
      match objValue with
      | Some (JArr a) => JArr a
      | _ =>
          JObj ((fix go (sps dps : list (string * json)) : list (string * json) :=
                   match sps with
                   | [] => dps
                   | (k, sv) :: rest =>
                       go rest (obj_set k (merge_value (obj_get k dps) sv) dps)
                   end) sps (match objValue with Some (JObj dps) => dps | _ => [] end))
      end
  | JArr ss =>
      JArr ((fix go (ss ds : list json) : list json :=
               match ss with
               | [] => ds
               | s :: ss' =>
                   match ds with
                   | [] => merge_value None s :: go ss' []
                   | d :: ds' => merge_value (Some d) s :: go ss' ds'
                   end
               end) ss (match objValue with Some (JArr d) => d | _ => [] end))
  | JUndefined => match objValue with Some v => v | None => JUndefined end
  | v => v
  end.

(** [_.merge(object, source)] on component registries. *)
Definition merge (obj : object) (source : object) : object :=
  match merge_value (Some (JObj obj)) (JObj source) with
  | JObj r => r
  | _ => obj
  end.

(** [_.find(rules, { name })]: the first rule with that name. *)
Definition find {A} (name_of : A -> string) (xs : list A) (name : string) : option A :=
  List.find (fun x => String.eqb (name_of x) name) xs.

End Lodash.

(* ===================================================================== *)
(** ** Joi schema objects, as far as the compiler reads them *)
(* ===================================================================== *)

Module Joi.
Import JS.

(** [rule.args.limit]: a number, or a [Joi.ref(...)] object, of which the
    compiler reads [toString()] and which [getMinMax] copies as it is
    ([as_value] is the reference object seen as a value). *)
Inductive limit : Type :=
| LNum (n : Z)
| LRef (display : string) (as_value : json).

Record regexp := { source : string; regexp_flags : string }.

Record rule_args := {
  arg_limit : option limit;
  arg_sign : option string;
  arg_direction : option string;
  arg_regex : option regexp;
}.

Record rule := { name : string; args : rule_args }.

(** [schema._flags] *)
Record flags := {
  presence : option string;
  label : option string;
  description : option string;
  default : json;
  encoding : option string;
  format : option string;
  unknown : option bool;
  match_mode : option string;
  only : bool;
}.

(** an entry of [$_terms.whens], and a conditional entry of
    [$_terms.matches] *)
Record switch_case (N : Type) := {
  case_then : option N;
  case_otherwise : option N;
}.

Record when_clause (N : Type) := {
  when_then : option N;
  when_otherwise : option N;
  when_switch : option (list (switch_case N));
}.

(** an entry of [$_terms.matches]: [{ schema }], or a clause with a
    [ref] *)
Inductive match_entry (N : Type) : Type :=
| MatchSchema (schema : N)
| MatchRef (clause : when_clause N).

(** A schema object.  [metas] is [$_terms.metas] without the
    [schemaOverride] entries, whose value is a schema rather than data:
    [schemaOverride] is the value that flattening the metas leaves under
    that key; [key_patterns] lists the [rule] of each entry of
    [$_terms.patterns].  The [$_terms] lists that only some Joi types have are
    [None] on the others. *)
Inductive node : Type := Node {
  type : string;
  _rules : list rule;
  _flags : flags;
  _valids : option (list json);
  _invalids : option (list json);
  preferences_convert : option bool;
  metas : list object;
  schemaOverride : option node;
  keys : option (list (string * node));
  key_patterns : option (list (option node));
  items : option (list node);
  matches : option (list (match_entry node));
  whens : option (list (when_clause node));
  examples : option (list json);
}.

Arguments case_then {N}.
Arguments case_otherwise {N}.
Arguments when_then {N}.
Arguments when_otherwise {N}.
Arguments when_switch {N}.
Arguments MatchSchema {N}.
Arguments MatchRef {N}.

Definition no_args : rule_args :=
  {| arg_limit := None; arg_sign := None; arg_direction := None; arg_regex := None |}.

Definition no_flags : flags :=
  {| presence := None; label := None; description := None; default := JUndefined;
     encoding := None; format := None; unknown := None; match_mode := None;
     only := false |}.

(** [Joi.<type>()] with nothing chained on it, for the types whose
    [$_terms] hold no list of their own. *)
Definition plain (t : string) : node :=
  {| type := t; _rules := []; _flags := no_flags; _valids := None; _invalids := None;
     preferences_convert := None; metas := []; schemaOverride := None;
     keys := None; key_patterns := None; items := None; matches := None;
     whens := None; examples := None |}.

(** [Joi.object().keys(fields)] *)
Definition object_keys (fields : list (string * node)) : node :=
  {| type := "object"; _rules := []; _flags := no_flags; _valids := None;
     _invalids := None; preferences_convert := None; metas := [];
     schemaOverride := None; keys := Some fields; key_patterns := None;
     items := None; matches := None; whens := None; examples := None |}.

(** What can be handed to [parse] as its [schema] argument. *)
Inductive value : Type :=
| Absent                                   (* undefined, null, any falsy value *)
| Schema (n : node)                        (* a Joi schema *)
| PlainObject (fields : list (string * node))  (* { key: schema, ... } *)
| Other.                                   (* any other truthy value *)

End Joi.

(* ===================================================================== *)
(** ** lib/joi-to-swagger.js *)
(* ===================================================================== *)

Module JoiToSwagger.
Import JS Joi.

Inductive error : Type :=
| NoSchemaPassed                  (* Error('No schema was passed.') *)
| NotAJoiSchema                   (* TypeError('Passed schema does not appear to be a joi schema.') *)
| NestedSchemaOverride            (* Error('Cannot override the schema for one ...') *)
| UnrecognizedType (t : string)   (* TypeError(`${type} is not a recognized Joi type.`) *)
| MissingLabel                    (* Error('Encountered a Joi schema without a label. ...') *)
| LabelConflict (name : string)   (* Error(`Joi label "${chosenName}" is already used ...`) *)
| JsTypeError (what : string).    (* a TypeError raised by the JavaScript runtime *)

Inductive outcome (A : Type) : Type :=
| Return (a : A)
| Throw (e : error)
| OutOfFuel.

Arguments Return {A} a.
Arguments Throw {A} e.
Arguments OutOfFuel {A}.

Definition bind {A B} (m : outcome A) (k : A -> outcome B) : outcome B :=
  match m with
  | Return a => k a
  | Throw e => Throw e
  | OutOfFuel => OutOfFuel
  end.

Notation "'let*' x ':=' m 'in' k" := (bind m (fun x => k))
  (at level 10, x pattern, m at level 200, k at level 200).

(** [for (const x of xs) { acc = step(acc, x) }] where a step may throw *)
Fixpoint for_each {A S} (step : S -> A -> outcome S) (xs : list A) (acc : S) : outcome S :=
  match xs with
  | [] => Return acc
  | x :: rest => let* acc' := step acc x in for_each step rest acc'
  end.

(** what [parse] returns: [false], or [{ swagger, components }] *)
Definition parsed := option (json * object).

(** the recursive calls [parse(schema, existingComponents, isSchemaOverride)] *)
Definition parser := value -> object -> bool -> outcome parsed.

(** [patterns] *)
Definition patterns : object :=
  [("alphanum", JStr "^[a-zA-Z0-9]*$");
   ("alphanumLower", JStr "^[a-z0-9]*$");
   ("alphanumUpper", JStr "^[A-Z0-9]*$");
   ("token", JStr "^[a-zA-Z0-9_]*$")].

(** [Object.assign.apply(null, [{}].concat(schema.$_terms.metas))] *)
Definition flattenMeta (schema : node) : object :=
  fold_left obj_assign (metas schema) [].

Definition meta (schema : node) (key : string) : json :=
  Lodash.get (JObj (flattenMeta schema)) [key].

Definition refDef (type name : string) : json :=
  JObj [("$ref", JStr ("#/components/" +:+ type +:+ "/" +:+ name))].

Definition find_rule (schema : node) (n : string) : option rule :=
  Lodash.find name (_rules schema) n.

Definition has_rule (schema : node) (n : string) : bool :=
  match find_rule schema n with Some _ => true | None => false end.

(** [rule.args.limit] as the value stored in the output *)
Definition limit_value (r : rule) : json :=
  match arg_limit (args r) with
  | None => JUndefined
  | Some (LNum n) => JNum n
  | Some (LRef _ v) => v
  end.

(** the body of the loop of [getMinMax] *)
Definition minmax_step (suffix : string) (swagger : object) (rule : rule) : object :=
  let swagger :=
    if String.eqb (name rule) "min"
    then obj_set ("min" +:+ suffix) (limit_value rule) swagger else swagger in
  let swagger :=
    if String.eqb (name rule) "max"
    then obj_set ("max" +:+ suffix) (limit_value rule) swagger else swagger in
  if String.eqb (name rule) "length"
  then obj_set ("max" +:+ suffix) (limit_value rule)
         (obj_set ("min" +:+ suffix) (limit_value rule) swagger)
  else swagger.

Definition getMinMax (schema : node) (suffix : string) : object :=
  fold_left (minmax_step suffix) (_rules schema) [].

Definition getCaseSuffix (schema : node) : string :=
  match find_rule schema "case" with
  | Some caseRule =>
      if is_str (arg_direction (args caseRule)) "lower" then "Lower"
      else if is_str (arg_direction (args caseRule)) "upper" then "Upper"
      else EmptyString
  | None => EmptyString
  end.

Definition parseValidsAndInvalids (schema : node) (filterFunc : json -> bool) : object :=
  let swagger := [] in
  let swagger :=
    match _valids schema with
    | Some vs =>
        let valids := List.filter filterFunc vs in
        if only (_flags schema) && negb (Nat.eqb (length valids) 0)
        then obj_set "enum" (JArr valids) swagger else swagger
    | None => swagger
    end in
  match _invalids schema with
  | Some vs =>
      let invalids := List.filter filterFunc vs in
      if negb (Nat.eqb (length invalids) 0)
      then obj_set "not" (JObj [("enum", JArr invalids)]) swagger else swagger
  | None => swagger
  end.

(** [ref.toString().replace(/^ref:/, '')] *)
Definition refKey (display : string) : string :=
  if String.prefix "ref:" display
  then substring 4 (String.length display - 4) display else display.

Definition getRefValue (display : string) (schema : node) (fallback : json) : json :=
  let refValues := or_else (meta schema "refValues") (JObj []) in
  or_else (prop (refKey display) refValues) fallback.

(** [isRef(limit) ? getRefValue(limit, schema, 0) : limit] *)
Definition number_limit (schema : node) (r : rule) : json :=
  match arg_limit (args r) with
  | Some (LRef display _) => getRefValue display schema (JNum 0)
  | _ => limit_value r
  end.

Definition parseAsType_number (schema : node) : object :=
  let swagger := [] in
  let swagger :=
    if has_rule schema "integer" then obj_set "type" (JStr "integer") swagger
    else
      let swagger := obj_set "type" (JStr "number") swagger in
      if has_rule schema "precision" then obj_set "format" (JStr "double") swagger
      else obj_set "format" (JStr "float") swagger in
  let swagger :=
    match find_rule schema "sign" with
    | Some sign =>
        if is_str (arg_sign (args sign)) "positive"
        then obj_set "minimum" (JNum 1) swagger
        else if is_str (arg_sign (args sign)) "negative"
        then obj_set "maximum" (JNum (-1)) swagger
        else swagger
    | None => swagger
    end in
  let swagger :=
    match find_rule schema "min" with
    | Some min => obj_set "minimum" (number_limit schema min) swagger
    | None => swagger
    end in
  let swagger :=
    match find_rule schema "max" with
    | Some max => obj_set "maximum" (number_limit schema max) swagger
    | None => swagger
    end in
  obj_assign swagger (parseValidsAndInvalids schema Lodash.isNumber).

(** [if (swagger.pattern) { delete swagger.pattern }] *)
Definition clear_pattern (swagger : object) : object :=
  if truthy (prop "pattern" (JObj swagger)) then obj_delete "pattern" swagger
  else swagger.

(** [regex.toString().slice(1, -1)] *)
Definition regex_slice (r : regexp) : string :=
  let s := "/" +:+ source r +:+ "/" +:+ regexp_flags r in
  substring 1 (String.length s - 2) s.

Definition parseAsType_string (schema : node) : outcome object :=
  let swagger := [("type", JStr "string")] in
  let swagger :=
    if has_rule schema "alphanum" then
      let strict := match preferences_convert schema with
                    | Some false => true
                    | _ => false
                    end in
      obj_set "pattern"
        (prop ("alphanum" +:+ (if strict then getCaseSuffix schema else EmptyString))
              (JObj patterns))
        swagger
    else swagger in
  let swagger :=
    if has_rule schema "token" then obj_set "pattern" (prop "token" (JObj patterns)) swagger
    else swagger in
  let swagger :=
    if has_rule schema "email"
    then clear_pattern (obj_set "format" (JStr "email") swagger) else swagger in
  let swagger :=
    if has_rule schema "isoDate"
    then clear_pattern (obj_set "format" (JStr "date-time") swagger) else swagger in
  let swagger :=
    if has_rule schema "guid"
    then clear_pattern (obj_set "format" (JStr "uuid") swagger) else swagger in
  let* swagger :=
    match find_rule schema "pattern" with
    | Some pattern =>
        match arg_regex (args pattern) with
        | Some re => Return (obj_set "pattern" (JStr (regex_slice re)) swagger)
        | None => Throw (JsTypeError "Cannot read properties of undefined (reading 'toString')")
        end
    | None => Return swagger
    end in
  let swagger := obj_assign swagger (getMinMax schema "Length") in
  Return (obj_assign swagger (parseValidsAndInvalids schema Lodash.isString)).

Definition parseAsType_binary (schema : node) : object :=
  let swagger := [("type", JStr "string"); ("format", JStr "binary")] in
  let swagger :=
    if is_str (encoding (_flags schema)) "base64"
    then obj_set "format" (JStr "byte") swagger else swagger in
  obj_assign swagger (getMinMax schema "Length").

Definition parseAsType_date (schema : node) : object :=
  let swagger := [("type", JStr "string"); ("format", JStr "date-time")] in
  if is_str (format (_flags schema)) "YYYY-MM-DD"
  then obj_set "format" (JStr "date") swagger else swagger.

Definition parseAsType_boolean : object := [("type", JStr "boolean")].

Definition parseAsType_any (schema : node) : object :=
  let swagger := [] in
  let swagger :=
    if is_str (match meta schema "swaggerType" with
               | JStr s => Some s
               | _ => None
               end) "file"
    then obj_set "in" (JStr "formData") (obj_set "type" (JStr "file") swagger)
    else swagger in
  obj_assign swagger
    (parseValidsAndInvalids schema (fun s => Lodash.isString s || Lodash.isNumber s)).

(** [swagger['x-required'] = true] in strict mode *)
Definition set_x_required (swagger : json) : outcome json :=
  match swagger with
  | JObj o => Return (JObj (obj_set "x-required" (JBool true) o))
  | JArr _ | JFun _ => Return swagger
  | _ => Throw (JsTypeError "Cannot create property 'x-required'")
  end.

Definition is_required (schema : node) : bool :=
  is_str (presence (_flags schema)) "required".

(** [merge({}, existingComponents || {}, newComponentsByRef || {})] *)
Definition combine (existingComponents newComponentsByRef : object) : object :=
  Lodash.merge (Lodash.merge [] existingComponents) newComponentsByRef.

Section Composite.
(** the composite extractors call [parse] on the children *)
Variable parse : parser.

(** the body of the loop of [schemaForAlternatives]; the state is
    [(swaggers, newComponentsByRef)] *)
Definition alternative_step (existingComponents : object)
    (st : list json * object) (joiSchema : node) : outcome (list json * object) :=
  let '(swaggers, newComponentsByRef) := st in
  let* r := parse (Schema joiSchema)
                  (combine existingComponents newComponentsByRef) false in
  match r with
  | None => Return st
  | Some (swagger, components) =>
      if negb (truthy swagger) then Return st
      else
        let* swagger :=
          (if is_required joiSchema then set_x_required swagger
           else Return swagger) in
        Return (swaggers ++ [swagger], Lodash.merge newComponentsByRef components)
  end.

Definition schemaForAlternatives (alternatives : list node)
    (existingComponents newComponentsByRef : object) (mode : string)
  : outcome (object * object) :=
  let* (swaggers, newComponentsByRef) :=
    for_each (alternative_step existingComponents) alternatives
             ([], newComponentsByRef) in
  let swaggers := Lodash.uniqWith Lodash.isEqual swaggers in
  Return (if (0 <? length swaggers)%nat then [(mode, JArr swaggers)] else [],
          newComponentsByRef).

(** the candidates one [when] clause pushes: [then], [otherwise], then
    those of each [switch] case *)
Definition opt_list {A} (o : option A) : list A :=
  match o with Some a => [a] | None => [] end.

Definition clause_alternatives (w : when_clause node) : list node :=
  opt_list (when_then w) ++ opt_list (when_otherwise w)
  ++ match when_switch w with
     | Some cases =>
         flat_map (fun s => opt_list (case_then s) ++ opt_list (case_otherwise s)) cases
     | None => []
     end.

Definition parseWhens (whens : list (when_clause node))
    (existingComponents newComponentsByRef : object) : outcome (object * object) :=
  let mode := if (1 <? length whens)%nat then "anyOf" else "oneOf" in
  let alternatives := flat_map clause_alternatives whens in
  schemaForAlternatives alternatives existingComponents newComponentsByRef mode.

Definition not_iterable {A} : outcome A :=
  Throw (JsTypeError "undefined is not iterable").

Definition parseAsType_alternatives (schema : node)
    (existingComponents newComponentsByRef : object) : outcome (object * object) :=
  match matches schema with
  | None => not_iterable
  | Some matches =>
      let mode :=
        match match_mode (_flags schema) with
        | Some m => if String.eqb m EmptyString then "any" else m
        | None => "any"
        end +:+ "Of" in
      let alternatives :=
        flat_map (fun m => match m with
                           | MatchRef w => clause_alternatives w
                           | MatchSchema s => [s]
                           end) matches in
      schemaForAlternatives alternatives existingComponents newComponentsByRef mode
  end.

(** the body of the loop of [parseAsType.array] *)
Definition item_step (existingComponents : object)
    (st : list json * object) (joiSchema : node) : outcome (list json * object) :=
  let '(swaggers, newComponentsByRef) := st in
  let* r := parse (Schema joiSchema)
                  (combine existingComponents newComponentsByRef) false in
  match r with
  | None => Return st
  | Some (swagger, components) =>
      if negb (truthy swagger) then Return st
      else Return (swaggers ++ [swagger], Lodash.merge newComponentsByRef components)
  end.

Definition parseAsType_array (schema : node)
    (existingComponents newComponentsByRef : object) : outcome (object * object) :=
  match items schema with
  | None => not_iterable
  | Some items =>
      let mode := "oneOf" in
      let* (swaggers, newComponentsByRef) :=
        for_each (item_step existingComponents) items ([], newComponentsByRef) in
      let swaggers := Lodash.uniqWith Lodash.isEqual swaggers in
      let openapi :=
        [("type", JStr "array"); ("items", JObj [(mode, JArr swaggers)])] in
      let openapi :=
        if (length swaggers <=? 1)%nat
        then obj_set "items"
               (or_else (match swaggers with x :: _ => x | [] => JUndefined end)
                        (JObj []))
               openapi
        else openapi in
      let openapi := obj_assign openapi (getMinMax schema "Items") in
      let openapi :=
        if has_rule schema "unique"
        then obj_set "uniqueItems" (JBool true) openapi else openapi in
      Return (openapi, newComponentsByRef)
  end.

(** the state of [parseAsType.object] while it walks the children *)
Record object_state := {
  requireds : list json;
  properties : object;
  additionalProperties : json;
  newComponents : object;
  combinedComponents : object;
}.

Definition child_step (st : object_state) (child : string * node)
  : outcome object_state :=
  let key := fst child in
  let* r := parse (Schema (snd child)) (combinedComponents st) false in
  match r with
  | None => Return st
  | Some (swagger, components) =>
      if negb (truthy swagger) then Return st
      else
        Return {| requireds := if is_required (snd child)
                               then requireds st ++ [JStr key] else requireds st;
                  properties := obj_set key swagger (properties st);
                  additionalProperties := additionalProperties st;
                  newComponents := Lodash.merge (newComponents st) components;
                  combinedComponents := Lodash.merge (combinedComponents st) components |}
  end.

Definition pattern_step (st : object_state) (pattern_rule : option node)
  : outcome object_state :=
  match pattern_rule with
  | None => Return st
  | Some rule =>
      let* r := parse (Schema rule) (combinedComponents st) false in
      match r with
      | None => Return st
      | Some (swagger, components) =>
          if negb (truthy swagger) then Return st
          else
            Return {| requireds := requireds st;
                      properties := properties st;
                      additionalProperties := swagger;
                      newComponents := Lodash.merge (newComponents st) components;
                      combinedComponents := Lodash.merge (combinedComponents st) components |}
      end
  end.

Definition parseAsType_object (schema : node)
    (existingComponents newComponentsByRef : object) : outcome (object * object) :=
  let st := {| requireds := []; properties := []; additionalProperties := JObj [];
               newComponents := newComponentsByRef;
               combinedComponents := combine existingComponents newComponentsByRef |} in
  let children := match keys schema with Some ks => ks | None => [] end in
  let* st := for_each child_step children st in
  let* st :=
    (if Nat.eqb (length children) 0 then
       match key_patterns schema with
       | Some keyPatterns => for_each pattern_step keyPatterns st
       | None => Return st
       end
     else Return st) in
  let swagger := [("type", JStr "object"); ("properties", JObj (properties st))] in
  let swagger :=
    if negb (Nat.eqb (length (requireds st)) 0)
    then obj_set "required" (JArr (requireds st)) swagger else swagger in
  let swagger :=
    match unknown (_flags schema) with
    | Some true => swagger
    | _ => obj_set "additionalProperties" (JBool false) swagger
    end in
  let swagger :=
    if negb (Nat.eqb (length (own_props (additionalProperties st))) 0)
    then obj_set "additionalProperties" (additionalProperties st) swagger
    else swagger in
  Return (swagger, newComponents st).

End Composite.

(** [parseAsType[type]]: the extractor registered under a type name, all
    with the signature of the composite ones.  (Names that
    [Object.prototype] defines, such as [constructor], are not type names
    of Joi and are taken to have no extractor.) *)
Definition extractor := node -> object -> object -> outcome (object * object).

Definition scalar (f : node -> object) : extractor :=
  fun schema _ newComponentsByRef => Return (f schema, newComponentsByRef).

Definition parseAsType (parse : parser) : list (string * extractor) :=
  [("number", scalar parseAsType_number);
   ("string", fun schema _ newComponentsByRef =>
                let* swagger := parseAsType_string schema in
                Return (swagger, newComponentsByRef));
   ("binary", scalar parseAsType_binary);
   ("date", scalar parseAsType_date);
   ("boolean", scalar (fun _ => parseAsType_boolean));
   ("alternatives", parseAsType_alternatives parse);
   ("array", parseAsType_array parse);
   ("object", parseAsType_object parse);
   ("any", scalar parseAsType_any)].

Fixpoint extractor_for (table : list (string * extractor)) (type : string)
  : option extractor :=
  match table with
  | [] => None
  | (t, f) :: rest => if String.eqb t type then Some f else extractor_for rest type
  end.

(** [getReturnValue] of [parse]; [components] is the object the closure
    captures, returned with the entry it sets. *)
Definition getReturnValue (metaDefName metaDefType : json) (components : object)
    (swagger : json) : json * object :=
  if truthy metaDefName
  then (refDef (to_string metaDefType) (to_string metaDefName),
        Lodash.set2 components (to_string metaDefType) (to_string metaDefName) swagger)
  else (swagger, components).

(** the attachments [parse] makes after the extractor and the [when]
    expansion, up to and including the shallow merge of [meta.swagger] *)
Definition attach (schema : node) (override : json) (swagger : object) : object :=
  let swagger :=
    match _valids schema with
    | Some vs =>
        if existsb (fun v => match v with JNull => true | _ => false end) vs
        then obj_set "nullable" (JBool true) swagger else swagger
    | None => swagger
    end in
  let swagger :=
    match description (_flags schema) with
    | Some d => if String.eqb d EmptyString then swagger
                else obj_set "description" (JStr d) swagger
    | None => swagger
    end in
  let swagger :=
    match examples schema with
    | Some [e] => obj_set "example" e swagger
    | Some es => obj_set "examples" (JArr es) swagger
    | None => swagger
    end in
  let swagger :=
    match label (_flags schema) with
    | Some l => if String.eqb l EmptyString then swagger
                else obj_set "title" (JStr l) swagger
    | None => swagger
    end in
  let defaultValue := default (_flags schema) in
  let swagger :=
    if (truthy defaultValue || String.eqb (typeof defaultValue) "boolean")
       && negb (String.eqb (typeof defaultValue) "function")
    then obj_set "default" defaultValue swagger else swagger in
  if truthy override then obj_assign swagger (own_props override) else swagger.

(** [parse], for a schema that passed the argument checks *)
Definition parse_schema (parse : parser) (schema : node)
    (existingComponents : object) (isSchemaOverride : bool) : outcome parsed :=
  let flattenMeta := JObj (flattenMeta schema) in
  match schemaOverride schema with
  | Some schemaOverride =>
      if isSchemaOverride then Throw NestedSchemaOverride
      else parse (Schema schemaOverride) existingComponents true
  | None =>
      let components := [] in
      let metaDefName := prop "className" flattenMeta in
      let metaDefType := or_else (prop "classTarget" flattenMeta) (JStr "schemas") in
      let override := prop "swagger" flattenMeta in
      if truthy override && truthy (prop "swaggerOverride" flattenMeta)
      then Return (Some (getReturnValue metaDefName metaDefType components override))
      else if truthy metaDefName
              && truthy (Lodash.get (JObj existingComponents)
                           [to_string metaDefType; to_string metaDefName])
      then Return (Some (refDef (to_string metaDefType) (to_string metaDefName),
                         components))
      else
        if is_str (presence (_flags schema)) "forbidden" then Return None
        else
            let type := or_else (meta schema "baseType") (JStr (type schema)) in
            match extractor_for (parseAsType parse) (to_string type) with
            | None => Throw (UnrecognizedType (to_string type))
            | Some extract =>
                let* (swagger, components) :=
                  extract schema existingComponents components in
                let* (swagger, components) :=
                  match whens schema with
                  | Some whens =>
                      let* (w, components) :=
                        parseWhens parse whens existingComponents components in
                      Return (obj_assign swagger w, components)
                  | None => Return (swagger, components)
                  end in
                Return (Some (getReturnValue metaDefName metaDefType components
                                (JObj (attach schema override swagger))))
            end
  end.

(** [parse] with its argument checks; [parse] stands for the recursive
    calls. *)
Definition parse_body (parse : parser) (schema : value)
    (existingComponents : object) (isSchemaOverride : bool) : outcome parsed :=
  match schema with
  | Absent => Throw NoSchemaPassed
  | Other => Throw NotAJoiSchema
  | PlainObject fields =>
      parse_schema parse (object_keys fields) existingComponents isSchemaOverride
  | Schema schema =>
      parse_schema parse schema existingComponents isSchemaOverride
  end.

Fixpoint parse (fuel : nat) : parser :=
  match fuel with
  | O => fun _ _ _ => OutOfFuel
  | S fuel => parse_body (parse fuel)
  end.

(** [parse(schema)], the entry point the assembler imports as [j2s] *)
Definition j2s (fuel : nat) (schema : value) : outcome parsed :=
  parse fuel schema [] false.

End JoiToSwagger.

(* ===================================================================== *)
(** ** lib/schema-to-swagger.js *)
(* ===================================================================== *)

Module SchemaToSwagger.
Import JS Joi JoiToSwagger.

(** A JavaScript value together with its identity: the keys of the
    [schemaMap] are compared by identity, so two schemas built alike are
    two keys. *)
Record ref := { addr : nat; target : value }.

(** [{ schema, examples }] under a MIME type *)
Record media := { media_schema : ref; media_examples : json }.

Record body_config := {
  body_description : json;
  body_required : json;
  body_content : option (list (string * media));
}.

Record response_config := {
  response_description : json;
  response_content : option (list (string * media));
}.

(** a route definition, as [RouteSchema.createRoute] returns it;
    [headers] and [query] are Joi schemas when present *)
Record method_config := {
  method : json;
  tags : json;
  summary : json;
  headers : option node;
  query : option node;
  body : option body_config;
  responses : option (list (string * response_config));
}.

(** the schema class: [components()], [paths] and [tags] *)
Record schema_class := {
  component_schemas : list (string * ref);
  component_parameters : list (string * ref);
  paths : list (string * list (string * method_config));
  class_tags : json;
}.

(** [swaggerComponents], [schemaMap] and [convertedSchemasMap]; a key of
    [convertedSchemasMap] is what [JSON.stringify] returned, [None] being
    [undefined] *)
Record registry := {
  schemas : object;
  parameters : object;
  schemaMap : gmap nat string;
  convertedSchemasMap : gmap (option string) string;
}.

Definition empty_registry : registry :=
  {| schemas := []; parameters := []; schemaMap := ∅; convertedSchemasMap := ∅ |}.

Section Assembler.
(** the recursion budget handed to every call of [j2s] *)
Variable fuel : nat.

(** [j2s(x).swagger]; [false.swagger] is [undefined] *)
Definition converted (x : value) : outcome json :=
  let* r := j2s fuel x in
  Return (match r with Some (swagger, _) => swagger | None => JUndefined end).

(** [v.k] where [v] may be [undefined] or [null], which throws *)
Definition read (k : string) (v : json) : outcome json :=
  match v with
  | JUndefined | JNull =>
      Throw (JsTypeError ("Cannot read properties of undefined (reading '"
                            +:+ k +:+ "')"))
  | _ => Return (prop k v)
  end.

(** the body of the first loop of [buildSwaggerComponents] *)
Definition schema_step (reg : registry) (entry : string * ref) : outcome registry :=
  let key := fst entry in
  let joiSchema := snd entry in
  let* convertedSchema := converted (target joiSchema) in
  Return {| schemas := obj_set key convertedSchema (schemas reg);
            parameters := parameters reg;
            schemaMap := <[addr joiSchema := key]> (schemaMap reg);
            convertedSchemasMap :=
              <[JSON_stringify convertedSchema := key]> (convertedSchemasMap reg) |}.

(** [parameter && typeof parameter.describe === 'function'] *)
Definition has_describe (v : value) : bool :=
  match v with Schema _ => true | _ => false end.

(** [required?.includes(paramName) || false] *)
Definition required_includes (required : json) (paramName : string) : outcome bool :=
  match required with
  | JUndefined | JNull => Return false
  | JArr xs =>
      Return (existsb (fun x => match x with
                                | JStr s => String.eqb s paramName
                                | _ => false
                                end) xs)
  | JStr s =>
      Return (match String.index 0 paramName s with Some _ => true | None => false end)
  | _ => Throw (JsTypeError "required.includes is not a function")
  end.

(** the envelope stored under [swaggerComponents.parameters[refName]] *)
Definition parameter_envelope (swaggerParam : json) (paramName : string)
  : outcome json :=
  let* properties := read "properties" swaggerParam in
  let paramDef := own_props (prop paramName properties) in
  let* isRequired := required_includes (prop "required" swaggerParam) paramName in
  let paramIn := if String.prefix "x-" paramName then "header" else "query" in
  let paramDescription := or_else (prop "description" (JObj paramDef)) (JStr EmptyString) in
  let paramDef := obj_delete "description" paramDef in
  Return (JObj [("name", JStr paramName);
                ("in", JStr paramIn);
                ("required", JBool isRequired);
                ("schema", JObj paramDef);
                ("description", paramDescription)]).

(** the body of the second loop of [buildSwaggerComponents] *)
Definition parameter_step (reg : registry) (entry : string * ref) : outcome registry :=
  let refName := fst entry in
  let parameter := target (snd entry) in
  if has_describe parameter then
    let* swaggerParam := converted parameter in
    let* properties := read "properties" swaggerParam in
    match obj_keys (own_props (or_else properties (JObj []))) with
    | [] => Return reg
    | paramName :: _ =>
        if String.eqb paramName EmptyString then Return reg
        else
          let* envelope := parameter_envelope swaggerParam paramName in
          Return {| schemas := schemas reg;
                    parameters := obj_set refName envelope (parameters reg);
                    schemaMap := schemaMap reg;
                    convertedSchemasMap := convertedSchemasMap reg |}
    end
  else Return reg.

Definition buildSwaggerComponents (schemaClass : schema_class) : outcome registry :=
  let* reg := for_each schema_step (component_schemas schemaClass) empty_registry in
  for_each parameter_step (component_parameters schemaClass) reg.

(** [getSchemaNameFromObj]; the three mutable arguments are the fields of
    the registry, returned updated with the name *)
Definition getSchemaNameFromObj (joiSchema : ref) (reg : registry)
  : outcome (string * registry) :=
  match schemaMap reg !! addr joiSchema with
  | Some name => Return (name, reg)
  | None =>
      let* convertedSchema := converted (target joiSchema) in
      let str := JSON_stringify convertedSchema in
      match convertedSchemasMap reg !! str with
      | Some existingName =>
          Return (existingName,
                  {| schemas := schemas reg; parameters := parameters reg;
                     schemaMap := <[addr joiSchema := existingName]> (schemaMap reg);
                     convertedSchemasMap := convertedSchemasMap reg |})
      | None =>
          let* chosenName := read "title" convertedSchema in
          if negb (truthy chosenName) then Throw MissingLabel
          else
            let name := to_string chosenName in
            let existingSchema := prop name (JObj (schemas reg)) in
            if truthy existingSchema then
              let existingStr := JSON_stringify existingSchema in
              if bool_decide (existingStr = str) then
                Return (name,
                        {| schemas := schemas reg; parameters := parameters reg;
                           schemaMap := <[addr joiSchema := name]> (schemaMap reg);
                           convertedSchemasMap :=
                             <[str := name]> (convertedSchemasMap reg) |})
              else Throw (LabelConflict name)
            else
              let convertedSchema :=
                match convertedSchema with
                | JObj o => JObj (obj_delete "title" o)
                | v => v
                end in
              Return (name,
                      {| schemas := obj_set name convertedSchema (schemas reg);
                         parameters := parameters reg;
                         schemaMap := <[addr joiSchema := name]> (schemaMap reg);
                         convertedSchemasMap :=
                           <[str := name]> (convertedSchemasMap reg) |})
      end
  end.

Definition schema_ref (schemaName : string) : json :=
  JObj [("schema", JObj [("$ref", JStr ("#/components/schemas/" +:+ schemaName))])].

(** [Object.keys(schema.describe().keys || {})] *)
Definition described_keys (schema : node) : list string :=
  match keys schema with
  | Some children =>
      obj_keys (fold_left (fun acc child => obj_set (fst child) JNull acc) children [])
  | None => []
  end.

Definition collectParameters (methodConfig : method_config)
    (paramNameToRefName : object) : list json :=
  let refs (schema : option node) :=
    match schema with
    | Some s =>
        map (fun k =>
               let refName := or_else (prop k (JObj paramNameToRefName)) (JStr k) in
               JObj [("$ref", JStr ("#/components/parameters/" +:+ to_string refName))])
            (described_keys s)
    | None => []
    end in
  refs (headers methodConfig) ++ refs (query methodConfig).

(** the loop over the MIME types of a [content] map; the state is
    [(content, registry)] *)
Definition content_step (with_examples : bool) (st : object * registry)
    (entry : string * media) : outcome (object * registry) :=
  let '(content, reg) := st in
  let mimeType := fst entry in
  let* (schemaName, reg) := getSchemaNameFromObj (media_schema (snd entry)) reg in
  let built := schema_ref schemaName in
  let built :=
    if with_examples && truthy (media_examples (snd entry))
    then match built with
         | JObj o => JObj (obj_set "examples" (media_examples (snd entry)) o)
         | v => v
         end
    else built in
  Return (obj_set mimeType built content, reg).

Definition buildRequestBody (bodyConfig : option body_config) (reg : registry)
  : outcome (json * registry) :=
  match bodyConfig with
  | None => Return (JNull, reg)
  | Some bodyConfig =>
      match body_content bodyConfig with
      | None => Return (JNull, reg)
      | Some entries =>
          let* (content, reg) := for_each (content_step false) entries ([], reg) in
          Return (JObj [("description",
                         or_else (body_description bodyConfig) (JStr EmptyString));
                        ("required", JBool (truthy (body_required bodyConfig)));
                        ("content", JObj content)], reg)
      end
  end.

Definition response_step (st : object * registry)
    (entry : string * response_config) : outcome (object * registry) :=
  let '(responses, reg) := st in
  let statusCode := fst entry in
  let* (builtContent, reg) :=
    match response_content (snd entry) with
    | Some entries => for_each (content_step true) entries ([], reg)
    | None => Return ([], reg)
    end in
  Return (obj_set statusCode
            (JObj [("description", response_description (snd entry));
                   ("content", JObj builtContent)])
            responses, reg).

Definition buildResponses (responsesConfig : option (list (string * response_config)))
    (reg : registry) : outcome (object * registry) :=
  match responsesConfig with
  | None => Return ([], reg)
  | Some entries => for_each response_step entries ([], reg)
  end.

(** [routeDef[methodKey]] *)
Fixpoint route_get (methodKey : string) (routeDef : list (string * method_config))
  : option method_config :=
  match routeDef with
  | [] => None
  | (k, c) :: rest => if String.eqb k methodKey then Some c else route_get methodKey rest
  end.

(** the body of the loop of [buildSwaggerPaths]; the state is
    [(swaggerPaths, registry)] *)
Definition path_step (paramNameToRefName : object) (st : object * registry)
    (entry : string * list (string * method_config)) : outcome (object * registry) :=
  let '(swaggerPaths, reg) := st in
  let path := fst entry in
  let routeDef := snd entry in
  match map fst routeDef with
  | [] => Return st
  | methodKey :: _ =>
      match route_get methodKey routeDef with
      | None => Return st
      | Some methodConfig =>
          if negb (truthy (method methodConfig)) then Return st
          else
            let parameters := collectParameters methodConfig paramNameToRefName in
            let* (requestBody, reg) := buildRequestBody (body methodConfig) reg in
            let* (responses, reg) := buildResponses (responses methodConfig) reg in
            let operation :=
              [("tags", or_else (tags methodConfig) (JArr []));
               ("summary", or_else (summary methodConfig) (JStr EmptyString));
               ("parameters", JArr parameters)]
              ++ (if truthy requestBody then [("requestBody", requestBody)] else [])
              ++ [("responses", JObj responses)] in
            Return (obj_set path (JObj [(methodKey, JObj operation)]) swaggerPaths, reg)
      end
  end.

Definition buildSwaggerPaths (schemaClass : schema_class) (reg : registry)
  : outcome (object * registry) :=
  let paramNameToRefName :=
    fold_left (fun acc entry =>
                 obj_set (to_string (prop "name" (snd entry))) (JStr (fst entry)) acc)
              (parameters reg) [] in
  for_each (path_step paramNameToRefName) (paths schemaClass) ([], reg).

Definition schemaToSwagger (schemaClass : schema_class) : outcome json :=
  let* reg := buildSwaggerComponents schemaClass in
  let* (swaggerPaths, reg) := buildSwaggerPaths schemaClass reg in
  Return (JObj [("definition",
                 JObj [("tags", or_else (class_tags schemaClass) (JArr []));
                       ("paths", JObj swaggerPaths);
                       ("components",
                        JObj [("schemas", JObj (schemas reg));
                              ("parameters", JObj (parameters reg))])])]).

End Assembler.

End SchemaToSwagger.

(* ===================================================================== *)
(** ** Schemas used as concrete inputs *)
(* ===================================================================== *)

Module Samples.
Import JS Joi.

Definition with_rules (rules : list rule) (n : node) : node :=
  {| type := type n; _rules := rules; _flags := _flags n; _valids := _valids n;
     _invalids := _invalids n; preferences_convert := preferences_convert n;
     metas := metas n; schemaOverride := schemaOverride n; keys := keys n;
     key_patterns := key_patterns n; items := items n; matches := matches n;
     whens := whens n; examples := examples n |}.

Definition with_flags (f : flags) (n : node) : node :=
  {| type := type n; _rules := _rules n; _flags := f; _valids := _valids n;
     _invalids := _invalids n; preferences_convert := preferences_convert n;
     metas := metas n; schemaOverride := schemaOverride n; keys := keys n;
     key_patterns := key_patterns n; items := items n; matches := matches n;
     whens := whens n; examples := examples n |}.

Definition with_metas (ms : list object) (n : node) : node :=
  {| type := type n; _rules := _rules n; _flags := _flags n; _valids := _valids n;
     _invalids := _invalids n; preferences_convert := preferences_convert n;
     metas := ms; schemaOverride := schemaOverride n; keys := keys n;
     key_patterns := key_patterns n; items := items n; matches := matches n;
     whens := whens n; examples := examples n |}.

Definition with_items (its : list node) (n : node) : node :=
  {| type := type n; _rules := _rules n; _flags := _flags n; _valids := _valids n;
     _invalids := _invalids n; preferences_convert := preferences_convert n;
     metas := metas n; schemaOverride := schemaOverride n; keys := keys n;
     key_patterns := key_patterns n; items := Some its; matches := matches n;
     whens := whens n; examples := examples n |}.

Definition with_whens (ws : list (when_clause node)) (n : node) : node :=
  {| type := type n; _rules := _rules n; _flags := _flags n; _valids := _valids n;
     _invalids := _invalids n; preferences_convert := preferences_convert n;
     metas := metas n; schemaOverride := schemaOverride n; keys := keys n;
     key_patterns := key_patterns n; items := items n; matches := matches n;
     whens := Some ws; examples := examples n |}.

(** [.integer()], [.email()], ...: a rule without arguments *)
Definition rule_named (n : string) : rule := {| name := n; args := no_args |}.

(** [.positive()] and [.negative()] *)
Definition sign_rule (s : string) : rule :=
  {| name := "sign";
     args := {| arg_limit := None; arg_sign := Some s; arg_direction := None;
                arg_regex := None |} |}.

(** [.min(n)], [.max(n)], [.length(n)] *)
Definition limit_rule (n : string) (z : Z) : rule :=
  {| name := n;
     args := {| arg_limit := Some (LNum z); arg_sign := None; arg_direction := None;
                arg_regex := None |} |}.

(** [.pattern(/src/)] *)
Definition pattern_rule (src : string) : rule :=
  {| name := "pattern";
     args := {| arg_limit := None; arg_sign := None; arg_direction := None;
                arg_regex := Some {| source := src; regexp_flags := EmptyString |} |} |}.

Definition presence_flags (p : string) : flags :=
  {| presence := Some p; label := None; description := None; default := JUndefined;
     encoding := None; format := None; unknown := None; match_mode := None;
     only := false |}.

Definition default_flags (d : json) : flags :=
  {| presence := None; label := None; description := None; default := d;
     encoding := None; format := None; unknown := None; match_mode := None;
     only := false |}.

Definition label_flags (l : string) : flags :=
  {| presence := None; label := Some l; description := None; default := JUndefined;
     encoding := None; format := None; unknown := None; match_mode := None;
     only := false |}.

(** [Joi.number().positive().integer()] *)
Definition positive_integer : node :=
  with_rules [sign_rule "positive"; rule_named "integer"] (plain "number").

(** [Joi.number().positive().min(5)] *)
Definition positive_min5 : node :=
  with_rules [sign_rule "positive"; limit_rule "min" 5] (plain "number").

(** [Joi.number().negative().precision(2)] *)
Definition negative_precise : node :=
  with_rules [sign_rule "negative"; rule_named "precision"] (plain "number").

(** [Joi.string().email().pattern(/^a+$/)] and the other order *)
Definition email_then_pattern : node :=
  with_rules [rule_named "email"; pattern_rule "^a+$"] (plain "string").

Definition pattern_then_email : node :=
  with_rules [pattern_rule "^a+$"; rule_named "email"] (plain "string").

(** [Joi.string().alphanum().email()] *)
Definition alphanum_email : node :=
  with_rules [rule_named "alphanum"; rule_named "email"] (plain "string").

(** [Joi.array().items(Joi.string(), Joi.any().forbidden(), Joi.string(),
    Joi.number()).length(3).unique()] *)
Definition mixed_array : node :=
  with_rules [limit_rule "length" 3; rule_named "unique"]
    (with_items [plain "string";
                 with_flags (presence_flags "forbidden") (plain "any");
                 plain "string";
                 plain "number"]
                (plain "array")).

(** [Joi.any().forbidden()] *)
Definition forbidden_any : node := with_flags (presence_flags "forbidden") (plain "any").

(** [Joi.string().required()] *)
Definition required_string : node :=
  with_flags (presence_flags "required") (plain "string").

(** [Joi.object({ id: Joi.string().required(), secret: Joi.any().forbidden() })] *)
Definition object_with_forbidden : node :=
  object_keys [("id", required_string); ("secret", forbidden_any)].

(** [Joi.any().forbidden().meta({ swagger: { type: 'string' }, swaggerOverride: true })] *)
Definition forbidden_overridden : node :=
  with_metas [[("swagger", JObj [("type", JStr "string")]);
               ("swaggerOverride", JBool true)]]
             forbidden_any.

(** [Joi.symbol().forbidden()] and [Joi.symbol()] *)
Definition forbidden_symbol : node :=
  with_flags (presence_flags "forbidden") (plain "symbol").

(** [.when('kind', { is: 'a', then: Joi.string().required(),
    otherwise: Joi.number() })] on [Joi.any()] *)
Definition two_branches : list (when_clause node) :=
  [{| when_then := Some required_string; when_otherwise := Some (plain "number");
      when_switch := None |}].

Definition conditional_any : node := with_whens two_branches (plain "any").

(** [.when('kind', { is: 'a', then: Joi.forbidden() })] *)
Definition forbidden_branch : list (when_clause node) :=
  [{| when_then := Some forbidden_any; when_otherwise := None; when_switch := None |}].

(** [Joi.number().default(0)], [Joi.boolean().default(false)],
    [Joi.number().default(5)] and [Joi.number().default(() => 1)] *)
Definition number_default_0 : node := with_flags (default_flags (JNum 0)) (plain "number").
Definition boolean_default_false : node :=
  with_flags (default_flags (JBool false)) (plain "boolean").
Definition number_default_5 : node := with_flags (default_flags (JNum 5)) (plain "number").
Definition number_default_fun : node :=
  with_flags (default_flags (JFun "() => 1")) (plain "number").

(** [Joi.object({ a: Joi.string(), b: Joi.symbol() })] *)
Definition object_with_symbol : node :=
  object_keys [("a", plain "string"); ("b", plain "symbol")].

End Samples.

(* ===================================================================== *)
(** ** Vocabulary of the specification *)
(* ===================================================================== *)

Module Spec.
Import JS Joi JoiToSwagger.

(** step 2 of the dispatcher: [metadata.swaggerOverride] is set and
    [metadata.swagger] is present *)
Definition full_override (schema : node) : bool :=
  truthy (prop "swagger" (JObj (flattenMeta schema)))
  && truthy (prop "swaggerOverride" (JObj (flattenMeta schema))).

Definition class_target (schema : node) : string :=
  to_string (or_else (prop "classTarget" (JObj (flattenMeta schema))) (JStr "schemas")).

Definition class_name (schema : node) : json :=
  prop "className" (JObj (flattenMeta schema)).

(** step 3: [metadata.className] is set and already names a component of
    its bucket in the known components *)
Definition known_class (schema : node) (knownComponents : object) : bool :=
  truthy (class_name schema)
  && truthy (Lodash.get (JObj knownComponents)
               [class_target schema; to_string (class_name schema)]).

Definition forbidden (schema : node) : bool :=
  is_str (presence (_flags schema)) "forbidden".

(** the node is not taken by steps 1 to 3 *)
Definition not_short_circuited (schema : node) (knownComponents : object) : Prop :=
  schemaOverride schema = None /\
  full_override schema = false /\
  known_class schema knownComponents = false.

(** the kind step 5 dispatches on *)
Definition kind (schema : node) : string :=
  to_string (or_else (meta schema "baseType") (JStr (type schema))).

Definition has_extractor (k : string) : bool :=
  existsb (String.eqb k)
    ["number"; "string"; "binary"; "date"; "boolean"; "alternatives"; "array";
     "object"; "any"].

(** what is kept of a compile result: nothing when it is [false] *)
Definition surviving (r : parsed) : option (json * object) :=
  match r with
  | Some (swagger, components) =>
      if truthy swagger then Some (swagger, components) else None
  | None => None
  end.

(** "compile each alternative (order preserved), dropping any that
    compile to false": [compiled_in_order parse known alts c kept c'] says
    that compiling [alts] from left to right, starting with the new
    components [c], keeps the schemas [kept] (each with the node it comes
    from) and ends with the new components [c']. *)
Inductive compiled_in_order (parse : parser) (known : object)
  : list node -> object -> list (node * json) -> object -> Prop :=
| compiled_nil c : compiled_in_order parse known [] c [] c
| compiled_drop n alts c r kept c' :
    parse (Schema n) (combine known c) false = Return r ->
    surviving r = None ->
    compiled_in_order parse known alts c kept c' ->
    compiled_in_order parse known (n :: alts) c kept c'
| compiled_keep n alts c r swagger components kept c' :
    parse (Schema n) (combine known c) false = Return r ->
    surviving r = Some (swagger, components) ->
    compiled_in_order parse known alts (Lodash.merge c components) kept c' ->
    compiled_in_order parse known (n :: alts) c ((n, swagger) :: kept) c'.

(** no element of [ys] is [cmp]-equal to one before it *)
Definition distinct (cmp : json -> json -> bool) (ys : list json) : Prop :=
  forall i j x y, (i < j)%nat -> ys !! i = Some x -> ys !! j = Some y -> cmp y x = false.

(** "deduplicate by deep equality": [ys] keeps elements of [xs] in their
    order, no kept element is equal to one kept before it, and every
    element of [xs] is kept or equal to a kept one. *)
Definition deduplicated (cmp : json -> json -> bool) (xs ys : list json) : Prop :=
  sublist ys xs /\
  distinct cmp ys /\
  (forall x, In x xs -> In x ys \/ exists y, In y ys /\ cmp x y = true).

(** [get(schema, '$_terms.keys') || []] *)
Definition children_of (schema : node) : list (string * node) :=
  match keys schema with Some ks => ks | None => [] end.

(** "zero or one surviving alternative: [items] is that single schema (or
    [{}] if none); two or more: [items = {oneOf: [...]}]" *)
Definition array_items (survivors : list json) : json :=
  match survivors with
  | [] => JObj []
  | [x] => x
  | _ => JObj [("oneOf", JArr survivors)]
  end.

(** the limit of the last rule whose name is one of [names] *)
Fixpoint last_limit (names : list string) (rules : list rule) : option json :=
  match rules with
  | [] => None
  | r :: rest =>
      match last_limit names rest with
      | Some v => Some v
      | None => if existsb (String.eqb (name r)) names
                then Some (limit_value r) else None
      end
  end.

(** a [when] clause contributes branches when it has a [then], an
    [otherwise] or a [switch] case with one of them *)
Definition contributes (w : when_clause node) : bool :=
  negb (Nat.eqb (length (clause_alternatives w)) 0).

(** "[anyOf] if more than one [when] clause contributed branches, else
    [oneOf]" *)
Definition when_mode (whens : list (when_clause node)) : string :=
  if (1 <? length (List.filter contributes whens))%nat then "anyOf" else "oneOf".

(** a kept branch with "x-required: true" on it when its node is
    required *)
Definition marked (branch : node * json) : json :=
  if is_required (fst branch)
  then match snd branch with
       | JObj o => JObj (obj_set "x-required" (JBool true) o)
       | v => v
       end
  else snd branch.

(** the nesting depth of a schema tree, which bounds the recursion of
    [parse] *)
Fixpoint depth (n : node) : nat :=
  let of_option (o : option node) :=
    match o with Some x => depth x | None => O end in
  let of_clause (w : when_clause node) :=
    Nat.max (of_option (when_then w))
      (Nat.max (of_option (when_otherwise w))
         (match when_switch w with
          | Some cases =>
              list_max (map (fun s => Nat.max (of_option (case_then s))
                                              (of_option (case_otherwise s))) cases)
          | None => O
          end)) in
  S (list_max
       [of_option (schemaOverride n);
        match keys n with
        | Some ks => list_max (map (fun kc => depth (snd kc)) ks)
        | None => O
        end;
        match key_patterns n with
        | Some ps => list_max (map of_option ps)
        | None => O
        end;
        match items n with
        | Some its => list_max (map depth its)
        | None => O
        end;
        match matches n with
        | Some ms => list_max (map (fun m => match m with
                                             | MatchSchema x => depth x
                                             | MatchRef w => of_clause w
                                             end) ms)
        | None => O
        end;
        match whens n with
        | Some ws => list_max (map of_clause ws)
        | None => O
        end]).

(** the nodes [parse] can be called on while it compiles [n] *)
Definition subnodes (n : node) : list node :=
  opt_list (schemaOverride n)
  ++ map snd (children_of n)
  ++ match key_patterns n with
     | Some ps => flat_map opt_list ps
     | None => []
     end
  ++ match items n with Some its => its | None => [] end
  ++ match matches n with
     | Some ms => flat_map (fun m => match m with
                                     | MatchRef w => clause_alternatives w
                                     | MatchSchema x => [x]
                                     end) ms
     | None => []
     end
  ++ match whens n with
     | Some ws => flat_map clause_alternatives ws
     | None => []
     end.

(** a route-definition collection in which every path keeps its first
    method only *)
Definition first_methods (schemaClass : SchemaToSwagger.schema_class)
  : SchemaToSwagger.schema_class :=
  {| SchemaToSwagger.component_schemas := SchemaToSwagger.component_schemas schemaClass;
     SchemaToSwagger.component_parameters :=
       SchemaToSwagger.component_parameters schemaClass;
     SchemaToSwagger.paths :=
       map (fun entry => (fst entry, firstn 1 (snd entry)))
           (SchemaToSwagger.paths schemaClass);
     SchemaToSwagger.class_tags := SchemaToSwagger.class_tags schemaClass |}.

(** "infer [in] as [header] when the name has a conventional header prefix
    else [query]": the prefix is [x-] *)
Definition parameter_in (paramName : string) : string :=
  if String.prefix "x-" paramName then "header" else "query".

(** whether the name is listed in the [required] of the compiled schema *)
Definition listed_in (required : json) (paramName : string) : bool :=
  match required with
  | JArr names =>
      existsb (fun x => match x with
                        | JStr s => String.eqb s paramName
                        | _ => false
                        end) names
  | _ => false
  end.

End Spec.


(* ===================================================================== *)
(** ** Schema classes used as concrete inputs *)
(* ===================================================================== *)

Module Classes.
Import JS Joi SchemaToSwagger Samples.

(** [GET /login] with the headers [{ id: required, secret: forbidden }] *)
Definition login_route : method_config :=
  {| method := JStr "get"; tags := JArr []; summary := JStr "Log in";
     headers := Some object_with_forbidden; query := None; body := None;
     responses := None |}.

(** a class whose second declared schema is a [Joi.symbol()] *)
Definition class_with_symbol : schema_class :=
  {| component_schemas :=
       [("Name", {| addr := 1; target := Schema (plain "string") |});
        ("Sym", {| addr := 2; target := Schema (plain "symbol") |})];
     component_parameters := [];
     paths := [];
     class_tags := JArr [] |}.

(** [Joi.object({ name: Joi.string().required() }).label('Item')] *)
Definition item_schema : node :=
  with_flags (label_flags "Item") (object_keys [("name", required_string)]).

Definition json_body (a : nat) (schema : node) : body_config :=
  {| body_description := JStr "payload"; body_required := JBool true;
     body_content :=
       Some [("application/json",
              {| media_schema := {| addr := a; target := Schema schema |};
                 media_examples := JUndefined |})] |}.

Definition json_response (a : nat) (schema : node) : response_config :=
  {| response_description := JStr "ok";
     response_content :=
       Some [("application/json",
              {| media_schema := {| addr := a; target := Schema schema |};
                 media_examples := JUndefined |})] |}.

(** [GET /items] and [POST /items], registered under the same path *)
Definition get_items : method_config :=
  {| method := JStr "get"; tags := JArr [JStr "Items"]; summary := JStr "List the items";
     headers := None; query := None; body := None;
     responses := Some [("200", json_response 10 item_schema)] |}.

Definition post_items : method_config :=
  {| method := JStr "post"; tags := JArr [JStr "Items"]; summary := JStr "Add an item";
     headers := None; query := None; body := Some (json_body 11 item_schema);
     responses := Some [("201", json_response 12 item_schema)] |}.

Definition items_class : schema_class :=
  {| component_schemas := [];
     component_parameters := [];
     paths := [("/items", [("get", get_items); ("post", post_items)])];
     class_tags := JArr [JObj [("name", JStr "Items")]] |}.

(** [Joi.string().required().description('Request id')] *)
Definition described_required_string : node :=
  with_flags
    {| presence := Some "required"; label := None; description := Some "Request id";
       default := JUndefined; encoding := None; format := None; unknown := None;
       match_mode := None; only := false |}
    (plain "string").

(** a class that declares a header parameter and a query parameter *)
Definition parameters_class : schema_class :=
  {| component_schemas := [];
     component_parameters :=
       [("RequestId",
         {| addr := 20;
            target := Schema (object_keys [("x-request-id", described_required_string)]) |});
        ("Limit",
         {| addr := 21; target := Schema (object_keys [("limit", plain "number")]) |})];
     paths := [];
     class_tags := JArr [] |}.

(** [Joi.string().label('Bar')] and [Joi.number().label('Bar')] *)
Definition string_bar : node := with_flags (label_flags "Bar") (plain "string").
Definition number_bar : node := with_flags (label_flags "Bar") (plain "number").

(** a registry in which the node at address 7 is bound to "Seven" and the
    name "Bar" holds the schema of [string_bar] *)
Definition bar_registry : registry :=
  {| schemas := [("Bar", JObj [("type", JStr "string"); ("title", JStr "Bar")])];
     parameters := [];
     schemaMap := {[ 7%nat := "Seven" ]};
     convertedSchemasMap := ∅ |}.

End Classes.

(* ===================================================================== *)
(** ** lib/route-schema.js *)
(* ===================================================================== *)

Module RouteSchema.
Import JS Joi SchemaToSwagger.

Inductive failure : Type :=
| TagNotImplemented   (* Error('You must implement the static getter "tag" in your subclass.') *)
| RouteIncomplete.    (* Error('Path, method, and summary are required to define an API route.') *)

(** a route object, as [createRoute] returns it: its [path], and the
    fields the assembler reads of it *)
Record route := { path : json; config : method_config }.

(** the argument of [createRoute]; an absent field is [undefined], or
    [None] for the fields that hold schemas *)
Record route_args := {
  arg_path : json;
  arg_method : json;
  arg_summary : json;
  arg_headers : option node;
  arg_query : option node;
  arg_body : option body_config;
  arg_responses : option (list (string * response_config));
}.

(** what a static property of a class evaluates to *)
Inductive static_value : Type :=
| StaticObject (r : route)      (* an object, by the fields that are read of it *)
| StaticFunction                (* a static method *)
| StaticPrimitive (v : json).   (* undefined, null, a boolean, a number or a string *)

(** a subclass of [RouteSchema]: the tag object of its [tag] getter
    ([None] when it inherits the getter that throws) and its own static
    properties, in the order of [Object.getOwnPropertyNames] *)
Record route_class := {
  tag : option object;
  statics : list (string * static_value);
}.

(** [this.tags], that is [[this.tag]] *)
Definition tags (c : route_class) : failure + list json :=
  match tag c with
  | Some t => inr [JObj t]
  | None => inl TagNotImplemented
  end.

Definition createRoute (c : route_class) (a : route_args) : failure + route :=
  if negb (truthy (arg_path a)) || negb (truthy (arg_method a))
     || negb (truthy (arg_summary a))
  then inl RouteIncomplete
  else
    match tags c with
    | inl e => inl e
    | inr ts =>
        inr {| path := arg_path a;
               config := {| method := arg_method a;
                            SchemaToSwagger.tags := JArr (map (prop "name") ts);
                            summary := arg_summary a;
                            headers := arg_headers a;
                            query := arg_query a;
                            body := arg_body a;
                            responses := arg_responses a |} |}
    end.

(** objects whose values are not JSON values: a new key takes the place
    [JS.obj_set] gives it *)
Section Records.
Context {V : Type}.

Fixpoint rec_get (k : string) (o : list (string * V)) : option V :=
  match o with
  | [] => None
  | (k', v) :: rest => if String.eqb k' k then Some v else rec_get k rest
  end.

Fixpoint rec_insert_index (i : N) (k : string) (v : V) (o : list (string * V))
  : list (string * V) :=
  match o with
  | [] => [(k, v)]
  | (k', v') :: rest =>
      match array_index k' with
      | Some j => if (j <? i)%N then (k', v') :: rec_insert_index i k v rest
                  else (k, v) :: (k', v') :: rest
      | None => (k, v) :: (k', v') :: rest
      end
  end.

Fixpoint rec_replace (k : string) (v : V) (o : list (string * V)) : list (string * V) :=
  match o with
  | [] => []
  | (k', v') :: rest =>
      if String.eqb k' k then (k', v) :: rest else (k', v') :: rec_replace k v rest
  end.

(** [o[k] = v] *)
Definition rec_set (k : string) (v : V) (o : list (string * V)) : list (string * V) :=
  match rec_get k o with
  | Some _ => rec_replace k v o
  | None =>
      match array_index k with
      | Some i => rec_insert_index i k v o
      | None => o ++ [(k, v)]
      end
  end.

End Records.

Definition builtins : list string := ["length"; "name"; "prototype"].

Definition base_members : list string :=
  ["createRoute"; "schemas"; "parameters"; "components"; "tag"; "tags"; "paths"].

(** [names.includes(propName)] *)
Definition includes (names : list string) (propName : string) : bool :=
  existsb (String.eqb propName) names.

(** [potentialRoute && typeof potentialRoute === 'object' &&
    potentialRoute.path && potentialRoute.method] *)
Definition looks_like_route (v : static_value) : option route :=
  match v with
  | StaticObject r =>
      if truthy (path r) && truthy (method (config r)) then Some r else None
  | StaticFunction | StaticPrimitive _ => None
  end.

(** the body of the loop of the [paths] getter *)
Definition paths_step (swaggerPaths : list (string * list (string * method_config)))
    (property : string * static_value) : list (string * list (string * method_config)) :=
  let propName := fst property in
  if includes builtins propName then swaggerPaths
  else if includes base_members propName then swaggerPaths
  else
    match looks_like_route (snd property) with
    | Some potentialRoute =>
        let path := to_string (path potentialRoute) in
        let method := to_string (method (config potentialRoute)) in
        let item := match rec_get path swaggerPaths with
                    | Some item => item
                    | None => []
                    end in
        rec_set path (rec_set method (config potentialRoute) item) swaggerPaths
    | None => swaggerPaths
    end.

(** the [paths] getter *)
Definition paths (c : route_class) : list (string * list (string * method_config)) :=
  fold_left paths_step (statics c) [].

End RouteSchema.

(* ===================================================================== *)
(** ** Further notions used to state properties of the compiler *)
(* ===================================================================== *)

Module Notions.
Import JS Joi JoiToSwagger.

(** the depth of the schema tree behind an argument of [parse]; a plain
    object is wrapped by [Joi.object().keys] *)
Definition value_depth (x : value) : nat :=
  match x with
  | Schema n => Spec.depth n
  | PlainObject fields => Spec.depth (object_keys fields)
  | Absent | Other => O
  end.

(** [P'] returns what [P] returns wherever [P] has budget enough *)
Definition extends (P P' : parser) : Prop :=
  forall x e o, P x e o <> OutOfFuel -> P' x e o = P x e o.

(** [e] is the [enum] derived from the valid values of a node marked
    [only]: its valid values that pass the filter of the extractor, in
    their order, at least one of them *)
Definition enum_of (schema : node) (filterFunc : json -> bool) (e : json) : Prop :=
  exists vs,
    _valids schema = Some vs /\
    only (_flags schema) = true /\
    List.filter filterFunc vs <> [] /\
    e = JArr (List.filter filterFunc vs).

(** the candidates of an [alternatives] node: the schema of a plain
    entry, the branches of a conditional one *)
Definition candidates (ms : list (match_entry node)) : list node :=
  flat_map (fun m => match m with
                     | MatchSchema s => [s]
                     | MatchRef w => clause_alternatives w
                     end) ms.

(** the keyword of an [alternatives] node: [match('one')] gives [oneOf],
    [match('all')] gives [allOf], no match mode gives [anyOf] *)
Definition alternatives_keyword (schema : node) : string :=
  if is_str (match_mode (_flags schema)) "one" then "oneOf"
  else if is_str (match_mode (_flags schema)) "all" then "allOf"
  else match match_mode (_flags schema) with
       | Some m => if String.eqb m EmptyString then "anyOf" else m +:+ "Of"
       | None => "anyOf"
       end.

End Notions.

(* ===================================================================== *)
(** ** Further schemas used as concrete inputs *)
(* ===================================================================== *)

Module Inputs.
Import JS Joi Samples.

Definition with_override (ov : node) (n : node) : node :=
  {| type := type n; _rules := _rules n; _flags := _flags n; _valids := _valids n;
     _invalids := _invalids n; preferences_convert := preferences_convert n;
     metas := metas n; schemaOverride := Some ov; keys := keys n;
     key_patterns := key_patterns n; items := items n; matches := matches n;
     whens := whens n; examples := examples n |}.

(** [Joi.string().meta({ className: 'Pet' })] *)
Definition named_pet : node := with_metas [[("className", JStr "Pet")]] (plain "string").

(** [Joi.string().meta({ swagger: { type: 'integer', 'x-note': 'n' } })] *)
Definition overridden_type : node :=
  with_metas [[("swagger", JObj [("type", JStr "integer"); ("x-note", JStr "n")])]]
             (plain "string").

(** [Joi.string().forbidden().meta({ schemaOverride: Joi.number() })] and a
    schema whose override has an override itself *)
Definition overridden_by_number : node :=
  with_override (plain "number") (with_flags (presence_flags "forbidden") (plain "string")).

Definition doubly_overridden : node := with_override overridden_by_number (plain "any").

Definition with_valids (only_flag : bool) (vs : list json) (n : node) : node :=
  {| type := type n; _rules := _rules n;
     _flags := {| presence := presence (_flags n); label := label (_flags n);
                  description := description (_flags n); default := default (_flags n);
                  encoding := encoding (_flags n); format := format (_flags n);
                  unknown := unknown (_flags n); match_mode := match_mode (_flags n);
                  only := only_flag |};
     _valids := Some vs;
     _invalids := _invalids n; preferences_convert := preferences_convert n;
     metas := metas n; schemaOverride := schemaOverride n; keys := keys n;
     key_patterns := key_patterns n; items := items n; matches := matches n;
     whens := whens n; examples := examples n |}.

(** [Joi.number().valid(1, 'two', null, 3)] *)
Definition number_of_mixed_valids : node :=
  with_valids true [JNum 1; JStr "two"; JNull; JNum 3] (plain "number").

(** [.case('lower')] *)
Definition case_rule (direction : string) : rule :=
  {| name := "case";
     args := {| arg_limit := None; arg_sign := None; arg_direction := Some direction;
                arg_regex := None |} |}.

Definition with_convert (c : bool) (n : node) : node :=
  {| type := type n; _rules := _rules n; _flags := _flags n; _valids := _valids n;
     _invalids := _invalids n; preferences_convert := Some c;
     metas := metas n; schemaOverride := schemaOverride n; keys := keys n;
     key_patterns := key_patterns n; items := items n; matches := matches n;
     whens := whens n; examples := examples n |}.

(** [Joi.string().alphanum().lowercase().prefs({ convert: false })] *)
Definition strict_lower_alphanum : node :=
  with_convert false
    (with_rules [rule_named "alphanum"; case_rule "lower"] (plain "string")).

(** [Joi.string().guid().isoDate().email().token()] *)
Definition guid_date_email_token : node :=
  with_rules [rule_named "guid"; rule_named "isoDate"; rule_named "email";
              rule_named "token"] (plain "string").

(** [Joi.string().length(8).min(2)] and [Joi.binary().min(1).length(16)] *)
Definition string_length_then_min : node :=
  with_rules [limit_rule "length" 8; limit_rule "min" 2] (plain "string").

(** [Joi.object().pattern(/./, Joi.any())] and
    [Joi.object().pattern(/./, Joi.number())] *)
Definition with_patterns (ps : list (option node)) (n : node) : node :=
  {| type := type n; _rules := _rules n; _flags := _flags n; _valids := _valids n;
     _invalids := _invalids n; preferences_convert := preferences_convert n;
     metas := metas n; schemaOverride := schemaOverride n; keys := keys n;
     key_patterns := Some ps; items := items n; matches := matches n;
     whens := whens n; examples := examples n |}.

Definition map_of_any : node := with_patterns [Some (plain "any")] (plain "object").
Definition map_of_numbers : node := with_patterns [Some (plain "number")] (plain "object").

(** [Joi.object({ id: Joi.string().required(), note: Joi.string(),
    code: Joi.number().required() })] *)
Definition two_required : node :=
  object_keys [("id", required_string); ("note", plain "string");
               ("code", with_flags (presence_flags "required") (plain "number"))].

(** [Joi.alternatives().try(Joi.string(), Joi.number(), Joi.string()).match('one')] *)
Definition one_of_three : node :=
  {| type := "alternatives"; _rules := [];
     _flags := {| presence := None; label := None; description := None;
                  default := JUndefined; encoding := None; format := None;
                  unknown := None; match_mode := Some "one"; only := false |};
     _valids := None; _invalids := None; preferences_convert := None; metas := [];
     schemaOverride := None; keys := None; key_patterns := None; items := None;
     matches := Some [MatchSchema (plain "string"); MatchSchema (plain "number");
                      MatchSchema (plain "string")];
     whens := None; examples := None |}.

(** [Joi.string().meta({ className: 'A', note: 1 }).meta({ className: 'B' })] *)
Definition twice_named : node :=
  with_metas [[("className", JStr "A"); ("note", JNum 1)]; [("className", JStr "B")]]
             (plain "string").

Definition binary_min_then_length : node :=
  with_rules [limit_rule "min" 1; limit_rule "length" 16] (plain "binary").

End Inputs.

(* ===================================================================== *)
(** ** Notions used to state properties of the assembler *)
(* ===================================================================== *)

Module Assembly.
Import JS Joi JoiToSwagger SchemaToSwagger.

(** the map from the name of a parameter to the name of its component
    that [buildSwaggerPaths] builds from [swaggerComponents.parameters] *)
Definition paramNameToRefName (parameters : object) : object :=
  fold_left (fun acc entry =>
               obj_set (to_string (prop "name" (snd entry))) (JStr (fst entry)) acc)
            parameters [].

(** [reg'] keeps what [reg] holds: the same parameters, every schema
    entry that holds a schema, and every binding of the two maps *)
Definition grows (reg reg' : registry) : Prop :=
  parameters reg' = parameters reg /\
  (forall name v, obj_get name (schemas reg) = Some v -> truthy v = true ->
                  obj_get name (schemas reg') = Some v) /\
  (forall a name, schemaMap reg !! a = Some name -> schemaMap reg' !! a = Some name) /\
  (forall s name, convertedSchemasMap reg !! s = Some name ->
                  convertedSchemasMap reg' !! s = Some name).

(** every name one of the two maps binds is the name of a schema of the
    registry *)
Definition sound (reg : registry) : Prop :=
  (forall a name, schemaMap reg !! a = Some name ->
                  truthy (prop name (JObj (schemas reg))) = true) /\
  (forall s name, convertedSchemasMap reg !! s = Some name ->
                  truthy (prop name (JObj (schemas reg))) = true).

(** [s] is a reference to a schema that [schemas] holds *)
Definition resolves (schemas : object) (s : json) : Prop :=
  exists name,
    s = JStr ("#/components/schemas/" +:+ name) /\
    truthy (prop name (JObj schemas)) = true.

(** the entry of a [content] map for a schema registered as [name] *)
Definition media_entry (with_examples : bool) (m : media) (name : string) : json :=
  JObj ([("schema", JObj [("$ref", JStr ("#/components/schemas/" +:+ name))])]
        ++ (if with_examples && truthy (media_examples m)
            then [("examples", media_examples m)] else [])).

End Assembly.

(* ===================================================================== *)
(** ** Further schema classes used as concrete inputs *)
(* ===================================================================== *)

Module MoreClasses.
Import JS Joi SchemaToSwagger Samples Classes.

(** two schemas built alike, at two addresses *)
Definition item_at (a : nat) : ref := {| addr := a; target := Schema item_schema |}.

(** what [item_schema] compiles to, and what the registry stores of it
    (the same without the title) *)
Definition item_compiled : object :=
  [("type", JStr "object");
   ("properties", JObj [("name", JObj [("type", JStr "string")])]);
   ("required", JArr [JStr "name"]);
   ("additionalProperties", JBool false);
   ("title", JStr "Item")].

Definition item_stored : object :=
  [("type", JStr "object");
   ("properties", JObj [("name", JObj [("type", JStr "string")])]);
   ("required", JArr [JStr "name"]);
   ("additionalProperties", JBool false)].

(** the registry [base] after the resolver registered [item_schema], met
    at address [a], under its label *)
Definition with_item (a : nat) (base : registry) : registry :=
  {| schemas := schemas base ++ [("Item", JObj item_stored)];
     parameters := parameters base;
     schemaMap := <[a := "Item"]> (schemaMap base);
     convertedSchemasMap :=
       <[JSON_stringify (JObj item_compiled) := "Item"]> (convertedSchemasMap base) |}.

(** a class that declares [Item] among its component schemas *)
Definition declaring_class : schema_class :=
  {| component_schemas := [("Item", item_at 30); ("Name", {| addr := 31; target := Schema (plain "string") |})];
     component_parameters := [];
     paths := [("/items", [("get", get_items)])];
     class_tags := JArr [] |}.

(** the registry [buildSwaggerComponents] builds for [declaring_class] *)
Definition declared_registry : registry :=
  {| schemas := [("Item", JObj item_compiled); ("Name", JObj [("type", JStr "string")])];
     parameters := [];
     schemaMap := <[31%nat := "Name"]> (<[30%nat := "Item"]> ∅);
     convertedSchemasMap :=
       <[JSON_stringify (JObj [("type", JStr "string")]) := "Name"]>
         (<[JSON_stringify (JObj item_compiled) := "Item"]> ∅) |}.

(** a class with the static properties [listItems] and [addItem], two
    routes of the path [/items], next to a static method and a constant *)
Definition items_route_class : RouteSchema.route_class :=
  {| RouteSchema.tag := Some [("name", JStr "Items")];
     RouteSchema.statics :=
       [("length", RouteSchema.StaticPrimitive (JNum 0));
        ("name", RouteSchema.StaticPrimitive (JStr "ItemSchema"));
        ("prototype", RouteSchema.StaticObject
                        {| RouteSchema.path := JUndefined;
                           RouteSchema.config := login_route |});
        ("tag", RouteSchema.StaticObject
                  {| RouteSchema.path := JUndefined; RouteSchema.config := login_route |});
        ("helper", RouteSchema.StaticFunction);
        ("version", RouteSchema.StaticPrimitive (JNum 2));
        ("listItems", RouteSchema.StaticObject
                        {| RouteSchema.path := JStr "/items";
                           RouteSchema.config := get_items |});
        ("addItem", RouteSchema.StaticObject
                      {| RouteSchema.path := JStr "/items";
                         RouteSchema.config := post_items |})] |}.

(** the [paths] of the document for [items_class] *)
Definition items_document_paths : object :=
  [("/items",
    JObj [("get",
           JObj [("tags", JArr [JStr "Items"]);
                 ("summary", JStr "List the items");
                 ("parameters", JArr []);
                 ("responses",
                  JObj [("200",
                         JObj [("description", JStr "ok");
                               ("content",
                                JObj [("application/json",
                                       JObj [("schema",
                                              JObj [("$ref",
                                                     JStr "#/components/schemas/Item")])])])])])])])].

(** the document [schemaToSwagger] builds for [declaring_class] *)
Definition declaring_document : json :=
  JObj [("definition",
         JObj [("tags", JArr []);
               ("paths", JObj items_document_paths);
               ("components",
                JObj [("schemas",
                       JObj [("Item", JObj item_compiled);
                             ("Name", JObj [("type", JStr "string")])]);
                      ("parameters", JObj [])])])].

(** a class that declares, under the key [Thing], the schema object its
    route [GET /items] answers with (the object at address 10, labelled
    [Item]), and the document built for it *)
Definition referencing_class : schema_class :=
  {| component_schemas := [("Thing", item_at 10)];
     component_parameters := [];
     paths := [("/items", [("get", get_items); ("post", post_items)])];
     class_tags := JArr [] |}.

Definition referencing_document : json :=
  JObj [("definition",
         JObj [("tags", JArr []);
               ("paths",
                JObj [("/items",
                       JObj [("get",
                              JObj [("tags", JArr [JStr "Items"]);
                                    ("summary", JStr "List the items");
                                    ("parameters", JArr []);
                                    ("responses",
                                     JObj [("200",
                                            JObj [("description", JStr "ok");
                                                  ("content",
                                                   JObj [("application/json",
                                                          JObj [("schema",
                                                                 JObj [("$ref",
                                                                        JStr "#/components/schemas/Thing")])])])])])])])]);
               ("components",
                JObj [("schemas", JObj [("Thing", JObj item_compiled)]);
                      ("parameters", JObj [])])])].

(** the arguments of [createRoute] for [GET /items] *)
Definition list_items_args : RouteSchema.route_args :=
  {| RouteSchema.arg_path := JStr "/items"; RouteSchema.arg_method := JStr "get";
     RouteSchema.arg_summary := JStr "List the items";
     RouteSchema.arg_headers := None; RouteSchema.arg_query := None;
     RouteSchema.arg_body := None;
     RouteSchema.arg_responses := Some [("200", json_response 10 item_schema)] |}.

(** the same without a summary *)
Definition unnamed_route_args : RouteSchema.route_args :=
  {| RouteSchema.arg_path := JStr "/items"; RouteSchema.arg_method := JStr "get";
     RouteSchema.arg_summary := JUndefined;
     RouteSchema.arg_headers := None; RouteSchema.arg_query := None;
     RouteSchema.arg_body := None; RouteSchema.arg_responses := None |}.

(** a class that does not override [tag] *)
Definition untagged_class : RouteSchema.route_class :=
  {| RouteSchema.tag := None; RouteSchema.statics := [] |}.

(** a route whose headers are [x-request-id], declared as the parameter
    component [RequestId], and [x-trace], declared nowhere *)
Definition traced_route : method_config :=
  {| method := JStr "get"; tags := JArr []; summary := JStr "Trace";
     headers := Some (object_keys [("x-request-id", described_required_string);
                                   ("x-trace", plain "string")]);
     query := None; body := None; responses := None |}.

(** the responses [200], with a JSON body, and [204], without content *)
Definition two_responses : list (string * response_config) :=
  [("200", json_response 10 item_schema);
   ("204", {| response_description := JStr "empty"; response_content := None |})].

(** what [buildResponses] builds for [two_responses] *)
Definition two_responses_built : object :=
  [("200",
    JObj [("description", JStr "ok");
          ("content",
           JObj [("application/json",
                  JObj [("schema", JObj [("$ref", JStr "#/components/schemas/Item")])])])]);
   ("204", JObj [("description", JStr "empty"); ("content", JObj [])])].

Definition declared_parameters : object :=
  [("RequestId",
    JObj [("name", JStr "x-request-id"); ("in", JStr "header");
          ("required", JBool true); ("schema", JObj [("type", JStr "string")]);
          ("description", JStr "Request id")]);
   ("Limit",
    JObj [("name", JStr "limit"); ("in", JStr "query"); ("required", JBool false);
          ("schema", JObj [("type", JStr "number"); ("format", JStr "float")]);
          ("description", JStr EmptyString)])].

End MoreClasses.

(* ===================================================================== *)
(** ** Facts about JavaScript objects *)
(* ===================================================================== *)

Section ObjectFacts.
Import JS.

Lemma obj_get_None_keys k o : obj_get k o = None <-> ~ In k (obj_keys o).
Proof.
  induction o as [|[k' v'] o IH]; simpl.
  - tauto.
  - destruct (String.eqb_spec k' k) as [->|Hne].
    + split; [discriminate | intros H; exfalso; apply H; now left].
    + rewrite IH. split; [intros H [?|?]; [congruence | tauto] | tauto].
Qed.

Lemma obj_get_app k o1 o2 :
  obj_get k (o1 ++ o2) =
  match obj_get k o1 with Some v => Some v | None => obj_get k o2 end.
Proof.
  induction o1 as [|[k' v'] o1 IH]; simpl; [reflexivity|].
  destruct (String.eqb k' k); auto.
Qed.

Lemma obj_get_replace_eq k v o :
  obj_has k o = true -> obj_get k (obj_replace k v o) = Some v.
Proof.
  unfold obj_has. induction o as [|[k' v'] o IH]; simpl; [discriminate|].
  destruct (String.eqb k' k) eqn:E; simpl; rewrite E; auto.
Qed.

Lemma obj_get_replace_ne k k' v o :
  k <> k' -> obj_get k' (obj_replace k v o) = obj_get k' o.
Proof.
  intros Hne. induction o as [|[k1 v1] o IH]; simpl; [reflexivity|].
  destruct (String.eqb_spec k1 k) as [->|Hk]; simpl.
  - destruct (String.eqb_spec k k'); [contradiction | reflexivity].
  - destruct (String.eqb k1 k'); auto.
Qed.

Lemma obj_get_insert_index_eq i k v o :
  obj_has k o = false -> obj_get k (obj_insert_index i k v o) = Some v.
Proof.
  unfold obj_has. induction o as [|[k1 v1] o IH]; simpl.
  - now rewrite String.eqb_refl.
  - destruct (String.eqb k1 k) eqn:E; [discriminate|]. intros H.
    destruct (array_index k1) as [j|]; [destruct (j <? i)%N|]; simpl;
      rewrite ?E, ?String.eqb_refl; auto.
Qed.

Lemma obj_get_insert_index_ne i k k' v o :
  k <> k' -> obj_get k' (obj_insert_index i k v o) = obj_get k' o.
Proof.
  intros Hne. induction o as [|[k1 v1] o IH]; simpl.
  - destruct (String.eqb_spec k k'); [contradiction | reflexivity].
  - destruct (array_index k1) as [j|]; [destruct (j <? i)%N|]; simpl;
      try (destruct (String.eqb_spec k k'); [contradiction|]);
      destruct (String.eqb k1 k'); auto.
Qed.

Lemma obj_get_set_eq k v o : obj_get k (obj_set k v o) = Some v.
Proof.
  unfold obj_set. destruct (obj_has k o) eqn:E.
  - now apply obj_get_replace_eq.
  - destruct (array_index k).
    + now apply obj_get_insert_index_eq.
    + rewrite obj_get_app. unfold obj_has in E.
      destruct (obj_get k o); [discriminate|]. simpl. now rewrite String.eqb_refl.
Qed.

Lemma obj_get_set_ne k k' v o : k <> k' -> obj_get k' (obj_set k v o) = obj_get k' o.
Proof.
  intros Hne. unfold obj_set. destruct (obj_has k o).
  - now apply obj_get_replace_ne.
  - destruct (array_index k).
    + now apply obj_get_insert_index_ne.
    + rewrite obj_get_app. destruct (obj_get k' o); [reflexivity|]. simpl.
      destruct (String.eqb_spec k k'); [contradiction | reflexivity].
Qed.

Lemma obj_get_delete_ne k k' o : k <> k' -> obj_get k' (obj_delete k o) = obj_get k' o.
Proof.
  intros Hne. induction o as [|[k1 v1] o IH]; simpl; [reflexivity|].
  destruct (String.eqb_spec k1 k) as [->|Hk]; simpl.
  - destruct (String.eqb_spec k k'); [contradiction | reflexivity].
  - destruct (String.eqb k1 k'); auto.
Qed.

Lemma obj_get_delete_eq k o : List.NoDup (obj_keys o) -> obj_get k (obj_delete k o) = None.
Proof.
  induction o as [|[k1 v1] o IH]; simpl; [reflexivity|].
  intros Hnd. apply NoDup_cons_iff in Hnd as [Hnotin Hnd].
  destruct (String.eqb_spec k1 k) as [->|Hk]; simpl.
  - now apply obj_get_None_keys.
  - destruct (String.eqb_spec k1 k); [contradiction | auto].
Qed.

Lemma obj_get_assign_absent k t s :
  obj_get k s = None -> obj_get k (obj_assign t s) = obj_get k t.
Proof.
  unfold obj_assign. revert t.
  induction s as [|[k1 v1] s IH]; simpl; intros t; [reflexivity|].
  destruct (String.eqb_spec k1 k) as [->|Hk]; [discriminate|].
  intros H. rewrite IH by assumption. now apply obj_get_set_ne.
Qed.

Lemma obj_get_assign_present k v t s :
  List.NoDup (obj_keys s) -> obj_get k s = Some v -> obj_get k (obj_assign t s) = Some v.
Proof.
  unfold obj_assign. revert t.
  induction s as [|[k1 v1] s IH]; simpl; intros t Hnd; [discriminate|].
  apply NoDup_cons_iff in Hnd as [Hnotin Hnd].
  destruct (String.eqb_spec k1 k) as [->|Hk].
  - intros [= ->].
    change (obj_get k (obj_assign (obj_set k v t) s) = Some v).
    rewrite obj_get_assign_absent by now apply obj_get_None_keys.
    apply obj_get_set_eq.
  - intros H. now apply IH.
Qed.

Lemma obj_keys_replace k v o : obj_keys (obj_replace k v o) = obj_keys o.
Proof.
  induction o as [|[k1 v1] o IH]; simpl; [reflexivity|].
  destruct (String.eqb k1 k); simpl; [reflexivity | now rewrite IH].
Qed.

Lemma obj_keys_insert_index i k v o x :
  In x (obj_keys (obj_insert_index i k v o)) <-> x = k \/ In x (obj_keys o).
Proof.
  induction o as [|[k1 v1] o IH]; simpl; [intuition auto|].
  destruct (array_index k1) as [j|]; [destruct (j <? i)%N|]; simpl;
    rewrite ?IH; intuition auto.
Qed.

Lemma obj_insert_index_NoDup i k v o :
  ~ In k (obj_keys o) -> List.NoDup (obj_keys o) ->
  List.NoDup (obj_keys (obj_insert_index i k v o)).
Proof.
  induction o as [|[k1 v1] o IH]; simpl; intros Hk Hnd.
  - constructor; [tauto | constructor].
  - apply NoDup_cons_iff in Hnd as [Hk1 Hnd].
    destruct (array_index k1) as [j|]; [destruct (j <? i)%N|]; simpl.
    + constructor.
      * rewrite obj_keys_insert_index. intros [->|?]; tauto.
      * apply IH; tauto.
    + constructor; [simpl; tauto | now constructor].
    + constructor; [simpl; tauto | now constructor].
Qed.

(** assignments keep the keys of an object distinct *)
Lemma obj_set_NoDup k v o : List.NoDup (obj_keys o) -> List.NoDup (obj_keys (obj_set k v o)).
Proof.
  intros Hnd. unfold obj_set. destruct (obj_has k o) eqn:E.
  - now rewrite obj_keys_replace.
  - assert (Hk : ~ In k (obj_keys o)).
    { apply obj_get_None_keys. unfold obj_has in E. now destruct (obj_get k o). }
    destruct (array_index k).
    + now apply obj_insert_index_NoDup.
    + unfold obj_keys. rewrite map_app. apply List.NoDup_app.
      * exact Hnd.
      * constructor; [simpl; tauto | constructor].
      * intros x Hx [<-|[]]. contradiction.
Qed.

Lemma obj_get_assign k t s :
  List.NoDup (obj_keys s) ->
  obj_get k (obj_assign t s)
  = match obj_get k s with Some v => Some v | None => obj_get k t end.
Proof.
  intros Hnd. destruct (obj_get k s) eqn:E.
  - now apply obj_get_assign_present.
  - now apply obj_get_assign_absent.
Qed.

End ObjectFacts.

(* ===================================================================== *)
(** ** Facts about loops that may throw *)
(* ===================================================================== *)

Section Loops.
Import JoiToSwagger.
Context {A S : Type}.
Implicit Types (step : S -> A -> outcome S) (xs : list A) (acc : S).

Lemma for_each_app step xs ys acc :
  for_each step (xs ++ ys) acc
  = bind (for_each step xs acc) (for_each step ys).
Proof.
  revert acc. induction xs as [|x xs IH]; intros acc; simpl; [reflexivity|].
  destruct (step acc x); simpl; auto.
Qed.

(** a property of the state that every returning step preserves holds
    when the loop returns *)
Lemma for_each_invariant (I : S -> Prop) step xs acc r :
  I acc ->
  (forall s x s', In x xs -> I s -> step s x = Return s' -> I s') ->
  for_each step xs acc = Return r -> I r.
Proof.
  revert acc. induction xs as [|x xs IH]; intros acc Hacc Hstep; simpl.
  - now intros [= <-].
  - destruct (step acc x) as [s'| |] eqn:E; simpl; try discriminate.
    apply IH.
    + eapply Hstep; eauto. now left.
    + intros s y s'' Hin. apply Hstep. now right.
Qed.

(** an exception thrown by a step leaves the loop at once: the loop
    throws it *)
Lemma for_each_throw step xs x ys acc acc' e :
  for_each step xs acc = Return acc' ->
  step acc' x = Throw e ->
  for_each step (xs ++ x :: ys) acc = Throw e.
Proof.
  intros Hxs Hx. rewrite for_each_app, Hxs. simpl. now rewrite Hx.
Qed.

(** a loop whose steps all return, returns *)
Lemma for_each_returns step xs acc :
  (forall s x, In x xs -> exists s', step s x = Return s') ->
  exists r, for_each step xs acc = Return r.
Proof.
  revert acc. induction xs as [|x xs IH]; intros acc Hstep; simpl; [eauto|].
  destruct (Hstep acc x) as [s' ->]; [now left|]. simpl.
  apply IH. intros s y Hin. apply Hstep. now right.
Qed.

Lemma for_each_ext step step' xs acc :
  (forall s x, In x xs -> step s x = step' s x) ->
  for_each step xs acc = for_each step' xs acc.
Proof.
  revert acc. induction xs as [|x xs IH]; intros acc H; simpl; [reflexivity|].
  rewrite H by now left. destruct (step' acc x); simpl; auto.
  apply IH. intros s y Hin. apply H. now right.
Qed.

End Loops.

(* ===================================================================== *)
(** ** Deduplication by [uniqWith] *)
(* ===================================================================== *)

Section Dedup.
Import JS Spec.
Variable cmp : json -> json -> bool.

Local Abbreviation step := (Lodash.uniq_step cmp).

Lemma uniq_fold_sublist xs kept :
  exists added, fold_left step xs kept = kept ++ added /\ sublist added xs.
Proof.
  revert kept. induction xs as [|x xs IH]; intros kept; simpl.
  - exists []. split; [now rewrite app_nil_r | constructor].
  - unfold Lodash.uniq_step at 2. destruct (existsb (cmp x) kept).
    + destruct (IH kept) as (added & -> & Hsub).
      exists added. split; [reflexivity | now constructor].
    + destruct (IH (kept ++ [x])) as (added & -> & Hsub).
      exists (x :: added). split; [now rewrite <- app_assoc | now constructor].
Qed.

Lemma distinct_snoc kept x :
  distinct cmp kept -> existsb (cmp x) kept = false -> distinct cmp (kept ++ [x]).
Proof.
  intros Hd Hx i j a b Hij Ha Hb.
  destruct (decide (j < length kept)%nat) as [Hj|Hj].
  - rewrite lookup_app_l in Ha by lia. rewrite lookup_app_l in Hb by lia. eauto.
  - rewrite lookup_app_r in Hb by lia.
    destruct (j - length kept)%nat eqn:E; simpl in Hb; [|now destruct n].
    injection Hb as <-.
    rewrite lookup_app_l in Ha by lia.
    destruct (existsb (cmp x) kept) eqn:Hex; [discriminate|].
    destruct (cmp x a) eqn:Hc; [|reflexivity].
    assert (existsb (cmp x) kept = true); [|congruence].
    apply existsb_exists. exists a. split; [|assumption].
    apply list_elem_of_In, list_elem_of_lookup. eauto.
Qed.

Lemma uniq_fold_distinct xs kept :
  distinct cmp kept -> distinct cmp (fold_left step xs kept).
Proof.
  revert kept. induction xs as [|x xs IH]; intros kept Hd; simpl; [assumption|].
  apply IH. unfold Lodash.uniq_step. destruct (existsb (cmp x) kept) eqn:E; [assumption|].
  now apply distinct_snoc.
Qed.

Lemma uniq_fold_covers xs kept x :
  In x xs ->
  In x (fold_left step xs kept)
  \/ exists y, In y (fold_left step xs kept) /\ cmp x y = true.
Proof.
  revert kept. induction xs as [|a xs IH]; intros kept; simpl; [tauto|].
  intros [->|Hin]; [|now apply IH].
  destruct (uniq_fold_sublist xs (step kept x)) as (added & -> & _).
  unfold Lodash.uniq_step. destruct (existsb (cmp x) kept) eqn:E.
  - right. apply existsb_exists in E as (y & Hy & Hc).
    exists y. split; [apply in_or_app; now left | assumption].
  - left. apply in_or_app. left. apply in_or_app. right. now left.
Qed.

(** [uniqWith] deduplicates in the sense of the specification *)
Lemma uniqWith_deduplicated xs : deduplicated cmp xs (Lodash.uniqWith cmp xs).
Proof.
  unfold deduplicated, Lodash.uniqWith. split; [|split].
  - destruct (uniq_fold_sublist xs []) as (added & -> & Hsub). exact Hsub.
  - apply (uniq_fold_distinct xs []). intros i j x y _ Hx. discriminate.
  - intros x. apply uniq_fold_covers.
Qed.

Lemma uniqWith_In xs x : In x (Lodash.uniqWith cmp xs) -> In x xs.
Proof.
  intros H. destruct (uniqWith_deduplicated xs) as (Hsub & _).
  apply list_elem_of_In. apply (sublist_subseteq _ _ Hsub).
  now apply list_elem_of_In.
Qed.

End Dedup.

(* ===================================================================== *)
(** ** The rule extractors *)
(* ===================================================================== *)

Ltac obj_get_simpl :=
  repeat first
    [ rewrite obj_get_set_eq
    | rewrite obj_get_set_ne by discriminate
    | rewrite obj_get_delete_ne by discriminate
    | rewrite obj_get_assign_absent by (auto; reflexivity) ].

Section Extractors.
Import JS Joi JoiToSwagger Samples.

Lemma parseValidsAndInvalids_get k schema f :
  k <> "enum" -> k <> "not" -> obj_get k (parseValidsAndInvalids schema f) = None.
Proof.
  intros He Hn. unfold parseValidsAndInvalids.
  destruct (_valids schema) as [vs|], (_invalids schema) as [ws|];
    repeat match goal with |- context [if ?c then _ else _] => destruct c end;
    rewrite ?obj_get_set_ne by congruence; reflexivity.
Qed.

(** the two keys [getMinMax] can set *)
Lemma getMinMax_get k schema suffix :
  k <> "min" +:+ suffix -> k <> "max" +:+ suffix ->
  obj_get k (getMinMax schema suffix) = None.
Proof.
  intros Hmin Hmax. unfold getMinMax.
  assert (H : forall rules acc, obj_get k acc = None ->
              obj_get k (fold_left (minmax_step suffix) rules acc) = None).
  { induction rules as [|r rules IH]; simpl; intros acc Hacc; [assumption|].
    apply IH. unfold minmax_step.
    repeat match goal with |- context [if ?c then _ else _] => destruct c end;
      rewrite ?obj_get_set_ne by congruence; assumption. }
  apply H. reflexivity.
Qed.

Lemma getMinMax_NoDup schema suffix : List.NoDup (obj_keys (getMinMax schema suffix)).
Proof.
  unfold getMinMax.
  assert (H : forall rules acc, List.NoDup (obj_keys acc) ->
              List.NoDup (obj_keys (fold_left (minmax_step suffix) rules acc))).
  { induction rules as [|r rules IH]; simpl; intros acc Hacc; [assumption|].
    apply IH. unfold minmax_step.
    repeat match goal with |- context [if ?c then _ else _] => destruct c end;
      repeat apply obj_set_NoDup; assumption. }
  apply H. constructor.
Qed.

(** [min<suffix>] is the limit of the last [min] or [length] rule,
    [max<suffix>] that of the last [max] or [length] rule *)
Lemma getMinMax_min schema suffix :
  obj_get ("min" +:+ suffix) (getMinMax schema suffix)
  = Spec.last_limit ["min"; "length"] (_rules schema).
Proof.
  unfold getMinMax.
  assert (H : forall rules acc,
    obj_get ("min" +:+ suffix) (fold_left (minmax_step suffix) rules acc)
    = match Spec.last_limit ["min"; "length"] rules with
      | Some v => Some v
      | None => obj_get ("min" +:+ suffix) acc
      end).
  { induction rules as [|r rules IH]; intros acc; [reflexivity|].
    cbn [fold_left Spec.last_limit]. rewrite IH.
    destruct (Spec.last_limit ["min"; "length"] rules); [reflexivity|].
    unfold minmax_step. cbn [existsb].
    destruct (String.eqb (name r) "min"), (String.eqb (name r) "max"),
      (String.eqb (name r) "length"); cbn [orb];
      rewrite ?(obj_get_set_ne ("max" +:+ suffix) ("min" +:+ suffix)) by discriminate;
      rewrite ?obj_get_set_eq; reflexivity. }
  rewrite H. now destruct (Spec.last_limit _ _).
Qed.

Lemma getMinMax_max schema suffix :
  obj_get ("max" +:+ suffix) (getMinMax schema suffix)
  = Spec.last_limit ["max"; "length"] (_rules schema).
Proof.
  unfold getMinMax.
  assert (H : forall rules acc,
    obj_get ("max" +:+ suffix) (fold_left (minmax_step suffix) rules acc)
    = match Spec.last_limit ["max"; "length"] rules with
      | Some v => Some v
      | None => obj_get ("max" +:+ suffix) acc
      end).
  { induction rules as [|r rules IH]; intros acc; [reflexivity|].
    cbn [fold_left Spec.last_limit]. rewrite IH.
    destruct (Spec.last_limit ["max"; "length"] rules); [reflexivity|].
    unfold minmax_step. cbn [existsb].
    destruct (String.eqb (name r) "min"), (String.eqb (name r) "max"),
      (String.eqb (name r) "length"); cbn [orb];
      rewrite ?obj_get_set_eq;
      rewrite ?(obj_get_set_ne ("min" +:+ suffix) ("max" +:+ suffix)) by discriminate;
      rewrite ?obj_get_set_eq; reflexivity. }
  rewrite H. now destruct (Spec.last_limit _ _).
Qed.

(** *** The number extractor *)

(** the two outcomes of the type decision *)
Lemma number_type_integer schema :
  has_rule schema "integer" = true ->
  obj_get "type" (parseAsType_number schema) = Some (JStr "integer").
Proof.
  intros Hint. unfold parseAsType_number. rewrite Hint.
  rewrite obj_get_assign_absent by (apply parseValidsAndInvalids_get; discriminate).
  destruct (find_rule schema "max"), (find_rule schema "min"),
    (find_rule schema "sign") as [sg|];
    try destruct (is_str (arg_sign (args sg)) "positive");
    try destruct (is_str (arg_sign (args sg)) "negative");
    obj_get_simpl; reflexivity.
Qed.

Lemma number_type_number schema :
  has_rule schema "integer" = false ->
  obj_get "type" (parseAsType_number schema) = Some (JStr "number") /\
  obj_get "format" (parseAsType_number schema)
  = Some (JStr (if has_rule schema "precision" then "double" else "float")).
Proof.
  intros Hint. unfold parseAsType_number. rewrite Hint.
  rewrite !obj_get_assign_absent by (apply parseValidsAndInvalids_get; discriminate).
  destruct (find_rule schema "max"), (find_rule schema "min"),
    (find_rule schema "sign") as [sg|];
    try destruct (is_str (arg_sign (args sg)) "positive");
    try destruct (is_str (arg_sign (args sg)) "negative");
    destruct (has_rule schema "precision");
    obj_get_simpl; split; reflexivity.
Qed.

Lemma number_minimum_of_min schema min :
  find_rule schema "min" = Some min ->
  obj_get "minimum" (parseAsType_number schema) = Some (number_limit schema min).
Proof.
  intros Hmin. unfold parseAsType_number. rewrite Hmin.
  rewrite obj_get_assign_absent by (apply parseValidsAndInvalids_get; discriminate).
  destruct (find_rule schema "max"); obj_get_simpl; reflexivity.
Qed.

Lemma number_maximum_of_max schema max :
  find_rule schema "max" = Some max ->
  obj_get "maximum" (parseAsType_number schema) = Some (number_limit schema max).
Proof.
  intros Hmax. unfold parseAsType_number. rewrite Hmax.
  rewrite obj_get_assign_absent by (apply parseValidsAndInvalids_get; discriminate).
  obj_get_simpl. reflexivity.
Qed.

Lemma number_minimum_of_sign schema sign :
  find_rule schema "sign" = Some sign ->
  is_str (arg_sign (args sign)) "positive" = true ->
  find_rule schema "min" = None ->
  obj_get "minimum" (parseAsType_number schema) = Some (JNum 1).
Proof.
  intros Hsign Hpos Hmin. unfold parseAsType_number. rewrite Hsign, Hpos, Hmin.
  rewrite obj_get_assign_absent by (apply parseValidsAndInvalids_get; discriminate).
  destruct (find_rule schema "max"); obj_get_simpl; reflexivity.
Qed.

Lemma number_maximum_of_sign schema sign :
  find_rule schema "sign" = Some sign ->
  is_str (arg_sign (args sign)) "negative" = true ->
  find_rule schema "max" = None ->
  obj_get "maximum" (parseAsType_number schema) = Some (JNum (-1)).
Proof.
  intros Hsign Hneg Hmax. unfold parseAsType_number. rewrite Hsign, Hneg, Hmax.
  rewrite obj_get_assign_absent by (apply parseValidsAndInvalids_get; discriminate).
  destruct (find_rule schema "min"), (is_str (arg_sign (args sign)) "positive") eqn:Hpos;
    obj_get_simpl; try reflexivity.
  all: destruct (arg_sign (args sign)) as [s|]; simpl in *; try discriminate;
    apply String.eqb_eq in Hpos, Hneg; congruence.
Qed.

(** C5, as the code has it: the type is "integer" when an [integer] rule
    is present, otherwise "number" with format "double" exactly when a
    [precision] rule is present and "float" otherwise; a positive sign
    rule gives minimum 1 and a negative one maximum -1 unless a [min]
    (resp. [max]) rule is present, whose limit is then the minimum (resp.
    maximum); and [Joi.number().positive().integer()], without a label,
    compiles inline to [{type: "integer", minimum: 1}]. *)
Theorem number_extractor_spec (schema : node) :
  (has_rule schema "integer" = true ->
     obj_get "type" (parseAsType_number schema) = Some (JStr "integer")) /\
  (has_rule schema "integer" = false ->
     obj_get "type" (parseAsType_number schema) = Some (JStr "number") /\
     obj_get "format" (parseAsType_number schema)
     = Some (JStr (if has_rule schema "precision" then "double" else "float"))) /\
  (forall sign, find_rule schema "sign" = Some sign ->
     (is_str (arg_sign (args sign)) "positive" = true ->
      obj_get "minimum" (parseAsType_number schema)
      = Some (match find_rule schema "min" with
              | Some min => number_limit schema min
              | None => JNum 1
              end)) /\
     (is_str (arg_sign (args sign)) "negative" = true ->
      obj_get "maximum" (parseAsType_number schema)
      = Some (match find_rule schema "max" with
              | Some max => number_limit schema max
              | None => JNum (-1)
              end))) /\
  (forall fuel,
     j2s (S fuel) (Schema positive_integer)
     = Return (Some (JObj [("type", JStr "integer"); ("minimum", JNum 1)], []))).
Proof.
  repeat split.
  - apply number_type_integer.
  - now apply number_type_number.
  - now apply number_type_number.
  - intros Hpos. destruct (find_rule schema "min") eqn:Hmin.
    + now apply number_minimum_of_min.
    + now apply (number_minimum_of_sign schema sign).
  - intros Hneg. destruct (find_rule schema "max") eqn:Hmax.
    + now apply number_maximum_of_max.
    + now apply (number_maximum_of_sign schema sign).
Qed.

(** the scenario of C5 and a node with a negative sign and a precision
    rule, through the theorem *)
Lemma number_extractor_spec_witness :
  obj_get "type" (parseAsType_number positive_integer) = Some (JStr "integer") /\
  obj_get "minimum" (parseAsType_number positive_integer) = Some (JNum 1) /\
  obj_get "format" (parseAsType_number negative_precise) = Some (JStr "double") /\
  obj_get "maximum" (parseAsType_number negative_precise) = Some (JNum (-1)).
Proof.
  destruct (number_extractor_spec positive_integer) as (Hint & _ & Hsign & _).
  destruct (number_extractor_spec negative_precise) as (_ & Hnum & Hsign' & _).
  split; [apply Hint; reflexivity|].
  split; [apply (Hsign (sign_rule "positive")); reflexivity|].
  split; [apply Hnum; reflexivity|].
  apply (Hsign' (sign_rule "negative")); reflexivity.
Defined.

(** C5 as written fails on [Joi.number().positive().min(5)]: the sign
    rule is positive and the compiled minimum is 5, not 1. *)
Lemma number_positive_min_counterexample :
  find_rule positive_min5 "sign" = Some (sign_rule "positive") /\
  j2s 1 (Schema positive_min5)
  = Return (Some (JObj [("type", JStr "number"); ("format", JStr "float");
                        ("minimum", JNum 5)], [])) /\
  ~ (forall schema sign,
        find_rule schema "sign" = Some sign ->
        is_str (arg_sign (args sign)) "positive" = true ->
        obj_get "minimum" (parseAsType_number schema) = Some (JNum 1)).
Proof.
  split; [reflexivity|]. split; [reflexivity|].
  intros H. specialize (H positive_min5 (sign_rule "positive") eq_refl eq_refl).
  vm_compute in H. discriminate.
Qed.

(** *** The string extractor *)

Lemma getCaseSuffix_cases schema :
  getCaseSuffix schema = EmptyString \/ getCaseSuffix schema = "Lower"
  \/ getCaseSuffix schema = "Upper".
Proof.
  unfold getCaseSuffix. destruct (find_rule schema "case") as [r|]; auto.
  destruct (is_str (arg_direction (args r)) "lower"); auto.
  destruct (is_str (arg_direction (args r)) "upper"); auto.
Qed.




End Extractors.

(* ===================================================================== *)
(** ** The dispatcher *)
(* ===================================================================== *)

Section Dispatcher.
Import JS Joi JoiToSwagger Spec.

Lemma extractor_for_None (parse : parser) k :
  has_extractor k = false -> extractor_for (parseAsType parse) k = None.
Proof.
  unfold has_extractor. intros H. cbn [existsb] in H. rewrite !orb_false_iff in H.
  destruct H as (H1 & H2 & H3 & H4 & H5 & H6 & H7 & H8 & H9 & _).
  rewrite String.eqb_sym in H1, H2, H3, H4, H5, H6, H7, H8, H9.
  unfold parseAsType. cbn [extractor_for].
  now rewrite H1, H2, H3, H4, H5, H6, H7, H8, H9.
Qed.

(** what [parse] does with a schema that steps 1 to 3 leave alone *)
Lemma parse_schema_dispatch (parse : parser) schema existingComponents isSchemaOverride :
  not_short_circuited schema existingComponents ->
  parse_schema parse schema existingComponents isSchemaOverride
  = if forbidden schema then Return None
    else
      match extractor_for (parseAsType parse) (kind schema) with
      | None => Throw (UnrecognizedType (kind schema))
      | Some extract =>
          let* (swagger, components) := extract schema existingComponents [] in
          let* (swagger, components) :=
            match whens schema with
            | Some whens =>
                let* (w, components) :=
                  parseWhens parse whens existingComponents components in
                Return (obj_assign swagger w, components)
            | None => Return (swagger, components)
            end in
          Return (Some (getReturnValue (class_name schema)
                          (or_else (prop "classTarget" (JObj (flattenMeta schema)))
                                   (JStr "schemas"))
                          components
                          (JObj (attach schema
                                   (prop "swagger" (JObj (flattenMeta schema)))
                                   swagger))))
      end.
Proof.
  intros (Hov & Hfull & Hknown).
  unfold full_override in Hfull. unfold known_class, class_name, class_target in Hknown.
  unfold parse_schema. rewrite Hov. cbv zeta. rewrite Hfull, Hknown. reflexivity.
Qed.

Lemma parse_schema_forbidden (parse : parser) schema existingComponents isSchemaOverride :
  not_short_circuited schema existingComponents ->
  forbidden schema = true ->
  parse_schema parse schema existingComponents isSchemaOverride = Return None.
Proof.
  intros Hns Hf. rewrite parse_schema_dispatch by assumption. now rewrite Hf.
Qed.

Lemma parse_schema_unrecognized (parse : parser) schema existingComponents isSchemaOverride :
  not_short_circuited schema existingComponents ->
  forbidden schema = false ->
  has_extractor (kind schema) = false ->
  parse_schema parse schema existingComponents isSchemaOverride
  = Throw (UnrecognizedType (kind schema)).
Proof.
  intros Hns Hf Hk. rewrite parse_schema_dispatch by assumption.
  now rewrite Hf, extractor_for_None.
Qed.

End Dispatcher.

(* ===================================================================== *)
(** ** The composite extractors *)
(* ===================================================================== *)

Section CompositeFacts.
Import JS Joi JoiToSwagger Spec.
Variable parse : parser.

(** the loop of [parseAsType.array] compiles the items in order and keeps
    the results that are not [false] *)
Lemma item_loop_spec known its swaggers c swaggers' c' :
  for_each (item_step parse known) its (swaggers, c) = Return (swaggers', c') ->
  exists kept,
    compiled_in_order parse known its c kept c' /\
    swaggers' = swaggers ++ map snd kept /\
    Forall (fun b => truthy (snd b) = true) kept.
Proof.
  revert swaggers c. induction its as [|n its IH]; intros swaggers c; simpl.
  - intros [= <- <-]. exists []. split; [constructor|].
    split; [now rewrite app_nil_r | constructor].
  - unfold item_step at 1.
    destruct (parse (Schema n) (combine known c) false) as [r| |] eqn:E;
      simpl; try discriminate.
    destruct r as [[swagger components]|].
    + destruct (truthy swagger) eqn:Ht; simpl.
      * intros H. apply IH in H as (kept & Hk & -> & Hall).
        exists ((n, swagger) :: kept). split; [|split].
        -- eapply compiled_keep; eauto. simpl. now rewrite Ht.
        -- simpl. now rewrite <- app_assoc.
        -- constructor; assumption.
      * intros H. apply IH in H as (kept & Hk & -> & Hall).
        exists kept. split; [|split; auto].
        eapply compiled_drop; eauto. simpl. now rewrite Ht.
    + intros H. apply IH in H as (kept & Hk & -> & Hall).
      exists kept. split; [|split; auto].
      eapply compiled_drop; eauto.
Qed.

Lemma item_loop_returns known its st :
  (forall item comps, In item its ->
                      exists r, parse (Schema item) comps false = Return r) ->
  exists st', for_each (item_step parse known) its st = Return st'.
Proof.
  intros H. apply for_each_returns. intros [swaggers c] item Hin.
  unfold item_step. destruct (H item (combine known c) Hin) as [r ->]. simpl.
  destruct r as [[swagger components]|]; [|eauto].
  destruct (truthy swagger); simpl; eauto.
Qed.

Lemma last_limit_after names pre r post :
  existsb (String.eqb (name r)) names = true ->
  (forall r', In r' post -> existsb (String.eqb (name r')) names = false) ->
  last_limit names (pre ++ r :: post) = Some (limit_value r).
Proof.
  intros Hr Hpost.
  assert (Hnone : last_limit names post = None).
  { induction post as [|p post IH]; simpl; [reflexivity|].
    rewrite IH by (intros; apply Hpost; now right).
    now rewrite Hpost by now left. }
  induction pre as [|p pre IH]; simpl.
  - now rewrite Hnone, Hr.
  - now rewrite IH.
Qed.

(** the fields of the object [parseAsType.array] returns, [base] being
    [{type, items}] *)
Lemma array_openapi_get schema base k :
  k <> "uniqueItems" ->
  obj_get k (if has_rule schema "unique"
             then obj_set "uniqueItems" (JBool true)
                    (obj_assign base (getMinMax schema "Items"))
             else obj_assign base (getMinMax schema "Items"))
  = match obj_get k (getMinMax schema "Items") with
    | Some v => Some v
    | None => obj_get k base
    end.
Proof.
  intros Hk. destruct (has_rule schema "unique");
    rewrite ?obj_get_set_ne by congruence; apply obj_get_assign, getMinMax_NoDup.
Qed.

Lemma array_base_get (survivors : list json) k :
  obj_get k (if (length survivors <=? 1)%nat
             then obj_set "items"
                    (or_else (match survivors with x :: _ => x | [] => JUndefined end)
                             (JObj []))
                    [("type", JStr "array"); ("items", JObj [("oneOf", JArr survivors)])]
             else [("type", JStr "array"); ("items", JObj [("oneOf", JArr survivors)])])
  = if String.eqb "type" k then Some (JStr "array")
    else if String.eqb "items" k
         then Some (if (length survivors <=? 1)%nat
                    then or_else (match survivors with x :: _ => x | [] => JUndefined end)
                                 (JObj [])
                    else JObj [("oneOf", JArr survivors)])
         else None.
Proof.
  destruct (length survivors <=? 1)%nat.
  - destruct (String.eqb_spec "items" k) as [<-|Hne]; [reflexivity|].
    rewrite obj_get_set_ne by assumption. cbn [obj_get].
    destruct (String.eqb "type" k); [reflexivity|].
    destruct (String.eqb_spec "items" k); [contradiction | reflexivity].
  - cbn [obj_get]. reflexivity.
Qed.

(** C6: the array extractor compiles the item alternatives in
    declaration order, drops those that compile to [false], deduplicates
    the survivors by deep equality, and makes [items] the single survivor
    (the empty object if there is none) or a [oneOf] list of two or more;
    [minItems] and [maxItems] come from the [min], [max] and [length]
    rules (a [length] rule that no such rule follows sets both to its
    limit) and a [unique] rule sets [uniqueItems] to true.  The extractor
    returns whenever the compilation of every item returns. *)
Theorem array_extractor_spec (schema : node) (its : list node) (known c : object) :
  items schema = Some its ->
  (forall openapi c',
      parseAsType_array parse schema known c = Return (openapi, c') ->
      exists kept survivors,
        compiled_in_order parse known its c kept c' /\
        survivors = Lodash.uniqWith Lodash.isEqual (map snd kept) /\
        deduplicated Lodash.isEqual (map snd kept) survivors /\
        obj_get "type" openapi = Some (JStr "array") /\
        obj_get "items" openapi = Some (array_items survivors) /\
        obj_get "minItems" openapi = last_limit ["min"; "length"] (_rules schema) /\
        obj_get "maxItems" openapi = last_limit ["max"; "length"] (_rules schema) /\
        (forall pre r post,
            _rules schema = pre ++ r :: post -> name r = "length" ->
            (forall r', In r' post ->
                        existsb (String.eqb (name r')) ["min"; "max"; "length"] = false) ->
            obj_get "minItems" openapi = Some (limit_value r) /\
            obj_get "maxItems" openapi = Some (limit_value r)) /\
        obj_get "uniqueItems" openapi
        = (if has_rule schema "unique" then Some (JBool true) else None)) /\
  ((forall item comps, In item its ->
                       exists r, parse (Schema item) comps false = Return r) ->
   exists openapi c', parseAsType_array parse schema known c = Return (openapi, c')).
Proof.
  intros Hits. split.
  - intros openapi c'. unfold parseAsType_array. rewrite Hits.
    destruct (for_each (item_step parse known) its ([], c)) as [[swaggers c1]| |] eqn:E;
      simpl; try discriminate.
    apply item_loop_spec in E as (kept & Hk & -> & Hall). simpl.
    intros [= <- <-].
    exists kept, (Lodash.uniqWith Lodash.isEqual (map snd kept)).
    split; [exact Hk|]. split; [reflexivity|].
    split; [apply uniqWith_deduplicated|].
    set (survivors := Lodash.uniqWith Lodash.isEqual (map snd kept)).
    assert (Htruthy : forall x, In x survivors -> truthy x = true).
    { intros x Hx. apply uniqWith_In in Hx. apply in_map_iff in Hx as (b & <- & Hb).
      rewrite List.Forall_forall in Hall. now apply Hall. }
    assert (Hmin : obj_get "minItems" (getMinMax schema "Items")
                   = last_limit ["min"; "length"] (_rules schema))
      by apply (getMinMax_min schema "Items").
    assert (Hmax : obj_get "maxItems" (getMinMax schema "Items")
                   = last_limit ["max"; "length"] (_rules schema))
      by apply (getMinMax_max schema "Items").
    rewrite !array_openapi_get by discriminate.
    rewrite !array_base_get, Hmin, Hmax. cbn [String.eqb Ascii.eqb Bool.eqb].
    rewrite !getMinMax_get by discriminate.
    assert (Hmin' : match last_limit ["min"; "length"] (_rules schema) with
                    | Some v => Some v
                    | None => None
                    end = last_limit ["min"; "length"] (_rules schema))
      by now destruct (last_limit ["min"; "length"] (_rules schema)).
    assert (Hmax' : match last_limit ["max"; "length"] (_rules schema) with
                    | Some v => Some v
                    | None => None
                    end = last_limit ["max"; "length"] (_rules schema))
      by now destruct (last_limit ["max"; "length"] (_rules schema)).
    rewrite Hmin', Hmax'.
    split; [reflexivity|]. split.
    { f_equal. destruct survivors as [|x [|y l]] eqn:Es; simpl; try reflexivity.
      unfold or_else. rewrite Htruthy by now left. reflexivity. }
    split; [reflexivity|]. split; [reflexivity|]. split.
    { intros pre r post Hrules Hname Hpost. rewrite Hrules. split.
      - apply last_limit_after.
        + rewrite Hname. reflexivity.
        + intros r' Hr'. specialize (Hpost r' Hr'). cbn [existsb] in *.
          rewrite !orb_false_iff in *. tauto.
      - apply last_limit_after.
        + rewrite Hname. reflexivity.
        + intros r' Hr'. specialize (Hpost r' Hr'). cbn [existsb] in *.
          rewrite !orb_false_iff in *. tauto. }
    destruct (has_rule schema "unique").
    + apply obj_get_set_eq.
    + rewrite obj_get_assign by apply getMinMax_NoDup.
      rewrite getMinMax_get by discriminate.
      rewrite array_base_get. reflexivity.
  - intros Hret. unfold parseAsType_array. rewrite Hits.
    destruct (item_loop_returns known its ([], c) Hret) as [[swaggers c1] ->].
    simpl. eauto.
Qed.

(** *** Alternatives and [when] expansion *)

Lemma set_x_required_marked n swagger r :
  is_required n = true -> set_x_required swagger = Return r -> r = marked (n, swagger).
Proof.
  intros Hreq. unfold marked. simpl. rewrite Hreq.
  destruct swagger; simpl; intros [= <-]; reflexivity.
Qed.

(** the loop of [schemaForAlternatives] compiles the candidates in order,
    keeps the results that are not [false] and marks those of required
    candidates *)
Lemma alternative_loop_spec known alts swaggers c swaggers' c' :
  for_each (alternative_step parse known) alts (swaggers, c) = Return (swaggers', c') ->
  exists kept,
    compiled_in_order parse known alts c kept c' /\
    swaggers' = swaggers ++ map marked kept.
Proof.
  revert swaggers c. induction alts as [|n alts IH]; intros swaggers c; simpl.
  - intros [= <- <-]. exists []. split; [constructor | now rewrite app_nil_r].
  - unfold alternative_step at 1.
    destruct (parse (Schema n) (combine known c) false) as [r| |] eqn:E;
      simpl; try discriminate.
    destruct r as [[swagger components]|].
    + destruct (truthy swagger) eqn:Ht; simpl.
      * destruct (is_required n) eqn:Hreq.
        -- destruct (set_x_required swagger) as [m| |] eqn:Em; simpl; try discriminate.
           intros H. apply IH in H as (kept & Hk & ->).
           exists ((n, swagger) :: kept). split.
           ++ eapply compiled_keep; eauto. simpl. now rewrite Ht.
           ++ simpl. rewrite <- app_assoc. simpl.
              now rewrite (set_x_required_marked n swagger m Hreq Em).
        -- simpl. intros H. apply IH in H as (kept & Hk & ->).
           exists ((n, swagger) :: kept). split.
           ++ eapply compiled_keep; eauto. simpl. now rewrite Ht.
           ++ simpl. rewrite <- app_assoc. simpl. unfold marked at 2. simpl.
              now rewrite Hreq.
      * intros H. apply IH in H as (kept & Hk & ->).
        exists kept. split; [|reflexivity].
        eapply compiled_drop; eauto. simpl. now rewrite Ht.
    + intros H. apply IH in H as (kept & Hk & ->).
      exists kept. split; [|reflexivity].
      eapply compiled_drop; eauto.
Qed.

Lemma alternative_loop_all_false known alts st :
  (forall alt comps, In alt alts -> parse (Schema alt) comps false = Return None) ->
  for_each (alternative_step parse known) alts st = Return st.
Proof.
  intros H. induction alts as [|n alts IH]; simpl; [reflexivity|].
  unfold alternative_step at 1. destruct st as [swaggers c].
  rewrite H by now left. simpl. apply IH. intros alt comps Hin. apply H. now right.
Qed.

Lemma schemaForAlternatives_spec alts known c mode w c' :
  schemaForAlternatives parse alts known c mode = Return (w, c') ->
  exists kept survivors,
    compiled_in_order parse known alts c kept c' /\
    survivors = Lodash.uniqWith Lodash.isEqual (map marked kept) /\
    deduplicated Lodash.isEqual (map marked kept) survivors /\
    w = match survivors with
        | [] => []
        | _ => [(mode, JArr survivors)]
        end.
Proof.
  unfold schemaForAlternatives.
  destruct (for_each (alternative_step parse known) alts ([], c))
    as [[swaggers c1]| |] eqn:E; simpl; try discriminate.
  apply alternative_loop_spec in E as (kept & Hk & ->). simpl.
  intros [= <- <-].
  exists kept, (Lodash.uniqWith Lodash.isEqual (map marked kept)).
  split; [exact Hk|]. split; [reflexivity|].
  split; [apply uniqWith_deduplicated|].
  now destruct (Lodash.uniqWith Lodash.isEqual (map marked kept)).
Qed.

Lemma when_mode_length whens :
  Forall (fun w => contributes w = true) whens ->
  when_mode whens = if (1 <? length whens)%nat then "anyOf" else "oneOf".
Proof.
  intros H. unfold when_mode.
  replace (List.filter contributes whens) with whens; [reflexivity|].
  induction H as [|w whens Hw _ IH]; simpl; [reflexivity|].
  rewrite Hw. now f_equal.
Qed.


(** *** Objects *)

Lemma pattern_loop_keeps (I : object_state -> Prop) ps st st' :
  (forall s s', properties s' = properties s ->
                requireds s' = requireds s -> I s -> I s') ->
  I st ->
  for_each (pattern_step parse) ps st = Return st' -> I st'.
Proof.
  intros Hcompat Hst. apply (for_each_invariant I); [exact Hst|].
  intros s p s' _ Hs. unfold pattern_step. destruct p as [rule|].
  - destruct (parse (Schema rule) (combinedComponents s) false)
      as [[[swagger components]|]| |]; simpl; try discriminate.
    + destruct (truthy swagger); simpl; intros [= <-]; [|assumption].
      eapply Hcompat; [| |exact Hs]; reflexivity.
    + now intros [= <-].
  - now intros [= <-].
Qed.

(** a key whose children are not required stays out of [requireds] *)
Lemma child_loop_not_required k children st st' :
  (forall child, In (k, child) children -> is_required child = false) ->
  ~ In (JStr k) (requireds st) ->
  for_each (child_step parse) children st = Return st' ->
  ~ In (JStr k) (requireds st').
Proof.
  intros Hk Hst.
  apply (for_each_invariant (fun s => ~ In (JStr k) (requireds s))); [exact Hst|].
  intros s [key child] s' Hin Hs. unfold child_step. simpl.
  destruct (parse (Schema child) (combinedComponents s) false)
    as [[[swagger components]|]| |]; simpl; try discriminate.
  - destruct (truthy swagger); simpl; intros [= <-]; [|assumption]. simpl.
    destruct (is_required child) eqn:Hreq; [|assumption].
    intros Hin'. apply in_app_or in Hin' as [Hin'|[[= ->]|[]]]; [contradiction|].
    rewrite (Hk child Hin) in Hreq. discriminate.
  - now intros [= <-].
Qed.

(** a key whose children compile to [false] stays out of [properties] *)
Lemma child_loop_omits k children st st' :
  (forall child comps, In (k, child) children ->
                       parse (Schema child) comps false = Return None) ->
  obj_get k (properties st) = None ->
  for_each (child_step parse) children st = Return st' ->
  obj_get k (properties st') = None.
Proof.
  intros Hk Hst.
  apply (for_each_invariant (fun s => obj_get k (properties s) = None)); [exact Hst|].
  intros s [key child] s' Hin Hs. unfold child_step. simpl.
  destruct (String.eqb_spec key k) as [->|Hne].
  - rewrite Hk by assumption. simpl. now intros [= <-].
  - destruct (parse (Schema child) (combinedComponents s) false)
      as [[[swagger components]|]| |]; simpl; try discriminate.
    + destruct (truthy swagger); simpl; intros [= <-]; [|assumption]. simpl.
      now rewrite obj_get_set_ne.
    + now intros [= <-].
Qed.

Lemma child_loop_all_false children st :
  (forall key child comps, In (key, child) children ->
                           parse (Schema child) comps false = Return None) ->
  for_each (child_step parse) children st = Return st.
Proof.
  intros H. induction children as [|[key child] children IH]; simpl; [reflexivity|].
  unfold child_step at 1. simpl. rewrite (H key) by now left. simpl.
  apply IH. intros key' child' comps Hin. apply (H key'). now right.
Qed.

(** the fields [required] and [properties] of the object
    [parseAsType.object] returns are the final [requireds] and
    [properties] of its loop *)
Lemma object_result schema known c swagger c' :
  parseAsType_object parse schema known c = Return (swagger, c') ->
  exists st st',
    for_each (child_step parse) (children_of schema)
      {| requireds := []; properties := []; additionalProperties := JObj [];
         newComponents := c; combinedComponents := combine known c |} = Return st /\
    properties st' = properties st /\
    requireds st' = requireds st /\
    obj_get "properties" swagger = Some (JObj (properties st')) /\
    (forall req, obj_get "required" swagger = Some (JArr req) ->
                 req = requireds st').
Proof.
  unfold parseAsType_object. fold (children_of schema).
  destruct (for_each (child_step parse) (children_of schema) _) as [st| |] eqn:E;
    simpl; try discriminate.
  destruct (if Nat.eqb (length (children_of schema)) 0
            then match key_patterns schema with
                 | Some keyPatterns => for_each (pattern_step parse) keyPatterns st
                 | None => Return st
                 end
            else Return st) as [st'| |] eqn:E'; simpl; try discriminate.
  intros [= <- <-]. exists st, st'.
  assert (Hsame : properties st' = properties st
                  /\ requireds st' = requireds st).
  { destruct (Nat.eqb (length (children_of schema)) 0);
      [destruct (key_patterns schema) as [ps|]|]; try (injection E' as <-; now split).
    apply (pattern_loop_keeps
             (fun s => properties s = properties st
                       /\ requireds s = requireds st) ps st st');
      [|now split|exact E'].
    intros s s' Hp Hr [? ?]. split; congruence. }
  destruct Hsame as [Hp Hr].
  split; [reflexivity|]. split; [exact Hp|]. split; [exact Hr|].
  split.
  - destruct (negb (Nat.eqb (length (own_props (additionalProperties st'))) 0)),
      (unknown (_flags schema)) as [[|]|],
      (negb (Nat.eqb (length (requireds st')) 0));
      rewrite ?obj_get_set_ne by discriminate; reflexivity.
  - intros req.
    destruct (negb (Nat.eqb (length (own_props (additionalProperties st'))) 0)),
      (unknown (_flags schema)) as [[|]|],
      (negb (Nat.eqb (length (requireds st')) 0));
      rewrite ?obj_get_set_ne by discriminate; rewrite ?obj_get_set_eq;
      simpl; congruence.
Qed.

End CompositeFacts.

Section CompositeWitnesses.
Import JS Joi JoiToSwagger Spec Samples.

(** a [length(3)], [unique()] array of four item alternatives, one
    forbidden and two alike, through the theorem *)
Lemma array_extractor_spec_witness :
  exists openapi c',
    parseAsType_array (parse 1) mixed_array [] [] = Return (openapi, c') /\
    obj_get "items" openapi
    = Some (JObj [("oneOf", JArr [JObj [("type", JStr "string")];
                                  JObj [("type", JStr "number");
                                        ("format", JStr "float")]])]) /\
    obj_get "minItems" openapi = Some (JNum 3) /\
    obj_get "maxItems" openapi = Some (JNum 3) /\
    obj_get "uniqueItems" openapi = Some (JBool true) /\
    exists openapi' c'',
      parseAsType_array (parse 1) mixed_array [] [] = Return (openapi', c'').
Proof.
  destruct (array_extractor_spec (parse 1) mixed_array _ [] [] eq_refl) as [H Hret].
  eexists _, _. split; [reflexivity|].
  destruct (H _ _ eq_refl) as (kept & survivors & _ & _ & _ & _ & _ & Hmin & Hmax & _ & Hu).
  split; [reflexivity|]. split; [exact Hmin|]. split; [exact Hmax|]. split; [exact Hu|].
  apply Hret. intros item comps [<-|[<-|[<-|[<-|[]]]]]; eexists; reflexivity.
Defined.


(** the same scenario through [parse]: the expansion is merged into the
    schema of the node *)
Example conditional_any_compiled :
  j2s 2 (Schema conditional_any)
  = Return (Some (JObj [("oneOf",
                         JArr [JObj [("type", JStr "string"); ("x-required", JBool true)];
                               JObj [("type", JStr "number"); ("format", JStr "float")]])],
                  [])).
Proof. reflexivity. Qed.

End CompositeWitnesses.

(* ===================================================================== *)
(** ** Forbidden nodes *)
(* ===================================================================== *)

Section Forbidden.
Import JS Joi JoiToSwagger SchemaToSwagger Spec Samples Classes.

Lemma plain_object_not_short_circuited children known :
  not_short_circuited (object_keys children) known.
Proof. repeat split. Qed.

(** [Joi.object().keys(children)] whose children all compile to [false]
    compiles to an object schema without properties *)
Lemma parse_object_all_false (fuel : nat) children :
  (forall key child comps, In (key, child) children ->
                           parse fuel (Schema child) comps false = Return None) ->
  j2s (S fuel) (Schema (object_keys children))
  = Return (Some (JObj [("type", JStr "object"); ("properties", JObj []);
                        ("additionalProperties", JBool false)], [])).
Proof.
  intros H. unfold j2s. cbn [parse parse_body].
  rewrite parse_schema_dispatch by apply plain_object_not_short_circuited.
  change (forbidden (object_keys children)) with false. cbv iota.
  change (kind (object_keys children)) with "object".
  change (extractor_for (parseAsType (parse fuel)) "object")
    with (Some (parseAsType_object (parse fuel))).
  cbv iota. unfold parseAsType_object.
  change (keys (object_keys children)) with (Some children). cbv iota.
  rewrite child_loop_all_false by assumption. cbn [bind].
  change (key_patterns (object_keys children)) with (@None (list (option node))).
  destruct (Nat.eqb (length children) 0); reflexivity.
Qed.

(** C3, as the code has it: a node with presence "forbidden" that no
    schema override, no full swagger override and no already known
    [className] takes first compiles to [false]; a forbidden child is
    never listed in the [required] of the compiled object and, when it
    compiles to [false], has no entry in its [properties]; and a declared
    parameter whose children all compile to [false] adds no entry to the
    parameters of the components. *)
Theorem forbidden_is_omitted (fuel : nat) :
  (forall schema known isSchemaOverride,
      not_short_circuited schema known ->
      forbidden schema = true ->
      parse (S fuel) (Schema schema) known isSchemaOverride = Return None) /\
  (forall schema known c swagger c' k,
      parseAsType_object (parse fuel) schema known c = Return (swagger, c') ->
      (forall child, In (k, child) (children_of schema) -> forbidden child = true) ->
      (forall req, obj_get "required" swagger = Some (JArr req) -> ~ In (JStr k) req) /\
      ((forall child comps, In (k, child) (children_of schema) ->
                            parse fuel (Schema child) comps false = Return None) ->
       exists props, obj_get "properties" swagger = Some (JObj props)
                     /\ obj_get k props = None)) /\
  (forall children refName a reg,
      (forall key child comps, In (key, child) children ->
                               parse fuel (Schema child) comps false = Return None) ->
      parameter_step (S fuel) reg
        (refName, {| addr := a; target := Schema (object_keys children) |})
      = Return reg).
Proof.
  split; [|split].
  - intros schema known isOv Hns Hf. cbn [parse parse_body].
    now apply parse_schema_forbidden.
  - intros schema known c swagger c' k Hobj Hforb.
    apply object_result in Hobj as (st & st' & Hloop & Hp & Hr & Hprops & Hreq).
    split.
    + intros req Hget. rewrite (Hreq req Hget), Hr.
      eapply child_loop_not_required; [| |exact Hloop]; [|simpl; tauto].
      intros child Hin. specialize (Hforb child Hin).
      unfold forbidden in Hforb. unfold is_required.
      destruct (presence (_flags child)) as [p|]; simpl in *; [|reflexivity].
      apply String.eqb_eq in Hforb. subst p. reflexivity.
    + intros Hfalse. exists (properties st'). split; [exact Hprops|].
      rewrite Hp. eapply child_loop_omits; [| |exact Hloop]; [|reflexivity].
      intros child comps Hin. now apply Hfalse.
  - intros children refName a reg H. unfold parameter_step. cbn [fst snd target has_describe].
    unfold converted. rewrite parse_object_all_false by assumption. reflexivity.
Qed.

(** [{ id: required string, secret: forbidden }]: the forbidden child is
    in neither list, and as a declared parameter on its own it adds no
    entry *)
Lemma forbidden_is_omitted_witness :
  parse 1 (Schema forbidden_any) [] false = Return None /\
  (exists swagger c',
      parseAsType_object (parse 1) object_with_forbidden [] [] = Return (swagger, c') /\
      (forall req, obj_get "required" swagger = Some (JArr req) ->
                   ~ In (JStr "secret") req) /\
      exists props, obj_get "properties" swagger = Some (JObj props)
                    /\ obj_get "secret" props = None) /\
  parameter_step 2 empty_registry
    ("Secret", {| addr := 0; target := Schema (object_keys [("secret", forbidden_any)]) |})
  = Return empty_registry.
Proof.
  destruct (forbidden_is_omitted 0) as (HA & _ & _).
  destruct (forbidden_is_omitted 1) as (_ & HB & HC).
  split; [|split].
  - apply HA; [repeat split | reflexivity].
  - eexists _, _. split; [reflexivity|].
    assert (Hforb : forall child,
               In ("secret", child) (children_of object_with_forbidden) ->
               forbidden child = true).
    { intros child [[=]|[[= <-]|[]]]. reflexivity. }
    destruct (HB object_with_forbidden [] [] _ _ "secret" eq_refl Hforb) as [Hreq Hprops].
    split; [exact Hreq|]. apply Hprops.
    intros child comps [[=]|[[= <-]|[]]]. reflexivity.
  - apply HC. intros key child comps [[= <- <-]|[]]. reflexivity.
Defined.

(** C3 as written fails on a forbidden node that carries a full swagger
    override: it compiles to the override, not to [false], and as a
    child it is listed in the [properties] of the compiled object. *)
Lemma forbidden_override_counterexample :
  forbidden forbidden_overridden = true /\
  j2s 1 (Schema forbidden_overridden)
  = Return (Some (JObj [("type", JStr "string")], [])) /\
  j2s 2 (Schema (object_keys [("secret", forbidden_overridden)]))
  = Return (Some (JObj [("type", JStr "object");
                        ("properties", JObj [("secret", JObj [("type", JStr "string")])]);
                        ("additionalProperties", JBool false)], [])) /\
  ~ (forall fuel schema known isSchemaOverride,
        forbidden schema = true ->
        parse (S fuel) (Schema schema) known isSchemaOverride = Return None).
Proof.
  repeat split.
  intros H. specialize (H 0%nat forbidden_overridden [] false eq_refl). discriminate.
Qed.

(** the parameter list of a route is another matter: it names every key
    that [describe()] lists for the headers schema, whatever its
    presence *)
Example route_parameters_name_every_key :
  collectParameters login_route []
  = [JObj [("$ref", JStr "#/components/parameters/id")];
     JObj [("$ref", JStr "#/components/parameters/secret")]].
Proof. reflexivity. Qed.

End Forbidden.

(* ===================================================================== *)
(** ** Errors of the compiler *)
(* ===================================================================== *)

Section Errors.
Import JS Joi JoiToSwagger SchemaToSwagger Spec Samples Classes.

Lemma child_loop_returns (parse : parser) children st :
  (forall key child comps, In (key, child) children ->
                           exists r, parse (Schema child) comps false = Return r) ->
  exists st', for_each (child_step parse) children st = Return st'.
Proof.
  intros H. apply for_each_returns. intros s [key child] Hin.
  unfold child_step. simpl.
  destruct (H key child (combinedComponents s) Hin) as [r ->]. simpl.
  destruct r as [[swagger components]|]; [|eauto].
  destruct (truthy swagger); simpl; eauto.
Qed.

(** an exception of the compilation of a child leaves [parseAsType.object] *)
Lemma object_child_throws (parse : parser) schema known c pre k child post err :
  keys schema = Some (pre ++ (k, child) :: post) ->
  (forall key c comps, In (key, c) pre ->
                       exists r, parse (Schema c) comps false = Return r) ->
  (forall comps, parse (Schema child) comps false = Throw err) ->
  parseAsType_object parse schema known c = Throw err.
Proof.
  intros Hkeys Hpre Hchild. unfold parseAsType_object. rewrite Hkeys.
  match goal with |- context [for_each _ _ ?st0] =>
    destruct (child_loop_returns parse pre st0 Hpre) as [st Hst];
    rewrite (for_each_throw _ pre (k, child) post st0 st err Hst)
  end; [reflexivity|].
  unfold child_step. simpl. now rewrite Hchild.
Qed.

Lemma schema_loop_returns fuel entries reg :
  (forall entry, In entry entries ->
                 exists v, j2s fuel (target (snd entry)) = Return v) ->
  exists reg', for_each (schema_step fuel) entries reg = Return reg'.
Proof.
  intros H. apply for_each_returns. intros s entry Hin.
  unfold schema_step, converted. destruct (H entry Hin) as [v ->]. simpl. eauto.
Qed.




End Errors.

(* ===================================================================== *)
(** ** The paths of the document *)
(* ===================================================================== *)

Section Paths.
Import JS Joi JoiToSwagger SchemaToSwagger Spec Samples Classes.

Lemma obj_set_In k v o k' v' :
  In (k', v') (obj_set k v o) -> (k', v') = (k, v) \/ In (k', v') o.
Proof.
  unfold obj_set. destruct (obj_has k o).
  - induction o as [|[k1 v1] o IH]; simpl; [tauto|].
    destruct (String.eqb_spec k1 k) as [->|Hne]; simpl; intuition auto.
  - destruct (array_index k) as [i|].
    + induction o as [|[k1 v1] o IH]; simpl; [intuition auto|].
      destruct (array_index k1) as [j|]; [destruct (j <? i)%N|]; simpl; intuition auto.
    + intros H. apply in_app_or in H as [H|[H|[]]]; auto.
Qed.

Lemma for_each_map {A B S} (f : A -> B) (step : S -> B -> outcome S) xs acc :
  for_each step (map f xs) acc = for_each (fun s x => step s (f x)) xs acc.
Proof.
  revert acc. induction xs as [|x xs IH]; intros acc; simpl; [reflexivity|].
  destruct (step acc (f x)); simpl; auto.
Qed.

(** the step of [buildSwaggerPaths] reads the first method of the route
    definition and nothing else of it *)
Lemma path_step_first fuel paramNameToRefName st path routeDef :
  path_step fuel paramNameToRefName st (path, routeDef)
  = path_step fuel paramNameToRefName st (path, firstn 1 routeDef).
Proof.
  destruct routeDef as [|[methodKey config] rest]; [reflexivity|].
  unfold path_step. destruct st as [swaggerPaths reg]. simpl.
  now rewrite String.eqb_refl.
Qed.

Lemma buildSwaggerPaths_first fuel schemaClass reg :
  buildSwaggerPaths fuel (first_methods schemaClass) reg
  = buildSwaggerPaths fuel schemaClass reg.
Proof.
  unfold buildSwaggerPaths, first_methods. cbn [paths].
  rewrite for_each_map. apply for_each_ext.
  intros s [path routeDef] _. symmetry. apply path_step_first.
Qed.

(** C10: for each path, the assembler reads the first method key of the
    method map only: the emitted document is the one of the collection in
    which every path keeps its first method alone, and each emitted path
    item has one key, the first method key of a route definition of that
    path; the methods after the first leave no trace, and no error. *)
Theorem first_method_only (fuel : nat) :
  (forall schemaClass,
      schemaToSwagger fuel schemaClass = schemaToSwagger fuel (first_methods schemaClass)) /\
  (forall schemaClass reg swaggerPaths reg',
      buildSwaggerPaths fuel schemaClass reg = Return (swaggerPaths, reg') ->
      forall path item,
        In (path, item) swaggerPaths ->
        exists routeDef methodKey operation,
          In (path, routeDef) (paths schemaClass) /\
          hd_error (map fst routeDef) = Some methodKey /\
          item = JObj [(methodKey, JObj operation)]).
Proof.
  split.
  - intros schemaClass. unfold schemaToSwagger.
    change (buildSwaggerComponents fuel (first_methods schemaClass))
      with (buildSwaggerComponents fuel schemaClass).
    change (class_tags (first_methods schemaClass)) with (class_tags schemaClass).
    destruct (buildSwaggerComponents fuel schemaClass) as [reg| |]; try reflexivity.
    cbn [bind]. now rewrite buildSwaggerPaths_first.
  - intros schemaClass reg swaggerPaths reg' H path item.
    unfold buildSwaggerPaths in H.
    revert H. generalize
      (fold_left (fun acc entry =>
                    obj_set (to_string (prop "name" (snd entry))) (JStr (fst entry)) acc)
                 (parameters reg) []).
    intros pnm H. revert path item.
    refine (for_each_invariant
              (fun st : object * registry =>
                 forall path item,
                   In (path, item) (fst st) ->
                   exists routeDef methodKey operation,
                     In (path, routeDef) (paths schemaClass) /\
                     hd_error (map fst routeDef) = Some methodKey /\
                     item = JObj [(methodKey, JObj operation)])
              _ _ _ _ _ _ H); [intros ? ? [] | ].
    clear. intros [swaggerPaths reg] [path routeDef] st' Hin Hinv.
    unfold path_step. cbn [fst snd].
    destruct routeDef as [|[methodKey config] rest]; [now intros [= <-]|].
    cbn [map fst route_get]. rewrite String.eqb_refl.
    destruct (truthy (method config)); cbn [negb]; [|now intros [= <-]].
    destruct (buildRequestBody fuel (body config) reg) as [[requestBody reg1]| |];
      cbn [bind]; try discriminate.
    destruct (buildResponses fuel (responses config) reg1) as [[responses reg2]| |];
      cbn [bind]; try discriminate.
    intros [= <-]. cbn [fst]. intros path' item' Hin'.
    apply obj_set_In in Hin' as [[= -> ->]|Hin'].
    + exists ((methodKey, config) :: rest), methodKey. eexists.
      split; [exact Hin|]. split; reflexivity.
    + now apply Hinv.
Qed.

(** [/items] with [get] then [post]: only [get] is in the document *)
Lemma first_method_only_witness :
  exists swaggerPaths reg',
    buildSwaggerPaths 3 items_class empty_registry = Return (swaggerPaths, reg') /\
    (exists operation, obj_get "/items" swaggerPaths = Some (JObj [("get", JObj operation)])) /\
    forall path item,
      In (path, item) swaggerPaths ->
      exists routeDef methodKey operation,
        In (path, routeDef) (paths items_class) /\
        hd_error (map fst routeDef) = Some methodKey /\
        item = JObj [(methodKey, JObj operation)].
Proof.
  destruct (first_method_only 3) as [_ H].
  eexists _, _. split; [vm_compute; reflexivity|].
  split; [eexists; reflexivity|].
  eapply (H items_class empty_registry). vm_compute. reflexivity.
Defined.

End Paths.

(* ===================================================================== *)
(** ** The parameters of the components *)
(* ===================================================================== *)

Section Parameters.
Import JS Joi JoiToSwagger SchemaToSwagger Spec Samples Classes.

(** a step for another name keeps the envelope stored under [refName] *)
Lemma parameter_step_other fuel reg reg' entry refName :
  fst entry <> refName ->
  parameter_step fuel reg entry = Return reg' ->
  obj_get refName (parameters reg') = obj_get refName (parameters reg).
Proof.
  intros Hne. unfold parameter_step.
  destruct (has_describe (target (snd entry))); [|now intros [= <-]].
  destruct (converted fuel (target (snd entry))) as [swaggerParam| |];
    simpl; try discriminate.
  destruct (read "properties" swaggerParam) as [properties| |]; simpl; try discriminate.
  destruct (obj_keys (own_props (or_else properties (JObj [])))) as [|paramName ?];
    [now intros [= <-]|].
  destruct (String.eqb paramName EmptyString); [now intros [= <-]|].
  destruct (parameter_envelope swaggerParam paramName); simpl; try discriminate.
  intros [= <-]. simpl. now apply obj_get_set_ne.
Qed.

(** what the step stores for a compiled object schema whose first
    property is [paramName] *)
Lemma parameter_step_envelope fuel reg refName r schema swaggerParam comps
      paramName def rest :
  target r = Schema schema ->
  j2s fuel (Schema schema) = Return (Some (swaggerParam, comps)) ->
  prop "properties" swaggerParam = JObj ((paramName, def) :: rest) ->
  paramName <> EmptyString ->
  (prop "required" swaggerParam = JUndefined
   \/ exists names, prop "required" swaggerParam = JArr names) ->
  exists reg',
    parameter_step fuel reg (refName, r) = Return reg' /\
    obj_get refName (parameters reg')
    = Some (JObj [("name", JStr paramName);
                  ("in", JStr (parameter_in paramName));
                  ("required", JBool (listed_in (prop "required" swaggerParam) paramName));
                  ("schema", JObj (obj_delete "description" (own_props def)));
                  ("description",
                   or_else (prop "description" (JObj (own_props def))) (JStr EmptyString))]).
Proof.
  intros Ht Hj Hprops Hname Hreq. unfold parameter_step. cbn [fst snd].
  rewrite Ht. cbn [has_describe]. unfold converted. rewrite Hj. cbn [bind].
  assert (Hread : read "properties" swaggerParam
                  = Return (JObj ((paramName, def) :: rest))).
  { unfold read. rewrite Hprops.
    destruct swaggerParam; try reflexivity; discriminate. }
  rewrite Hread. cbn [bind or_else truthy own_props obj_keys map fst].
  destruct (String.eqb_spec paramName EmptyString) as [|_]; [contradiction|].
  unfold parameter_envelope. rewrite Hread. cbn [bind].
  assert (Hdef : prop paramName (JObj ((paramName, def) :: rest)) = def).
  { unfold prop. cbn [own_props obj_get]. now rewrite String.eqb_refl. }
  rewrite Hdef.
  assert (Hinc : required_includes (prop "required" swaggerParam) paramName
                 = Return (listed_in (prop "required" swaggerParam) paramName)).
  { destruct Hreq as [-> | [names ->]]; reflexivity. }
  rewrite Hinc. cbn [bind]. eexists. split; [reflexivity|].
  cbn [parameters]. now rewrite obj_get_set_eq.
Qed.

(** C8: for a declared parameter, the assembler compiles the object
    schema, takes its (first, hence single) property name, sets [in] to
    "header" exactly when the name starts with [x-] and to "query"
    otherwise, moves the [description] of the nested schema to the
    envelope, and sets [required] to whether the name is listed in the
    [required] of the compiled schema. *)
Theorem parameter_envelopes (fuel : nat) schemaClass reg refName r schema
        swaggerParam comps paramName def rest :
  buildSwaggerComponents fuel schemaClass = Return reg ->
  List.NoDup (map fst (component_parameters schemaClass)) ->
  In (refName, r) (component_parameters schemaClass) ->
  target r = Schema schema ->
  j2s fuel (Schema schema) = Return (Some (swaggerParam, comps)) ->
  prop "properties" swaggerParam = JObj ((paramName, def) :: rest) ->
  paramName <> EmptyString ->
  (prop "required" swaggerParam = JUndefined
   \/ exists names, prop "required" swaggerParam = JArr names) ->
  obj_get refName (parameters reg)
  = Some (JObj [("name", JStr paramName);
                ("in", JStr (parameter_in paramName));
                ("required", JBool (listed_in (prop "required" swaggerParam) paramName));
                ("schema", JObj (obj_delete "description" (own_props def)));
                ("description",
                 or_else (prop "description" (JObj (own_props def))) (JStr EmptyString))]).
Proof.
  intros Hbuild Hnd Hin Ht Hj Hprops Hname Hreq.
  unfold buildSwaggerComponents in Hbuild.
  destruct (for_each (schema_step fuel) (component_schemas schemaClass) empty_registry)
    as [reg0| |]; simpl in Hbuild; try discriminate.
  apply in_split in Hin as (pre & post & Hsplit). rewrite Hsplit in Hbuild, Hnd.
  rewrite for_each_app in Hbuild.
  destruct (for_each (parameter_step fuel) pre reg0) as [reg1| |];
    simpl in Hbuild; try discriminate.
  destruct (parameter_step_envelope fuel reg1 refName r schema swaggerParam comps
              paramName def rest Ht Hj Hprops Hname Hreq) as (reg2 & Hstep & Hget).
  rewrite Hstep in Hbuild. simpl in Hbuild.
  rewrite map_app in Hnd. apply NoDup_remove_2 in Hnd. simpl in Hnd.
  rewrite <- Hget.
  refine (for_each_invariant
            (fun s => obj_get refName (parameters s) = obj_get refName (parameters reg2))
            _ _ _ _ eq_refl _ Hbuild).
  intros s entry s' Hentry Hs Hstep'. rewrite <- Hs.
  apply (parameter_step_other fuel s s' entry refName); [|exact Hstep'].
  intros Heq. apply Hnd. apply in_or_app. right. rewrite <- Heq. now apply in_map.
Qed.

(** with distinct keys in the nested schema, the [schema] of the envelope
    has no [description] left *)
Lemma envelope_schema_description def :
  List.NoDup (obj_keys (own_props def)) ->
  obj_get "description" (obj_delete "description" (own_props def)) = None.
Proof. apply obj_get_delete_eq. Qed.

(** a required, described header parameter and an optional query
    parameter *)
Lemma parameter_envelopes_witness :
  exists reg,
    buildSwaggerComponents 3 parameters_class = Return reg /\
    obj_get "RequestId" (parameters reg)
    = Some (JObj [("name", JStr "x-request-id"); ("in", JStr "header");
                  ("required", JBool true);
                  ("schema", JObj [("type", JStr "string")]);
                  ("description", JStr "Request id")]) /\
    obj_get "Limit" (parameters reg)
    = Some (JObj [("name", JStr "limit"); ("in", JStr "query");
                  ("required", JBool false);
                  ("schema", JObj [("type", JStr "number"); ("format", JStr "float")]);
                  ("description", JStr EmptyString)]).
Proof.
  eexists. split; [vm_compute; reflexivity|].
  assert (Hnd : List.NoDup (map fst (component_parameters parameters_class))).
  { repeat constructor; simpl; intuition discriminate. }
  split.
  - apply (parameter_envelopes 3 parameters_class _ "RequestId"
             {| addr := 20;
                target := Schema (object_keys [("x-request-id", described_required_string)]) |}
             (object_keys [("x-request-id", described_required_string)])
             (JObj [("type", JStr "object");
                    ("properties",
                     JObj [("x-request-id",
                            JObj [("type", JStr "string");
                                  ("description", JStr "Request id")])]);
                    ("required", JArr [JStr "x-request-id"]);
                    ("additionalProperties", JBool false)])
             [] "x-request-id"
             (JObj [("type", JStr "string"); ("description", JStr "Request id")]) []);
      [vm_compute; reflexivity | exact Hnd | left; reflexivity | reflexivity
      | vm_compute; reflexivity | reflexivity | discriminate
      | right; eexists; reflexivity].
  - apply (parameter_envelopes 3 parameters_class _ "Limit"
             {| addr := 21; target := Schema (object_keys [("limit", plain "number")]) |}
             (object_keys [("limit", plain "number")])
             (JObj [("type", JStr "object");
                    ("properties",
                     JObj [("limit", JObj [("type", JStr "number");
                                           ("format", JStr "float")])]);
                    ("additionalProperties", JBool false)])
             [] "limit"
             (JObj [("type", JStr "number"); ("format", JStr "float")]) []);
      [vm_compute; reflexivity | exact Hnd | right; left; reflexivity | reflexivity
      | vm_compute; reflexivity | reflexivity | discriminate
      | left; reflexivity].
Defined.

End Parameters.

(* ===================================================================== *)
(** ** The reference resolver *)
(* ===================================================================== *)

Section Resolver.
Import JS Joi JoiToSwagger SchemaToSwagger Spec Samples Classes.

Lemma getReturnValue_truthy metaDefName metaDefType components swagger :
  truthy swagger = true ->
  truthy (fst (getReturnValue metaDefName metaDefType components swagger)) = true.
Proof.
  intros H. unfold getReturnValue. now destruct (truthy metaDefName).
Qed.

Lemma parse_schema_truthy (parse : parser) schema known isSchemaOverride swagger c :
  (forall x e o sw c', parse x e o = Return (Some (sw, c')) -> truthy sw = true) ->
  parse_schema parse schema known isSchemaOverride = Return (Some (swagger, c)) ->
  truthy swagger = true.
Proof.
  intros IH. unfold parse_schema.
  destruct (schemaOverride schema) as [ov|].
  { destruct isSchemaOverride; [discriminate | apply IH]. }
  cbv zeta.
  destruct (truthy (prop "swagger" (JObj (flattenMeta schema)))) eqn:Hov;
    [destruct (truthy (prop "swaggerOverride" (JObj (flattenMeta schema))))|]; cbn [andb].
  1: { intros [= H]. rewrite (surjective_pairing (getReturnValue _ _ _ _)) in H.
       injection H as <- _. now apply getReturnValue_truthy. }
  all: match goal with |- context [if ?c then Return (Some (refDef _ _, _)) else _] =>
         destruct c; [now intros [= <- <-]|] end.
  all: destruct (is_str (presence (_flags schema)) "forbidden"); [discriminate|].
  all: destruct (extractor_for _ _) as [extract|]; [|discriminate].
  all: destruct (extract schema known []) as [[sw0 c0]| |]; cbn [bind]; try discriminate.
  all: destruct (whens schema) as [ws|];
    [destruct (parseWhens parse ws known c0) as [[w c1]| |]|]; cbn [bind]; try discriminate.
  all: intros [= H]; rewrite (surjective_pairing (getReturnValue _ _ _ _)) in H;
    injection H as <- _; now apply getReturnValue_truthy.
Qed.

(** a compiled schema is never a falsy value *)
Lemma parse_truthy fuel x known isSchemaOverride swagger c :
  parse fuel x known isSchemaOverride = Return (Some (swagger, c)) ->
  truthy swagger = true.
Proof.
  revert x known isSchemaOverride swagger c.
  induction fuel as [|fuel IH]; intros x known o swagger c; [discriminate|].
  cbn [parse]. unfold parse_body. destruct x; try discriminate;
    apply parse_schema_truthy; exact IH.
Qed.

(** C4: a node already in the identity map returns its name and nothing
    is compiled; otherwise, when the node compiles to a schema whose
    canonical string is not in the shape map: without a title the
    resolver throws the missing-label error, and with a title that names
    an entry of the [schemas] map it compares the canonical strings,
    binds the node to the existing name when they are equal and throws
    the naming-conflict error when they differ. *)
Theorem reference_resolution (fuel : nat) (joiSchema : ref) (reg : registry) :
  (forall name,
      schemaMap reg !! addr joiSchema = Some name ->
      forall budget, getSchemaNameFromObj budget joiSchema reg = Return (name, reg)) /\
  (forall swagger components,
      schemaMap reg !! addr joiSchema = None ->
      j2s fuel (target joiSchema) = Return (Some (swagger, components)) ->
      convertedSchemasMap reg !! JSON_stringify swagger = None ->
      (truthy (prop "title" swagger) = false ->
       getSchemaNameFromObj fuel joiSchema reg = Throw MissingLabel) /\
      (truthy (prop "title" swagger) = true ->
       forall existing,
         obj_get (to_string (prop "title" swagger)) (schemas reg) = Some existing ->
         truthy existing = true ->
         (JSON_stringify existing = JSON_stringify swagger ->
          getSchemaNameFromObj fuel joiSchema reg
          = Return (to_string (prop "title" swagger),
                    {| schemas := schemas reg;
                       parameters := parameters reg;
                       schemaMap :=
                         <[addr joiSchema := to_string (prop "title" swagger)]>
                           (schemaMap reg);
                       convertedSchemasMap :=
                         <[JSON_stringify swagger := to_string (prop "title" swagger)]>
                           (convertedSchemasMap reg) |})) /\
         (JSON_stringify existing <> JSON_stringify swagger ->
          getSchemaNameFromObj fuel joiSchema reg
          = Throw (LabelConflict (to_string (prop "title" swagger)))))).
Proof.
  split.
  - intros name Hmap budget. unfold getSchemaNameFromObj. now rewrite Hmap.
  - intros swagger components Hmap Hj Hshape.
    assert (Htruthy : truthy swagger = true) by (eapply parse_truthy; exact Hj).
    assert (Hread : read "title" swagger = Return (prop "title" swagger)).
    { unfold read. destruct swagger; try reflexivity; discriminate. }
    assert (Hstart : getSchemaNameFromObj fuel joiSchema reg
              = let* chosenName := read "title" swagger in
                if negb (truthy chosenName) then Throw MissingLabel
                else
                  let name := to_string chosenName in
                  let existingSchema := prop name (JObj (schemas reg)) in
                  if truthy existingSchema then
                    let existingStr := JSON_stringify existingSchema in
                    if bool_decide (existingStr = JSON_stringify swagger) then
                      Return (name,
                              {| schemas := schemas reg; parameters := parameters reg;
                                 schemaMap := <[addr joiSchema := name]> (schemaMap reg);
                                 convertedSchemasMap :=
                                   <[JSON_stringify swagger := name]>
                                     (convertedSchemasMap reg) |})
                    else Throw (LabelConflict name)
                  else
                    let convertedSchema :=
                      match swagger with
                      | JObj o => JObj (obj_delete "title" o)
                      | v => v
                      end in
                    Return (name,
                            {| schemas := obj_set name convertedSchema (schemas reg);
                               parameters := parameters reg;
                               schemaMap := <[addr joiSchema := name]> (schemaMap reg);
                               convertedSchemasMap :=
                                 <[JSON_stringify swagger := name]>
                                   (convertedSchemasMap reg) |})).
    { unfold getSchemaNameFromObj, converted. rewrite Hmap, Hj. cbn [bind].
      now rewrite Hshape. }
    rewrite Hstart, Hread. cbn [bind]. split.
    + intros Hfalsy. now rewrite Hfalsy.
    + intros Htitle existing Hget Hex. rewrite Htitle. cbn [negb]. cbv zeta.
      assert (Hprop : prop (to_string (prop "title" swagger)) (JObj (schemas reg))
                      = existing).
      { unfold prop at 1. cbn [own_props]. now rewrite Hget. }
      rewrite Hprop, Hex. split; intros Hcmp.
      * now rewrite bool_decide_eq_true_2.
      * now rewrite bool_decide_eq_false_2.
Qed.

(** the four cases on a registry that binds address 7 and holds the name
    "Bar" *)
Lemma reference_resolution_witness :
  getSchemaNameFromObj 0 {| addr := 7; target := Absent |} bar_registry
  = Return ("Seven", bar_registry) /\
  getSchemaNameFromObj 1 {| addr := 8; target := Schema (plain "string") |} bar_registry
  = Throw MissingLabel /\
  (exists reg',
      getSchemaNameFromObj 1 {| addr := 8; target := Schema string_bar |} bar_registry
      = Return ("Bar", reg') /\ schemaMap reg' !! 8%nat = Some "Bar") /\
  getSchemaNameFromObj 1 {| addr := 8; target := Schema number_bar |} bar_registry
  = Throw (LabelConflict "Bar").
Proof.
  split; [|split; [|split]].
  - destruct (reference_resolution 0 {| addr := 7; target := Absent |} bar_registry)
      as [H _].
    apply H. reflexivity.
  - destruct (reference_resolution 1 {| addr := 8; target := Schema (plain "string") |}
                bar_registry) as [_ H].
    destruct (H (JObj [("type", JStr "string")]) [] eq_refl eq_refl eq_refl) as [Hmissing _].
    apply Hmissing. reflexivity.
  - destruct (reference_resolution 1 {| addr := 8; target := Schema string_bar |}
                bar_registry) as [_ H].
    destruct (H (JObj [("type", JStr "string"); ("title", JStr "Bar")]) []
                eq_refl eq_refl eq_refl) as [_ Hnamed].
    destruct (Hnamed eq_refl (JObj [("type", JStr "string"); ("title", JStr "Bar")])
                eq_refl eq_refl) as [Hsame _].
    eexists. split; [apply Hsame; reflexivity|]. apply lookup_insert_eq.
  - destruct (reference_resolution 1 {| addr := 8; target := Schema number_bar |}
                bar_registry) as [_ H].
    destruct (H (JObj [("type", JStr "number"); ("format", JStr "float");
                       ("title", JStr "Bar")]) []
                eq_refl eq_refl eq_refl) as [_ Hnamed].
    destruct (Hnamed eq_refl (JObj [("type", JStr "string"); ("title", JStr "Bar")])
                eq_refl eq_refl) as [_ Hdiff].
    apply Hdiff. vm_compute. discriminate.
Defined.

End Resolver.

(* ===================================================================== *)
(** ** Defaults *)
(* ===================================================================== *)

Section Defaults.
Import JS Joi JoiToSwagger Spec Samples.

Ltac no_default :=
  repeat match goal with
         | |- context [if ?c then _ else _] => destruct c
         | |- context [match ?x with Some _ => _ | None => _ end] => destruct x
         end;
  rewrite ?obj_get_set_ne by discriminate;
  rewrite ?obj_get_delete_ne by discriminate;
  try reflexivity.

Lemma mode_not_default m : m +:+ "Of" <> "default".
Proof.
  destruct m as [|a1 [|a2 [|a3 [|a4 [|a5 [|a6 m]]]]]]; simpl; try discriminate.
  intros H. inversion H as [[H1 H2 H3 H4 H5 H6 H7]].
  destruct m as [|b [|b' m]]; discriminate.
Qed.

Lemma schemaForAlternatives_no_default parse alts known c mode w c' :
  mode <> "default" ->
  schemaForAlternatives parse alts known c mode = Return (w, c') ->
  obj_get "default" w = None.
Proof.
  intros Hmode H. apply schemaForAlternatives_spec in H as (kept & survivors & _ & _ & _ & ->).
  destruct survivors; [reflexivity|]. cbn [obj_get].
  destruct (String.eqb_spec mode "default"); [contradiction | reflexivity].
Qed.

Lemma number_no_default schema : obj_get "default" (parseAsType_number schema) = None.
Proof.
  unfold parseAsType_number.
  rewrite obj_get_assign_absent by (apply parseValidsAndInvalids_get; discriminate).
  no_default.
Qed.

Lemma string_no_default schema swagger :
  parseAsType_string schema = Return swagger -> obj_get "default" swagger = None.
Proof.
  unfold parseAsType_string.
  destruct (find_rule schema "pattern") as [p|];
    [destruct (arg_regex (args p)); [|discriminate]|]; cbn [bind]; intros [= <-];
    rewrite !obj_get_assign_absent
      by (first [apply parseValidsAndInvalids_get | apply getMinMax_get]; discriminate);
    unfold clear_pattern; no_default.
Qed.

Lemma array_no_default parse schema known c openapi c' :
  parseAsType_array parse schema known c = Return (openapi, c') ->
  obj_get "default" openapi = None.
Proof.
  unfold parseAsType_array. destruct (items schema) as [its|]; [|discriminate].
  destruct (for_each (item_step parse known) its ([], c)) as [[swaggers c1]| |];
    cbn [bind]; try discriminate.
  intros [= <- <-].
  destruct (has_rule schema "unique"); rewrite ?obj_get_set_ne by discriminate;
    rewrite obj_get_assign_absent by (apply getMinMax_get; discriminate);
    no_default.
Qed.

Lemma object_no_default parse schema known c swagger c' :
  parseAsType_object parse schema known c = Return (swagger, c') ->
  obj_get "default" swagger = None.
Proof.
  unfold parseAsType_object.
  destruct (for_each (child_step parse) _ _) as [st| |]; cbn [bind]; try discriminate.
  match goal with |- context [bind ?m _] => destruct m as [st'| |] end;
    cbn [bind]; try discriminate.
  intros [= <- <-]. no_default.
Qed.

(** no extractor sets a [default] field *)
Lemma extractor_no_default parse k extract schema known c swagger c' :
  extractor_for (parseAsType parse) k = Some extract ->
  extract schema known c = Return (swagger, c') ->
  obj_get "default" swagger = None.
Proof.
  unfold parseAsType. cbn [extractor_for].
  repeat match goal with
         | |- context [if ?b then Some ?f else _] =>
             destruct b; [intros [= <-]|]
         end; try discriminate.
  - unfold scalar. intros [= <- _]. apply number_no_default.
  - destruct (parseAsType_string schema) as [sw| |] eqn:E; cbn [bind]; try discriminate.
    intros [= <- _]. now apply (string_no_default schema).
  - unfold scalar, parseAsType_binary. intros [= <- _].
    rewrite obj_get_assign_absent by (apply getMinMax_get; discriminate). no_default.
  - unfold scalar, parseAsType_date. intros [= <- _]. no_default.
  - unfold scalar. intros [= <- _]. reflexivity.
  - unfold parseAsType_alternatives. destruct (matches schema); [|discriminate].
    apply schemaForAlternatives_no_default. apply mode_not_default.
  - apply array_no_default.
  - apply object_no_default.
  - unfold scalar, parseAsType_any. intros [= <- _].
    rewrite obj_get_assign_absent by (apply parseValidsAndInvalids_get; discriminate).
    no_default.
Qed.

Lemma parseWhens_no_default parse whens known c w c' :
  parseWhens parse whens known c = Return (w, c') -> obj_get "default" w = None.
Proof.
  unfold parseWhens. apply schemaForAlternatives_no_default.
  destruct (1 <? length whens)%nat; discriminate.
Qed.

(** the [default] field after the attachments of [parse] *)
Lemma attach_default schema override swagger :
  obj_get "default" (own_props override) = None ->
  obj_get "default" (attach schema override swagger)
  = if (truthy (default (_flags schema))
        || String.eqb (typeof (default (_flags schema))) "boolean")
       && negb (String.eqb (typeof (default (_flags schema))) "function")
    then Some (default (_flags schema))
    else obj_get "default" swagger.
Proof.
  intros Hov. unfold attach.
  assert (Hlast : forall X,
             obj_get "default"
               (if truthy override then obj_assign X (own_props override) else X)
             = obj_get "default" X).
  { intros X. destruct (truthy override); [|reflexivity].
    now apply obj_get_assign_absent. }
  rewrite Hlast.
  destruct ((truthy (default (_flags schema))
             || String.eqb (typeof (default (_flags schema))) "boolean")
            && negb (String.eqb (typeof (default (_flags schema))) "function")).
  - apply obj_get_set_eq.
  - destruct (label (_flags schema)) as [l|]; [destruct (String.eqb l EmptyString)|];
      rewrite ?obj_get_set_ne by discriminate;
      (destruct (examples schema) as [[|e [|e' es]]|];
       rewrite ?obj_get_set_ne by discriminate);
      (destruct (description (_flags schema)) as [d|];
       [destruct (String.eqb d EmptyString)|];
       rewrite ?obj_get_set_ne by discriminate);
      (destruct (_valids schema) as [vs|];
       [destruct (existsb _ vs)|];
       rewrite ?obj_get_set_ne by discriminate);
      reflexivity.
Qed.




End Defaults.

(* ===================================================================== *)
(** ** Termination: a budget above the depth of the tree is enough *)
(* ===================================================================== *)

Section Termination.
Import JS Joi JoiToSwagger Spec.

Lemma list_max_In (x : nat) xs : In x xs -> (x <= list_max xs)%nat.
Proof.
  induction xs as [|y xs IH]; simpl; [tauto|]. intros [->|H]; [lia|].
  specialize (IH H). lia.
Qed.

Lemma list_max_map_In {A} (f : A -> nat) x xs : In x xs -> (f x <= list_max (map f xs))%nat.
Proof. intros H. apply list_max_In, in_map, H. Qed.

Lemma depth_option (o : option node) c bound :
  (match o with Some x => depth x | None => O end <= bound)%nat ->
  In c (opt_list o) -> (depth c <= bound)%nat.
Proof. destruct o; simpl; [intros H [<-|[]]; exact H | tauto]. Qed.

Lemma depth_clause (w : when_clause node) c :
  In c (clause_alternatives w) ->
  (depth c <=
   Nat.max (match when_then w with Some x => depth x | None => O end)
     (Nat.max (match when_otherwise w with Some x => depth x | None => O end)
        (match when_switch w with
         | Some cases =>
             list_max (map (fun s =>
                              Nat.max (match case_then s with Some x => depth x | None => O end)
                                (match case_otherwise s with
                                 | Some x => depth x
                                 | None => O
                                 end)) cases)
         | None => O
         end)))%nat.
Proof.
  unfold clause_alternatives. intros H.
  apply in_app_or in H as [H|H]; [|apply in_app_or in H as [H|H]].
  - eapply depth_option in H; [|reflexivity]. lia.
  - eapply depth_option in H; [|reflexivity]. lia.
  - destruct (when_switch w) as [cases|]; [|destruct H].
    apply in_flat_map in H as (s & Hs & H).
    pose proof (list_max_map_In
                  (fun s => Nat.max (match case_then s with Some x => depth x | None => O end)
                              (match case_otherwise s with
                               | Some x => depth x
                               | None => O
                               end)) s cases Hs) as Hle.
    simpl in Hle.
    apply in_app_or in H as [H|H]; (eapply depth_option in H; [|reflexivity]); lia.
Qed.

(** every node [parse] recurses on lies strictly deeper in the tree *)
Lemma depth_subnodes n c : In c (subnodes n) -> (depth c < depth n)%nat.
Proof.
  unfold subnodes, children_of. destruct n as
    [ty rules fl va inv pc ms ov ks ps its mts ws ex]. cbn [schemaOverride keys key_patterns
      items matches whens depth]. intros H.
  match goal with |- (_ < S (list_max ?l))%nat =>
    enough (exists x, In x l /\ (depth c <= x)%nat) as (x & Hx & Hle)
      by (apply list_max_In in Hx; lia) end.
  repeat (apply in_app_or in H as [H|H]).
  - eapply depth_option in H; [|reflexivity].
    eexists. split; [left; reflexivity | exact H].
  - destruct ks as [ks|]; [|destruct H]. apply in_map_iff in H as ([k x] & <- & H).
    eexists. split; [right; left; reflexivity|].
    apply (list_max_map_In (fun kc : string * node => depth (snd kc)) _ _ H).
  - destruct ps as [ps|]; [|destruct H]. apply in_flat_map in H as (o & Ho & H).
    eexists. split; [do 2 right; left; reflexivity|].
    eapply depth_option in H; [|reflexivity]. etransitivity; [exact H|].
    apply (list_max_map_In
             (fun o : option node => match o with Some x => depth x | None => O end)
             _ _ Ho).
  - destruct its as [its|]; [|destruct H].
    eexists. split; [do 3 right; left; reflexivity|].
    apply (list_max_map_In depth _ _ H).
  - destruct mts as [mts|]; [|destruct H]. apply in_flat_map in H as (m & Hm & H).
    eexists. split; [do 4 right; left; reflexivity|].
    etransitivity; [|apply (list_max_map_In _ _ _ Hm)].
    destruct m as [x|w].
    + destruct H as [<-|[]]. reflexivity.
    + now apply depth_clause.
  - destruct ws as [ws|]; [|destruct H]. apply in_flat_map in H as (w & Hw & H).
    eexists. split; [do 5 right; left; reflexivity|].
    etransitivity; [|apply (list_max_map_In _ _ _ Hw)].
    now apply depth_clause.
Qed.

Lemma bind_fuel {A B} (m : outcome A) (k : A -> outcome B) :
  m <> OutOfFuel -> (forall a, m = Return a -> k a <> OutOfFuel) ->
  bind m k <> OutOfFuel.
Proof. destruct m; simpl; intros Hm Hk; [now apply Hk | discriminate | contradiction]. Qed.

Lemma for_each_fuel {A S} (step : S -> A -> outcome S) xs acc :
  (forall s x, In x xs -> step s x <> OutOfFuel) ->
  for_each step xs acc <> OutOfFuel.
Proof.
  revert acc. induction xs as [|x xs IH]; intros acc H; simpl; [discriminate|].
  apply bind_fuel; [apply H; now left|].
  intros s _. apply IH. intros s' y Hy. apply H. now right.
Qed.

Section Steps.
Variable parse : parser.
Variable schema : node.
Hypothesis parse_subnodes :
  forall c, In c (subnodes schema) -> forall e o, parse (Schema c) e o <> OutOfFuel.

Lemma alternatives_fuel alts known c mode :
  (forall n, In n alts -> In n (subnodes schema)) ->
  schemaForAlternatives parse alts known c mode <> OutOfFuel.
Proof using parse_subnodes.
  intros Hsub. unfold schemaForAlternatives. apply bind_fuel.
  - apply for_each_fuel. intros [swaggers c0] n Hn. unfold alternative_step.
    apply bind_fuel; [apply parse_subnodes, Hsub, Hn|].
    intros [[swagger components]|] _; [|discriminate].
    destruct (truthy swagger); simpl; [|discriminate].
    apply bind_fuel; [|discriminate].
    destruct (is_required n); [|discriminate].
    destruct swagger; discriminate.
  - intros [swaggers c0] _. discriminate.
Qed.

Lemma array_fuel known c : parseAsType_array parse schema known c <> OutOfFuel.
Proof using parse_subnodes.
  unfold parseAsType_array. destruct (items schema) as [its|] eqn:Hits; [|discriminate].
  apply bind_fuel.
  - apply for_each_fuel. intros [swaggers c0] n Hn. unfold item_step.
    apply bind_fuel.
    + apply parse_subnodes. unfold subnodes. rewrite Hits.
      apply in_or_app; right. apply in_or_app; right. apply in_or_app; right.
      apply in_or_app; left. exact Hn.
    + intros [[swagger components]|] _; [|discriminate].
      destruct (truthy swagger); discriminate.
  - intros [swaggers c0] _. discriminate.
Qed.

Lemma object_fuel known c : parseAsType_object parse schema known c <> OutOfFuel.
Proof using parse_subnodes.
  unfold parseAsType_object. fold (children_of schema). apply bind_fuel.
  - apply for_each_fuel. intros s [key child] Hin. unfold child_step. simpl.
    apply bind_fuel.
    + apply parse_subnodes. unfold subnodes.
      apply in_or_app; right. apply in_or_app; left.
      apply in_map_iff. exists (key, child). now split.
    + intros [[swagger components]|] _; [|discriminate].
      destruct (truthy swagger); discriminate.
  - intros st _. apply bind_fuel; [|discriminate].
    destruct (Nat.eqb (length (children_of schema)) 0); [|discriminate].
    destruct (key_patterns schema) as [ps|] eqn:Hps; [|discriminate].
    apply for_each_fuel. intros s [rule|] Hin; unfold pattern_step; [|discriminate].
    apply bind_fuel.
    + apply parse_subnodes. unfold subnodes. rewrite Hps.
      apply in_or_app; right. apply in_or_app; right. apply in_or_app; left.
      apply in_flat_map. exists (Some rule). split; [exact Hin | now left].
    + intros [[swagger components]|] _; [|discriminate].
      destruct (truthy swagger); discriminate.
Qed.

Lemma extractor_fuel k extract known c :
  extractor_for (parseAsType parse) k = Some extract ->
  extract schema known c <> OutOfFuel.
Proof using parse_subnodes.
  unfold parseAsType. cbn [extractor_for].
  repeat match goal with
         | |- context [if ?b then Some ?f else _] =>
             destruct b; [intros [= <-]|]
         end; try discriminate.
  - destruct (parseAsType_string schema) eqn:E; simpl; try discriminate.
    unfold parseAsType_string in E.
    destruct (find_rule schema "pattern") as [p|];
      [destruct (arg_regex (args p))|]; discriminate.
  - unfold parseAsType_alternatives. destruct (matches schema) as [ms|] eqn:Hms;
      [|discriminate].
    apply alternatives_fuel. intros n Hn. unfold subnodes. rewrite Hms.
    do 4 (apply in_or_app; right). apply in_or_app; left. exact Hn.
  - apply array_fuel.
  - apply object_fuel.
Qed.

Lemma parse_schema_fuel known isSchemaOverride :
  parse_schema parse schema known isSchemaOverride <> OutOfFuel.
Proof using parse_subnodes.
  unfold parse_schema. destruct (schemaOverride schema) as [ov|] eqn:Hov.
  { destruct isSchemaOverride; [discriminate|].
    apply parse_subnodes. unfold subnodes. rewrite Hov. now left. }
  cbv zeta.
  repeat match goal with
         | |- (if ?b then _ else _) <> _ => destruct b; try discriminate
         end.
  all: destruct (extractor_for _ _) as [extract|] eqn:Hex; [|discriminate].
  all: apply bind_fuel; [eapply extractor_fuel; eauto|].
  all: intros [sw0 c0] _; apply bind_fuel; [|intros [sw1 c1] _; discriminate].
  all: destruct (whens schema) as [ws|] eqn:Hws; [|discriminate].
  all: apply bind_fuel; [|intros [w c1] _; discriminate].
  all: unfold parseWhens; apply alternatives_fuel; intros n Hn; unfold subnodes;
    rewrite Hws; do 5 (apply in_or_app; right); exact Hn.
Qed.

End Steps.

(** with a budget above the depth of the schema tree, [parse] returns or
    throws: the budget is never what stops it *)
Lemma parse_enough_fuel fuel schema known isSchemaOverride :
  (depth schema < fuel)%nat ->
  parse fuel (Schema schema) known isSchemaOverride <> OutOfFuel.
Proof.
  revert schema known isSchemaOverride.
  induction fuel as [|fuel IH]; intros schema known o Hd; [lia|].
  cbn [parse parse_body]. apply parse_schema_fuel.
  intros c Hc e o'. apply IH. apply depth_subnodes in Hc. lia.
Qed.

End Termination.

(* ===================================================================== *)
(** ** The recursion budget *)
(* ===================================================================== *)

Section Budget.
Import JS Joi JoiToSwagger Spec Notions.

Lemma bind_extends {A B} (m m' : outcome A) (k k' : A -> outcome B) :
  (m <> OutOfFuel -> m' = m) ->
  (forall a, m = Return a -> k a <> OutOfFuel -> k' a = k a) ->
  bind m k <> OutOfFuel -> bind m' k' = bind m k.
Proof.
  intros Hm Hk. destruct m as [a| |]; simpl; intros H.
  - rewrite Hm by discriminate. simpl. now apply Hk.
  - now rewrite Hm by discriminate.
  - contradiction.
Qed.

Lemma for_each_extends {A S} (step step' : S -> A -> outcome S) xs acc :
  (forall s x, In x xs -> step s x <> OutOfFuel -> step' s x = step s x) ->
  for_each step xs acc <> OutOfFuel ->
  for_each step' xs acc = for_each step xs acc.
Proof.
  revert acc. induction xs as [|x xs IH]; intros acc H; simpl; [reflexivity|].
  apply bind_extends.
  - apply H. now left.
  - intros a _. apply IH. intros s y Hy. apply H. now right.
Qed.

Section BudgetSteps.
Variables P P' : parser.
Hypothesis HP : extends P P'.

(** a step that starts with a call of [parse] *)
Ltac first_call :=
  match goal with
  | |- bind (P ?x ?e ?o) ?k <> OutOfFuel -> bind (P' ?x ?e ?o) ?k = _ =>
      let H := fresh in
      intros H; rewrite (HP x e o); [reflexivity|];
      intros E; apply H; rewrite E; reflexivity
  end.

Lemma alternative_step_extends known st n :
  alternative_step P known st n <> OutOfFuel ->
  alternative_step P' known st n = alternative_step P known st n.
Proof using HP. unfold alternative_step. destruct st. first_call. Qed.

Lemma item_step_extends known st n :
  item_step P known st n <> OutOfFuel ->
  item_step P' known st n = item_step P known st n.
Proof using HP. unfold item_step. destruct st. first_call. Qed.

Lemma child_step_extends st child :
  child_step P st child <> OutOfFuel -> child_step P' st child = child_step P st child.
Proof using HP. unfold child_step. first_call. Qed.

Lemma pattern_step_extends st rule :
  pattern_step P st rule <> OutOfFuel -> pattern_step P' st rule = pattern_step P st rule.
Proof using HP. unfold pattern_step. destruct rule; [first_call | reflexivity]. Qed.

Lemma schemaForAlternatives_extends alts known c mode :
  schemaForAlternatives P alts known c mode <> OutOfFuel ->
  schemaForAlternatives P' alts known c mode = schemaForAlternatives P alts known c mode.
Proof using HP.
  unfold schemaForAlternatives. apply bind_extends; [|reflexivity].
  apply for_each_extends. intros s x _. apply alternative_step_extends.
Qed.

Lemma array_extends schema known c :
  parseAsType_array P schema known c <> OutOfFuel ->
  parseAsType_array P' schema known c = parseAsType_array P schema known c.
Proof using HP.
  unfold parseAsType_array. destruct (items schema); [|reflexivity].
  apply bind_extends; [|reflexivity].
  apply for_each_extends. intros s x _. apply item_step_extends.
Qed.

Lemma object_extends schema known c :
  parseAsType_object P schema known c <> OutOfFuel ->
  parseAsType_object P' schema known c = parseAsType_object P schema known c.
Proof using HP.
  unfold parseAsType_object. apply bind_extends.
  - apply for_each_extends. intros s x _. apply child_step_extends.
  - intros st _. apply bind_extends; [|reflexivity].
    destruct (Nat.eqb _ 0); [|reflexivity].
    destruct (key_patterns schema); [|reflexivity].
    apply for_each_extends. intros s x _. apply pattern_step_extends.
Qed.

Lemma extractor_extends k :
  match extractor_for (parseAsType P) k, extractor_for (parseAsType P') k with
  | Some f, Some f' =>
      forall schema known c, f schema known c <> OutOfFuel ->
                             f' schema known c = f schema known c
  | None, None => True
  | _, _ => False
  end.
Proof using HP.
  unfold parseAsType. cbn [extractor_for].
  repeat match goal with
         | |- context [if ?b then Some _ else _] => destruct b; [try reflexivity|]
         end; try exact I.
  - intros schema known c. unfold parseAsType_alternatives.
    destruct (matches schema); [|reflexivity]. apply schemaForAlternatives_extends.
  - apply array_extends.
  - apply object_extends.
Qed.

Lemma parse_schema_extends schema known o :
  parse_schema P schema known o <> OutOfFuel ->
  parse_schema P' schema known o = parse_schema P schema known o.
Proof using HP.
  unfold parse_schema. destruct (schemaOverride schema) as [ov|].
  { destruct o; [reflexivity | apply HP]. }
  cbv zeta.
  repeat match goal with
         | |- (if ?b then _ else _) <> _ -> _ => destruct b; try reflexivity
         end.
  all: pose proof (extractor_extends
         (to_string (or_else (meta schema "baseType") (JStr (type schema))))) as Hex.
  all: destruct (extractor_for (parseAsType P) _) as [f|],
         (extractor_for (parseAsType P') _) as [f'|]; try contradiction; try reflexivity.
  all: apply bind_extends; [apply Hex|].
  all: intros [sw0 c0] _; apply bind_extends; [|reflexivity].
  all: destruct (whens schema); [|reflexivity].
  all: apply bind_extends; [|reflexivity].
  all: apply schemaForAlternatives_extends.
Qed.

Lemma parse_body_extends : extends (parse_body P) (parse_body P').
Proof using HP.
  intros [| | |] e o; try reflexivity; apply parse_schema_extends.
Qed.

End BudgetSteps.

Lemma parse_S_extends fuel : extends (parse fuel) (parse (S fuel)).
Proof.
  induction fuel as [|fuel IH].
  - intros x e o H. now contradiction H.
  - change (extends (parse_body (parse fuel)) (parse_body (parse (S fuel)))).
    now apply parse_body_extends.
Qed.

Lemma parse_le_extends fuel fuel' :
  (fuel <= fuel')%nat -> extends (parse fuel) (parse fuel').
Proof.
  induction 1 as [|fuel' _ IH]; [now intros x e o _|].
  intros x e o H. rewrite <- (IH x e o H). apply parse_S_extends.
  now rewrite (IH x e o H).
Qed.

Lemma parse_value_enough_fuel fuel x known o :
  (value_depth x < fuel)%nat -> parse fuel x known o <> OutOfFuel.
Proof.
  destruct x as [|n|fields|]; cbn [value_depth]; intros H.
  - destruct fuel; [lia | discriminate].
  - now apply parse_enough_fuel.
  - destruct fuel as [|fuel]; [lia|].
    change (parse (S fuel) (Schema (object_keys fields)) known o <> OutOfFuel).
    now apply parse_enough_fuel.
  - destruct fuel; [lia | discriminate].
Qed.



End Budget.

(* ===================================================================== *)
(** ** Named components and overrides in [parse] *)
(* ===================================================================== *)

Section NamedAndOverridden.
Import JS Joi JoiToSwagger Spec Notions Samples Inputs.

Lemma get_set2 components k1 k2 v :
  Lodash.get (JObj (Lodash.set2 components k1 k2 v)) [k1; k2] = v.
Proof.
  unfold Lodash.set2. cbn [Lodash.get]. rewrite obj_get_set_eq, obj_get_set_eq.
  reflexivity.
Qed.



Lemma attach_override schema override swagger :
  truthy override = true ->
  attach schema override swagger
  = obj_assign (attach schema JUndefined swagger) (own_props override).
Proof. intros H. unfold attach. rewrite H. reflexivity. Qed.



(** X25: the metadata of a node are flattened from left to right: a key
    of the metadata object attached last has the value given there, and
    any other key has the value the objects attached before give it. *)
Theorem later_meta_wins (schema : node) (ms : list object) (m : object) (k : string) :
  metas schema = ms ++ [m] ->
  List.NoDup (obj_keys m) ->
  meta schema k
  = match obj_get k m with
    | Some v => v
    | None => meta (with_metas ms schema) k
    end.
Proof.
  intros Hm Hnd. unfold meta, flattenMeta. rewrite Hm, fold_left_app.
  cbn [fold_left metas with_metas Lodash.get]. rewrite obj_get_assign by assumption.
  now destruct (obj_get k m).
Qed.

Lemma later_meta_wins_witness :
  meta twice_named "className" = JStr "B" /\ meta twice_named "note" = JNum 1.
Proof.
  split.
  - apply (later_meta_wins twice_named [[("className", JStr "A"); ("note", JNum 1)]]
             [("className", JStr "B")] "className").
    + reflexivity.
    + repeat constructor; simpl; intuition discriminate.
  - apply (later_meta_wins twice_named [[("className", JStr "A"); ("note", JNum 1)]]
             [("className", JStr "B")] "note").
    + reflexivity.
    + repeat constructor; simpl; intuition discriminate.
Defined.

(** X4: a node that carries a schema override compiles exactly as the
    override does, its own type, flags and metadata being ignored; an
    override that carries an override itself makes [parse] throw the
    nested-override error. *)
Theorem schema_override_replaces (fuel : nat) (schema override : node) (known : object) :
  schemaOverride schema = Some override ->
  parse (S (S fuel)) (Schema schema) known false
  = match schemaOverride override with
    | None => parse (S fuel) (Schema override) known false
    | Some _ => Throw NestedSchemaOverride
    end.
Proof.
  intros H. cbn [parse parse_body]. unfold parse_schema at 1. rewrite H.
  cbn [parse_body]. unfold parse_schema.
  destruct (schemaOverride override); reflexivity.
Qed.

Lemma schema_override_replaces_witness :
  parse 2 (Schema overridden_by_number) [] false = parse 1 (Schema (plain "number")) [] false.
Proof. apply (schema_override_replaces 0 overridden_by_number (plain "number") []). reflexivity. Defined.



End NamedAndOverridden.

(* ===================================================================== *)
(** ** More on the rule extractors *)
(* ===================================================================== *)

Section MoreExtractors.
Import JS Joi JoiToSwagger Spec Notions Samples Inputs.

Ltac by_cases :=
  repeat match goal with
         | |- context [if ?c then _ else _] => destruct c
         | |- context [match ?x with Some _ => _ | None => _ end] => destruct x
         end;
  rewrite ?obj_get_set_ne by discriminate;
  rewrite ?obj_get_delete_ne by discriminate;
  try reflexivity.

Lemma parseValidsAndInvalids_NoDup schema f :
  List.NoDup (obj_keys (parseValidsAndInvalids schema f)).
Proof.
  unfold parseValidsAndInvalids.
  destruct (_valids schema), (_invalids schema);
    repeat match goal with |- context [if ?c then _ else _] => destruct c end;
    repeat apply obj_set_NoDup; constructor.
Qed.

Lemma parseValidsAndInvalids_enum schema f e :
  obj_get "enum" (parseValidsAndInvalids schema f) = Some e -> enum_of schema f e.
Proof.
  unfold parseValidsAndInvalids, enum_of.
  destruct (_valids schema) as [vs|].
  - destruct (only (_flags schema)); cbn [andb].
    + destruct (List.filter f vs) as [|x xs] eqn:Hf; cbn [length Nat.eqb negb].
      * destruct (_invalids schema); by_cases; discriminate.
      * intros H. exists vs. rewrite Hf.
        split; [reflexivity|]. split; [reflexivity|]. split; [discriminate|].
        destruct (_invalids schema) as [ws|];
          [destruct (negb (Nat.eqb (length (List.filter f ws)) 0))|];
          rewrite ?obj_get_set_ne in H by discriminate;
          rewrite obj_get_set_eq in H; congruence.
    + destruct (_invalids schema); by_cases; discriminate.
  - destruct (_invalids schema); by_cases; discriminate.
Qed.

Lemma assigned_enum base schema f e :
  obj_get "enum" base = None ->
  obj_get "enum" (obj_assign base (parseValidsAndInvalids schema f)) = Some e ->
  enum_of schema f e.
Proof.
  intros Hbase. rewrite obj_get_assign by apply parseValidsAndInvalids_NoDup.
  destruct (obj_get "enum" (parseValidsAndInvalids schema f)) eqn:E; [|congruence].
  intros [= <-]. now apply parseValidsAndInvalids_enum.
Qed.

(** X6: the [enum] the number, string and any extractors emit is never
    empty and never holds a value of another type: it is present only on
    a node marked [only], and lists exactly the valid values of the
    extractor's own primitive type (numbers; strings; strings and
    numbers), in their order, so that [null] never appears in it. *)
Theorem enum_lists_typed_valids (schema : node) (swagger : object)
    (filterFunc : json -> bool) (e : json) :
  (swagger = parseAsType_number schema /\ filterFunc = Lodash.isNumber) \/
  (parseAsType_string schema = Return swagger /\ filterFunc = Lodash.isString) \/
  (swagger = parseAsType_any schema /\
   filterFunc = fun s => Lodash.isString s || Lodash.isNumber s) ->
  obj_get "enum" swagger = Some e ->
  enum_of schema filterFunc e.
Proof.
  intros [[-> ->] | [[Hs ->] | [-> ->]]] H.
  - unfold parseAsType_number in H.
    eapply assigned_enum; [|exact H]. by_cases.
  - unfold parseAsType_string in Hs.
    destruct (find_rule schema "pattern") as [p|];
      [destruct (arg_regex (args p)); [|discriminate]|]; cbn [bind] in Hs;
      injection Hs as <-.
    all: eapply assigned_enum; [|exact H].
    all: rewrite obj_get_assign_absent by (apply getMinMax_get; discriminate).
    all: unfold clear_pattern; by_cases.
  - unfold parseAsType_any in H.
    eapply assigned_enum; [|exact H]. by_cases.
Qed.

Lemma enum_lists_typed_valids_witness :
  enum_of number_of_mixed_valids Lodash.isNumber (JArr [JNum 1; JNum 3]).
Proof.
  apply (enum_lists_typed_valids number_of_mixed_valids
           (parseAsType_number number_of_mixed_valids)).
  - left. split; reflexivity.
  - vm_compute; reflexivity.
Defined.

(** X7: the format and the pattern the string extractor emits follow a
    fixed precedence, whatever the order in which the rules were
    declared: the format is that of [guid] ("uuid"), else of [isoDate]
    ("date-time"), else of [email]; an explicit [pattern] rule gives the
    pattern; without one, any of the three format rules removes the
    pattern, and otherwise [token] gives its character class, else
    [alphanum] gives the mixed-case class, or the lower-case or
    upper-case one when conversion is disabled and a [case] rule asks for
    it. *)
Theorem string_format_and_pattern (schema : node) (swagger : object) :
  parseAsType_string schema = Return swagger ->
  obj_get "format" swagger
  = (if has_rule schema "guid" then Some (JStr "uuid")
     else if has_rule schema "isoDate" then Some (JStr "date-time")
     else if has_rule schema "email" then Some (JStr "email")
     else None) /\
  obj_get "pattern" swagger
  = match find_rule schema "pattern" with
    | Some pattern => option_map (fun re => JStr (regex_slice re)) (arg_regex (args pattern))
    | None =>
        if has_rule schema "email" || has_rule schema "isoDate" || has_rule schema "guid"
        then None
        else if has_rule schema "token" then Some (JStr "^[a-zA-Z0-9_]*$")
        else if has_rule schema "alphanum" then
          Some (JStr (match preferences_convert schema with
                      | Some false =>
                          if String.eqb (getCaseSuffix schema) "Lower" then "^[a-z0-9]*$"
                          else if String.eqb (getCaseSuffix schema) "Upper"
                               then "^[A-Z0-9]*$"
                               else "^[a-zA-Z0-9]*$"
                      | _ => "^[a-zA-Z0-9]*$"
                      end))
        else None
    end.
Proof.
  unfold parseAsType_string.
  destruct (find_rule schema "pattern") as [p|];
    [destruct (arg_regex (args p)) as [re|]; [|discriminate]|]; cbn [bind];
    intros [= <-];
    rewrite !obj_get_assign_absent
      by (first [apply parseValidsAndInvalids_get | apply getMinMax_get]; discriminate).
  - split; [|apply obj_get_set_eq].
    rewrite obj_get_set_ne by discriminate.
    destruct (has_rule schema "alphanum"), (has_rule schema "token"),
      (has_rule schema "email"), (has_rule schema "isoDate"), (has_rule schema "guid"),
      (preferences_convert schema) as [[|]|];
      try (destruct (getCaseSuffix_cases schema) as [-> | [-> | ->]]);
      reflexivity.
  - destruct (has_rule schema "alphanum"), (has_rule schema "token"),
      (has_rule schema "email"), (has_rule schema "isoDate"), (has_rule schema "guid"),
      (preferences_convert schema) as [[|]|];
      try (destruct (getCaseSuffix_cases schema) as [-> | [-> | ->]]);
      split; reflexivity.
Qed.

Lemma string_format_and_pattern_witness :
  (obj_get "format" [("type", JStr "string"); ("pattern", JStr "^[a-z0-9]*$")] = None /\
   obj_get "pattern" [("type", JStr "string"); ("pattern", JStr "^[a-z0-9]*$")]
   = Some (JStr "^[a-z0-9]*$")) /\
  (obj_get "format" [("type", JStr "string"); ("format", JStr "uuid")]
   = Some (JStr "uuid") /\
   obj_get "pattern" [("type", JStr "string"); ("format", JStr "uuid")] = None).
Proof.
  split.
  - apply (string_format_and_pattern strict_lower_alphanum). reflexivity.
  - apply (string_format_and_pattern guid_date_email_token). reflexivity.
Defined.

(** X8: the length bounds of the string and binary extractors:
    [minLength] is the limit of the last [min] or [length] rule and
    [maxLength] that of the last [max] or [length] rule, so that
    [length(n)] sets both and a later [min] or [max] replaces one of
    them; without such a rule the field is absent. *)
Theorem length_bounds (schema : node) (swagger : object) :
  parseAsType_string schema = Return swagger \/ swagger = parseAsType_binary schema ->
  obj_get "minLength" swagger = last_limit ["min"; "length"] (_rules schema) /\
  obj_get "maxLength" swagger = last_limit ["max"; "length"] (_rules schema).
Proof.
  pose proof (getMinMax_min schema "Length") as Hmin.
  pose proof (getMinMax_max schema "Length") as Hmax.
  pose proof (getMinMax_NoDup schema "Length") as Hnd.
  change ("min" +:+ "Length") with "minLength" in Hmin.
  change ("max" +:+ "Length") with "maxLength" in Hmax.
  intros [H | ->].
  - unfold parseAsType_string in H.
    destruct (find_rule schema "pattern") as [p|];
      [destruct (arg_regex (args p)) as [re|]; [|discriminate]|]; cbn [bind] in H;
      injection H as <-;
      rewrite !(obj_get_assign_absent _ _ (parseValidsAndInvalids _ _))
        by (apply parseValidsAndInvalids_get; discriminate);
      rewrite !obj_get_assign by exact Hnd; rewrite Hmin, Hmax;
      destruct (last_limit ["min"; "length"] (_rules schema)),
        (last_limit ["max"; "length"] (_rules schema));
      split; try reflexivity; unfold clear_pattern; by_cases.
  - unfold parseAsType_binary.
    rewrite !obj_get_assign by exact Hnd. rewrite Hmin, Hmax.
    destruct (last_limit ["min"; "length"] (_rules schema)),
      (last_limit ["max"; "length"] (_rules schema));
      split; try reflexivity; by_cases.
Qed.

Lemma length_bounds_witness :
  (obj_get "minLength" [("type", JStr "string"); ("minLength", JNum 2); ("maxLength", JNum 8)]
   = last_limit ["min"; "length"] (_rules string_length_then_min) /\
   obj_get "maxLength" [("type", JStr "string"); ("minLength", JNum 2); ("maxLength", JNum 8)]
   = last_limit ["max"; "length"] (_rules string_length_then_min)) /\
  (obj_get "minLength" (parseAsType_binary binary_min_then_length)
   = last_limit ["min"; "length"] (_rules binary_min_then_length) /\
   obj_get "maxLength" (parseAsType_binary binary_min_then_length)
   = last_limit ["max"; "length"] (_rules binary_min_then_length)).
Proof.
  split.
  - apply (length_bounds string_length_then_min). left. reflexivity.
  - apply (length_bounds binary_min_then_length). right. reflexivity.
Defined.

End MoreExtractors.

(* ===================================================================== *)
(** ** More on the composite extractors *)
(* ===================================================================== *)

Section MoreComposites.
Import JS Joi JoiToSwagger Spec Notions Samples Inputs.
Variable parse : parser.

Lemma obj_get_set_defined k k' v o :
  obj_get k o <> None -> obj_get k (obj_set k' v o) <> None.
Proof.
  intros H. destruct (String.eqb_spec k' k) as [->|Hne].
  - now rewrite obj_get_set_eq.
  - now rewrite obj_get_set_ne.
Qed.

(** what the loop over the children keeps true of its state *)
Lemma child_loop_requireds children st st' :
  (forall x, In x (requireds st) ->
             exists k child, x = JStr k /\ In (k, child) children /\
                             is_required child = true /\
                             obj_get k (properties st) <> None) ->
  for_each (child_step parse) children st = Return st' ->
  additionalProperties st' = additionalProperties st /\
  forall x, In x (requireds st') ->
            exists k child, x = JStr k /\ In (k, child) children /\
                            is_required child = true /\
                            obj_get k (properties st') <> None.
Proof.
  intros Hst.
  apply (for_each_invariant
           (fun s => additionalProperties s = additionalProperties st /\
                     forall x, In x (requireds s) ->
                       exists k child, x = JStr k /\ In (k, child) children /\
                                       is_required child = true /\
                                       obj_get k (properties s) <> None));
    [now split|].
  intros s [key child] s' Hin [Hap Hs]. unfold child_step. cbn [fst snd].
  destruct (parse (Schema child) (combinedComponents s) false)
    as [[[swagger components]|]| |]; cbn [bind]; try discriminate.
  - destruct (truthy swagger); cbn [negb]; intros [= <-]; [|now split].
    cbn [additionalProperties requireds properties]. split; [exact Hap|].
    intros x Hx.
    assert (Hold : In x (requireds s) ->
                   exists k child0, x = JStr k /\ In (k, child0) children /\
                                    is_required child0 = true /\
                                    obj_get k (obj_set key swagger (properties s)) <> None).
    { intros Hx'. destruct (Hs x Hx') as (k & child0 & -> & Hk & Hreq & Hp).
      exists k, child0. repeat split; auto. now apply obj_get_set_defined. }
    destruct (is_required child) eqn:Hreq; [|now apply Hold].
    apply in_app_or in Hx as [Hx|[<-|[]]]; [now apply Hold|].
    exists key, child. repeat split; auto. now rewrite obj_get_set_eq.
  - intros [= <-]. now split.
Qed.

(** a required child that compiles to a schema is listed *)
Lemma child_loop_lists_required children k child st st' :
  In (k, child) children ->
  is_required child = true ->
  (forall comps, exists s cs,
      parse (Schema child) comps false = Return (Some (s, cs)) /\ truthy s = true) ->
  for_each (child_step parse) children st = Return st' ->
  In (JStr k) (requireds st').
Proof.
  intros Hin Hreq Hc. apply in_split in Hin as (pre & post & ->).
  rewrite for_each_app.
  destruct (for_each (child_step parse) pre st) as [s1| |]; cbn [bind]; try discriminate.
  cbn [for_each]. unfold child_step at 1. cbn [fst snd].
  destruct (Hc (combinedComponents s1)) as (s & cs & -> & Ht). cbn [bind].
  rewrite Ht, Hreq. cbn [negb bind].
  apply (for_each_invariant (fun s => In (JStr k) (requireds s))).
  - cbn [requireds]. apply in_or_app. right. now left.
  - intros s0 [key0 child0] s0' _ Hs0. unfold child_step. cbn [fst snd].
    destruct (parse (Schema child0) (combinedComponents s0) false)
      as [[[swagger components]|]| |]; cbn [bind]; try discriminate.
    + destruct (truthy swagger); cbn [negb]; intros [= <-]; [|assumption].
      cbn [requireds]. destruct (is_required child0); [|assumption].
      apply in_or_app. now left.
    + now intros [= <-].
Qed.

(** what the loop over the key patterns keeps true of its state *)
Lemma pattern_loop_additional ps st st' :
  for_each (pattern_step parse) ps st = Return st' ->
  requireds st' = requireds st /\ properties st' = properties st /\
  (additionalProperties st' = additionalProperties st \/
   exists rule comps comps',
     In (Some rule) ps /\
     parse (Schema rule) comps false = Return (Some (additionalProperties st', comps'))).
Proof.
  apply (for_each_invariant
           (fun s => requireds s = requireds st /\ properties s = properties st /\
                     (additionalProperties s = additionalProperties st \/
                      exists rule comps comps',
                        In (Some rule) ps /\
                        parse (Schema rule) comps false
                        = Return (Some (additionalProperties s, comps')))));
    [now auto|].
  intros s [rule|] s' Hin (Hr & Hp & Hap); unfold pattern_step.
  - destruct (parse (Schema rule) (combinedComponents s) false)
      as [[[swagger components]|]| |] eqn:E; cbn [bind]; try discriminate.
    + destruct (truthy swagger); cbn [negb]; intros [= <-]; [|now auto].
      cbn [requireds properties additionalProperties].
      split; [exact Hr|]. split; [exact Hp|]. right. eauto.
    + intros [= <-]. now auto.
  - intros [= <-]. now auto.
Qed.

(** the parts of the state [parseAsType.object] builds its result from *)
Lemma object_final_state schema known c swagger c' :
  parseAsType_object parse schema known c = Return (swagger, c') ->
  exists st',
    (forall x, In x (requireds st') ->
               exists k child, x = JStr k /\ In (k, child) (children_of schema) /\
                               is_required child = true /\
                               obj_get k (properties st') <> None) /\
    (forall k child, In (k, child) (children_of schema) ->
       is_required child = true ->
       (forall comps, exists s cs,
           parse (Schema child) comps false = Return (Some (s, cs)) /\ truthy s = true) ->
       In (JStr k) (requireds st')) /\
    (additionalProperties st' = JObj [] \/
     children_of schema = [] /\
     exists ps rule comps comps',
       key_patterns schema = Some ps /\ In (Some rule) ps /\
       parse (Schema rule) comps false
       = Return (Some (additionalProperties st', comps'))) /\
    swagger
    = (let swagger := [("type", JStr "object"); ("properties", JObj (properties st'))] in
       let swagger :=
         if negb (Nat.eqb (length (requireds st')) 0)
         then obj_set "required" (JArr (requireds st')) swagger else swagger in
       let swagger :=
         match unknown (_flags schema) with
         | Some true => swagger
         | _ => obj_set "additionalProperties" (JBool false) swagger
         end in
       if negb (Nat.eqb (length (own_props (additionalProperties st'))) 0)
       then obj_set "additionalProperties" (additionalProperties st') swagger
       else swagger).
Proof.
  unfold parseAsType_object. fold (children_of schema).
  destruct (for_each (child_step parse) (children_of schema) _) as [st| |] eqn:E;
    cbn [bind]; try discriminate.
  pose proof E as Hlist.
  apply child_loop_requireds in E as [Hap Hreq]; [|intros x []].
  cbn [additionalProperties] in Hap.
  destruct (if Nat.eqb (length (children_of schema)) 0
            then match key_patterns schema with
                 | Some keyPatterns => for_each (pattern_step parse) keyPatterns st
                 | None => Return st
                 end
            else Return st) as [st'| |] eqn:E'; cbn [bind]; try discriminate.
  intros [= <- <-]. exists st'.
  assert (Hst' : requireds st' = requireds st /\ properties st' = properties st /\
                 (additionalProperties st' = JObj [] \/
                  children_of schema = [] /\
                  exists ps rule comps comps',
                    key_patterns schema = Some ps /\ In (Some rule) ps /\
                    parse (Schema rule) comps false
                    = Return (Some (additionalProperties st', comps')))).
  { destruct (children_of schema) as [|ch chs] eqn:Hch; cbn [length Nat.eqb] in E'.
    - destruct (key_patterns schema) as [ps|] eqn:Hps.
      + apply pattern_loop_additional in E' as (Hr & Hp & [Ha | Ha]).
        * split; [exact Hr|]. split; [exact Hp|]. left. congruence.
        * split; [exact Hr|]. split; [exact Hp|]. right. split; [reflexivity|].
          destruct Ha as (rule & comps & comps' & Hin & Hparse). eauto 8.
      + injection E' as <-. auto.
    - injection E' as <-. auto. }
  destruct Hst' as (Hr & Hp & Ha). rewrite Hr, Hp.
  split; [exact Hreq|]. split; [|split; [exact Ha | reflexivity]].
  intros k child Hin Hrq Hc. eapply child_loop_lists_required; eauto.
Qed.

(** X9: the [additionalProperties] of a compiled object: it is absent
    only when the node allows unknown keys; otherwise it is [false], or
    the compiled schema of one of the node's key patterns, which happens
    only when the node declares no child and that schema has at least one
    field of its own (a pattern that compiles to the empty schema leaves
    [false] in place). *)
Theorem object_additional_properties (schema : node) (known c : object)
    (swagger : object) (c' : object) :
  parseAsType_object parse schema known c = Return (swagger, c') ->
  match obj_get "additionalProperties" swagger with
  | None => unknown (_flags schema) = Some true
  | Some ap =>
      (ap = JBool false /\ unknown (_flags schema) <> Some true) \/
      (children_of schema = [] /\ own_props ap <> [] /\
       exists ps rule comps comps',
         key_patterns schema = Some ps /\ In (Some rule) ps /\
         parse (Schema rule) comps false = Return (Some (ap, comps')))
  end.
Proof.
  intros H. apply object_final_state in H as (st' & _ & _ & Ha & ->). cbv zeta.
  destruct (own_props (additionalProperties st')) as [|p ps'] eqn:Hown;
    cbn [length Nat.eqb negb].
  - destruct (unknown (_flags schema)) as [[|]|];
      destruct (negb (Nat.eqb (length (requireds st')) 0));
      rewrite ?obj_get_set_eq; rewrite ?obj_get_set_ne by discriminate;
      cbn [obj_get String.eqb Ascii.eqb Bool.eqb]; auto; left; split; congruence.
  - rewrite obj_get_set_eq. right.
    destruct Ha as [Ha | (Hch & Hps)]; [rewrite Ha in Hown; discriminate|].
    split; [exact Hch|]. split; [congruence | exact Hps].
Qed.

(** X10: the [required] list of a compiled object is never empty: it is
    present only when some child is required, every name in it is the key
    of a required child that has an entry in [properties], and a required
    child that compiles to a schema is always listed. *)
Theorem object_required_keys (schema : node) (known c : object)
    (swagger : object) (c' : object) :
  parseAsType_object parse schema known c = Return (swagger, c') ->
  (forall r, obj_get "required" swagger = Some r ->
     exists req props,
       r = JArr req /\ req <> [] /\
       obj_get "properties" swagger = Some (JObj props) /\
       forall x, In x req ->
         exists k child, x = JStr k /\ In (k, child) (children_of schema) /\
                         is_required child = true /\ obj_get k props <> None) /\
  (forall k child,
     In (k, child) (children_of schema) ->
     is_required child = true ->
     (forall comps, exists s cs,
         parse (Schema child) comps false = Return (Some (s, cs)) /\ truthy s = true) ->
     exists req, obj_get "required" swagger = Some (JArr req) /\ In (JStr k) req).
Proof.
  intros H. apply object_final_state in H as (st' & Hreq & Hlist & _ & ->). cbv zeta.
  assert (Hget : forall k,
    k <> "additionalProperties" ->
    obj_get k
      (if negb (Nat.eqb (length (own_props (additionalProperties st'))) 0)
       then obj_set "additionalProperties" (additionalProperties st')
              match unknown (_flags schema) with
              | Some true =>
                  if negb (Nat.eqb (length (requireds st')) 0)
                  then obj_set "required" (JArr (requireds st'))
                         [("type", JStr "object"); ("properties", JObj (properties st'))]
                  else [("type", JStr "object"); ("properties", JObj (properties st'))]
              | _ =>
                  obj_set "additionalProperties" (JBool false)
                    (if negb (Nat.eqb (length (requireds st')) 0)
                     then obj_set "required" (JArr (requireds st'))
                            [("type", JStr "object");
                             ("properties", JObj (properties st'))]
                     else [("type", JStr "object");
                           ("properties", JObj (properties st'))])
              end
       else match unknown (_flags schema) with
            | Some true =>
                if negb (Nat.eqb (length (requireds st')) 0)
                then obj_set "required" (JArr (requireds st'))
                       [("type", JStr "object"); ("properties", JObj (properties st'))]
                else [("type", JStr "object"); ("properties", JObj (properties st'))]
            | _ =>
                obj_set "additionalProperties" (JBool false)
                  (if negb (Nat.eqb (length (requireds st')) 0)
                   then obj_set "required" (JArr (requireds st'))
                          [("type", JStr "object");
                           ("properties", JObj (properties st'))]
                   else [("type", JStr "object");
                         ("properties", JObj (properties st'))])
            end)
    = obj_get k
        (if negb (Nat.eqb (length (requireds st')) 0)
         then obj_set "required" (JArr (requireds st'))
                [("type", JStr "object"); ("properties", JObj (properties st'))]
         else [("type", JStr "object"); ("properties", JObj (properties st'))])).
  { intros k Hk.
    destruct (negb (Nat.eqb (length (own_props (additionalProperties st'))) 0)),
      (unknown (_flags schema)) as [[|]|];
      rewrite ?obj_get_set_ne by congruence; reflexivity. }
  rewrite !Hget by discriminate. clear Hget.
  split.
  - intros r Hr. exists (requireds st'), (properties st').
    destruct (requireds st') as [|x xs] eqn:Hxs; cbn [length Nat.eqb negb] in *;
      [discriminate|].
    rewrite obj_get_set_eq in Hr. injection Hr as <-.
    split; [reflexivity|]. split; [discriminate|].
    split; [now rewrite obj_get_set_ne by discriminate|]. exact Hreq.
  - intros k child Hin Hrq Hc. specialize (Hlist k child Hin Hrq Hc).
    exists (requireds st').
    destruct (requireds st') as [|x xs] eqn:Hxs; [destruct Hlist|].
    cbn [length Nat.eqb negb]. rewrite obj_get_set_eq. now split.
Qed.


End MoreComposites.

Section MoreCompositeWitnesses.
Import JS Joi JoiToSwagger Spec Notions Samples Inputs.

(** a map of anything keeps [additionalProperties: false], a map of
    numbers gets the number schema *)
Lemma object_additional_properties_witness :
  ((JBool false = JBool false /\ unknown (_flags map_of_any) <> Some true) \/
   (children_of map_of_any = [] /\ own_props (JBool false) <> [] /\
    exists ps rule comps comps',
      key_patterns map_of_any = Some ps /\ In (Some rule) ps /\
      parse 1 (Schema rule) comps false = Return (Some (JBool false, comps')))) /\
  ((JObj [("type", JStr "number"); ("format", JStr "float")] = JBool false /\
    unknown (_flags map_of_numbers) <> Some true) \/
   (children_of map_of_numbers = [] /\
    own_props (JObj [("type", JStr "number"); ("format", JStr "float")]) <> [] /\
    exists ps rule comps comps',
      key_patterns map_of_numbers = Some ps /\ In (Some rule) ps /\
      parse 1 (Schema rule) comps false
      = Return (Some (JObj [("type", JStr "number"); ("format", JStr "float")], comps')))).
Proof.
  split.
  - apply (object_additional_properties (parse 1) map_of_any [] []
             [("type", JStr "object"); ("properties", JObj []);
              ("additionalProperties", JBool false)] []).
    vm_compute; reflexivity.
  - apply (object_additional_properties (parse 1) map_of_numbers [] []
             [("type", JStr "object"); ("properties", JObj []);
              ("additionalProperties",
               JObj [("type", JStr "number"); ("format", JStr "float")])] []).
    vm_compute; reflexivity.
Defined.

Lemma object_required_keys_witness :
  exists req,
    obj_get "required"
      [("type", JStr "object");
       ("properties",
        JObj [("id", JObj [("type", JStr "string")]);
              ("note", JObj [("type", JStr "string")]);
              ("code", JObj [("type", JStr "number"); ("format", JStr "float")])]);
       ("required", JArr [JStr "id"; JStr "code"]);
       ("additionalProperties", JBool false)]
    = Some (JArr req) /\ In (JStr "code") req.
Proof.
  destruct (object_required_keys (parse 1) two_required [] [] _ [] eq_refl) as [_ H].
  apply (H "code" (with_flags (presence_flags "required") (plain "number"))).
  - right. right. left. reflexivity.
  - vm_compute; reflexivity.
  - intros comps. eexists. eexists. split; reflexivity.
Defined.


End MoreCompositeWitnesses.

(* ===================================================================== *)
(** ** The registry of the assembler *)
(* ===================================================================== *)

Section RegistryFacts.
Import JS Joi JoiToSwagger SchemaToSwagger Spec Assembly Samples Classes MoreClasses.

Lemma converted_truthy fuel x v :
  converted fuel x = Return v -> v = JUndefined \/ truthy v = true.
Proof.
  unfold converted, j2s.
  destruct (parse fuel x [] false) as [[[swagger c]|]| |] eqn:E; cbn [bind];
    try discriminate; intros [= <-]; [right | now left].
  eapply parse_truthy; exact E.
Qed.

Lemma prop_truthy_value k v : truthy (prop k v) = true -> truthy v = true.
Proof.
  destruct v as [| |b|n|s|f|xs|o]; try reflexivity; try discriminate.
  destruct s; [discriminate | reflexivity].
Qed.

Lemma read_prop k v r : read k v = Return r -> r = prop k v.
Proof. destruct v; simpl; congruence. Qed.

Lemma prop_obj_set_eq k v o : prop k (JObj (obj_set k v o)) = v.
Proof. unfold prop. cbn [own_props]. now rewrite obj_get_set_eq. Qed.

Lemma prop_obj_set_ne k k' v o : k <> k' -> prop k' (JObj (obj_set k v o)) = prop k' (JObj o).
Proof. intros H. unfold prop. cbn [own_props]. now rewrite obj_get_set_ne. Qed.

(** the four ways [getSchemaNameFromObj] returns *)
Lemma getSchemaNameFromObj_cases fuel joiSchema reg name reg' :
  getSchemaNameFromObj fuel joiSchema reg = Return (name, reg') ->
  (schemaMap reg !! addr joiSchema = Some name /\ reg' = reg) \/
  (schemaMap reg !! addr joiSchema = None /\
   exists convertedSchema,
     converted fuel (target joiSchema) = Return convertedSchema /\
     ((convertedSchemasMap reg !! JSON_stringify convertedSchema = Some name /\
       reg' = {| schemas := schemas reg; parameters := parameters reg;
                 schemaMap := <[addr joiSchema := name]> (schemaMap reg);
                 convertedSchemasMap := convertedSchemasMap reg |}) \/
      (convertedSchemasMap reg !! JSON_stringify convertedSchema = None /\
       truthy (prop "title" convertedSchema) = true /\
       name = to_string (prop "title" convertedSchema) /\
       ((truthy (prop name (JObj (schemas reg))) = true /\
         JSON_stringify (prop name (JObj (schemas reg))) = JSON_stringify convertedSchema /\
         reg' = {| schemas := schemas reg; parameters := parameters reg;
                   schemaMap := <[addr joiSchema := name]> (schemaMap reg);
                   convertedSchemasMap :=
                     <[JSON_stringify convertedSchema := name]>
                       (convertedSchemasMap reg) |}) \/
        (truthy (prop name (JObj (schemas reg))) = false /\
         reg' = {| schemas :=
                     obj_set name
                       match convertedSchema with
                       | JObj o => JObj (obj_delete "title" o)
                       | v => v
                       end (schemas reg);
                   parameters := parameters reg;
                   schemaMap := <[addr joiSchema := name]> (schemaMap reg);
                   convertedSchemasMap :=
                     <[JSON_stringify convertedSchema := name]>
                       (convertedSchemasMap reg) |}))))).
Proof.
  unfold getSchemaNameFromObj. intros H.
  destruct (schemaMap reg !! addr joiSchema) as [n|] eqn:Hmap.
  { injection H as <- <-. now left. }
  right. split; [reflexivity|].
  destruct (converted fuel (target joiSchema)) as [convertedSchema| |] eqn:Hc;
    cbn [bind] in H; try discriminate.
  exists convertedSchema. split; [reflexivity|].
  destruct (convertedSchemasMap reg !! JSON_stringify convertedSchema) as [n|] eqn:Hshape.
  { injection H as <- <-. left. now split. }
  right. split; [reflexivity|].
  destruct (read "title" convertedSchema) as [chosenName| |] eqn:Hread; cbn [bind] in H;
    try discriminate.
  apply read_prop in Hread. subst chosenName.
  destruct (truthy (prop "title" convertedSchema)) eqn:Ht; cbn [negb] in H; [|discriminate].
  split; [reflexivity|]. cbv zeta in H.
  destruct (truthy (prop (to_string (prop "title" convertedSchema)) (JObj (schemas reg))))
    eqn:Hex.
  - destruct (bool_decide _) eqn:Hd in H; [|discriminate].
    apply bool_decide_eq_true_1 in Hd. injection H as <- <-.
    split; [reflexivity|]. left. repeat split; assumption.
  - injection H as <- <-. split; [reflexivity|]. right. split; [assumption | reflexivity].
Qed.





Lemma grows_refl reg : grows reg reg.
Proof. repeat split; auto. Qed.

Lemma grows_trans reg1 reg2 reg3 : grows reg1 reg2 -> grows reg2 reg3 -> grows reg1 reg3.
Proof.
  intros (Hp & Hs & Hm & Hc) (Hp' & Hs' & Hm' & Hc').
  repeat split; [congruence | | |]; eauto.
Qed.

Lemma stored_schema_truthy convertedSchema :
  truthy (prop "title" convertedSchema) = true ->
  truthy match convertedSchema with
         | JObj o => JObj (obj_delete "title" o)
         | v => v
         end = true.
Proof.
  intros H. apply prop_truthy_value in H. now destruct convertedSchema.
Qed.

(** what a call of the resolver does to the registry *)
Lemma resolver_keeps fuel joiSchema reg name reg' :
  getSchemaNameFromObj fuel joiSchema reg = Return (name, reg') ->
  grows reg reg' /\
  schemaMap reg' !! addr joiSchema = Some name /\
  (sound reg -> sound reg' /\ truthy (prop name (JObj (schemas reg'))) = true).
Proof.
  intros H.
  apply getSchemaNameFromObj_cases in H
    as [[Hm ->] | [Hm (cs & Hc & [[Hs ->] | (Hs & Ht & Hn & [(Hex & _ & ->) | (Hex & ->)])])]].
  - split; [apply grows_refl|]. split; [exact Hm|].
    intros Hsound. split; [exact Hsound|]. destruct Hsound as [H1 _]. eauto.
  - split; [|split; [apply lookup_insert_eq|]].
    + repeat split; cbn [schemas parameters schemaMap convertedSchemasMap]; auto.
      intros a n Ha. rewrite lookup_insert_ne; [exact Ha | congruence].
    + intros [H1 H2]. split; [split|]; cbn [schemas schemaMap convertedSchemasMap]; eauto.
      intros a n. destruct (decide (addr joiSchema = a)) as [<-|Hne].
      * rewrite lookup_insert_eq. intros [= <-]. eauto.
      * rewrite lookup_insert_ne by assumption. eauto.
  - split; [|split; [apply lookup_insert_eq|]].
    + repeat split; cbn [schemas parameters schemaMap convertedSchemasMap]; auto.
      * intros a n Ha. rewrite lookup_insert_ne; [exact Ha | congruence].
      * intros str n Hstr. rewrite lookup_insert_ne; [exact Hstr | congruence].
    + intros [H1 H2]. split; [split|]; cbn [schemas schemaMap convertedSchemasMap]; auto.
      * intros a n. destruct (decide (addr joiSchema = a)) as [<-|Hne].
        -- rewrite lookup_insert_eq. now intros [= <-].
        -- rewrite lookup_insert_ne by assumption. eauto.
      * intros str n. destruct (decide (JSON_stringify cs = str)) as [<-|Hne].
        -- rewrite lookup_insert_eq. now intros [= <-].
        -- rewrite lookup_insert_ne by assumption. eauto.
  - pose proof (stored_schema_truthy cs Ht) as Hstored.
    assert (Hprop : forall n,
      truthy (prop n (JObj (schemas reg))) = true \/ n = name ->
      truthy (prop n (JObj (obj_set name
                              match cs with
                              | JObj o => JObj (obj_delete "title" o)
                              | v => v
                              end (schemas reg)))) = true).
    { intros n Hcase. destruct (String.eqb_spec name n) as [<-|Hne].
      - now rewrite prop_obj_set_eq.
      - rewrite prop_obj_set_ne by assumption. destruct Hcase; congruence. }
    split; [|split; [apply lookup_insert_eq|]].
    + repeat split; cbn [schemas parameters schemaMap convertedSchemasMap]; auto.
      * intros n v Hget Hv. rewrite obj_get_set_ne; [exact Hget|].
        intros <-. unfold prop in Hex. cbn [own_props] in Hex. rewrite Hget in Hex.
        congruence.
      * intros a n Ha. rewrite lookup_insert_ne; [exact Ha | congruence].
      * intros str n Hstr. rewrite lookup_insert_ne; [exact Hstr | congruence].
    + intros [H1 H2]. split; [split|]; cbn [schemas schemaMap convertedSchemasMap]; auto.
      * intros a n. destruct (decide (addr joiSchema = a)) as [<-|Hne].
        -- rewrite lookup_insert_eq. intros [= <-]. auto.
        -- rewrite lookup_insert_ne by assumption. eauto.
      * intros str n. destruct (decide (JSON_stringify cs = str)) as [<-|Hne].
        -- rewrite lookup_insert_eq. intros [= <-]. auto.
        -- rewrite lookup_insert_ne by assumption. eauto.
Qed.

(** X14: the resolver never hands out a dangling name: on a registry in
    which every name bound by the identity map or the shape map names a
    schema, the name it returns names a schema of the registry it leaves,
    and that registry binds only names of schemas again. *)
Theorem resolved_name_is_registered (fuel : nat) (joiSchema : ref) (reg reg' : registry)
    (name : string) :
  sound reg ->
  getSchemaNameFromObj fuel joiSchema reg = Return (name, reg') ->
  truthy (prop name (JObj (schemas reg'))) = true /\ sound reg'.
Proof.
  intros Hsound H. apply resolver_keeps in H as (_ & _ & H).
  destruct (H Hsound). now split.
Qed.

Lemma empty_registry_sound : sound empty_registry.
Proof. split; intros ? ? H; cbn in H; now rewrite lookup_empty in H. Qed.

Lemma resolved_name_is_registered_witness :
  truthy (prop "Item" (JObj (schemas (with_item 40 empty_registry)))) = true /\
  sound (with_item 40 empty_registry).
Proof.
  apply (resolved_name_is_registered 2 (item_at 40) empty_registry _ "Item").
  - split; intros ? ? H; cbn in H; now rewrite lookup_empty in H.
  - vm_compute; reflexivity.
Defined.

(** the loops of the assembler over [content] maps, responses and paths
    only call the resolver on the registry *)
Lemma content_step_keeps fuel with_examples st entry st' :
  content_step fuel with_examples st entry = Return st' ->
  grows (snd st) (snd st') /\ (sound (snd st) -> sound (snd st')).
Proof.
  destruct st as [content reg]. unfold content_step.
  destruct (getSchemaNameFromObj fuel (media_schema (snd entry)) reg)
    as [[name reg1]| |] eqn:E; cbn [bind]; try discriminate.
  intros [= <-]. cbn [snd]. apply resolver_keeps in E as (Hg & _ & Hs).
  split; [exact Hg|]. intros H. now destruct (Hs H).
Qed.

Lemma keeps_loop {A} (step : object * registry -> A -> outcome (object * registry))
    xs st st' :
  (forall s x s', step s x = Return s' ->
                  grows (snd s) (snd s') /\ (sound (snd s) -> sound (snd s'))) ->
  for_each step xs st = Return st' ->
  grows (snd st) (snd st') /\ (sound (snd st) -> sound (snd st')).
Proof.
  intros Hstep.
  apply (for_each_invariant
           (fun s => grows (snd st) (snd s) /\ (sound (snd st) -> sound (snd s)))).
  - split; [apply grows_refl | auto].
  - intros s x s' _ [Hg Hs] Hx. apply Hstep in Hx as [Hg' Hs'].
    split; [eapply grows_trans; eauto | auto].
Qed.

Lemma buildRequestBody_keeps fuel bodyConfig reg r reg' :
  buildRequestBody fuel bodyConfig reg = Return (r, reg') ->
  grows reg reg' /\ (sound reg -> sound reg').
Proof.
  unfold buildRequestBody. destruct bodyConfig as [b|].
  - destruct (body_content b) as [entries|].
    + destruct (for_each (content_step fuel false) entries ([], reg))
        as [[content reg1]| |] eqn:E; cbn [bind]; try discriminate.
      intros [= _ <-].
      apply (keeps_loop _ _ _ _ (content_step_keeps fuel false)) in E. exact E.
    + intros [= _ <-]. split; [apply grows_refl | auto].
  - intros [= _ <-]. split; [apply grows_refl | auto].
Qed.

Lemma response_step_keeps fuel st entry st' :
  response_step fuel st entry = Return st' ->
  grows (snd st) (snd st') /\ (sound (snd st) -> sound (snd st')).
Proof.
  destruct st as [responses reg]. unfold response_step.
  destruct (response_content (snd entry)) as [entries|].
  - destruct (for_each (content_step fuel true) entries ([], reg))
      as [[content reg1]| |] eqn:E; cbn [bind]; try discriminate.
    intros [= <-]. cbn [snd].
    apply (keeps_loop _ _ _ _ (content_step_keeps fuel true)) in E. exact E.
  - cbn [bind]. intros [= <-]. split; [apply grows_refl | auto].
Qed.

Lemma buildResponses_keeps fuel responsesConfig reg r reg' :
  buildResponses fuel responsesConfig reg = Return (r, reg') ->
  grows reg reg' /\ (sound reg -> sound reg').
Proof.
  unfold buildResponses. destruct responsesConfig as [entries|].
  - intros E. apply (keeps_loop _ _ _ _ (response_step_keeps fuel)) in E. exact E.
  - intros [= _ <-]. split; [apply grows_refl | auto].
Qed.

Lemma path_step_keeps fuel paramNameToRefName st entry st' :
  path_step fuel paramNameToRefName st entry = Return st' ->
  grows (snd st) (snd st') /\ (sound (snd st) -> sound (snd st')).
Proof.
  destruct st as [swaggerPaths reg]. unfold path_step.
  assert (Hsame : grows reg reg /\ (sound reg -> sound reg))
    by (split; [apply grows_refl | auto]).
  destruct (map fst (snd entry)) as [|methodKey rest]; [now intros [= <-]|].
  destruct (route_get methodKey (snd entry)) as [methodConfig|]; [|now intros [= <-]].
  destruct (negb (truthy (method methodConfig))); [now intros [= <-]|].
  destruct (buildRequestBody fuel (body methodConfig) reg) as [[requestBody reg1]| |] eqn:E1;
    cbn [bind]; try discriminate.
  destruct (buildResponses fuel (responses methodConfig) reg1) as [[responses reg2]| |] eqn:E2;
    cbn [bind]; try discriminate.
  intros [= <-]. cbn [snd].
  apply buildRequestBody_keeps in E1 as [Hg1 Hs1].
  apply buildResponses_keeps in E2 as [Hg2 Hs2].
  split; [eapply grows_trans; eauto | auto].
Qed.



(** the first loop of [buildSwaggerComponents] keeps an entry and a
    binding that no later declaration replaces *)
Lemma schema_loop_keeps fuel entries key (r : ref) v reg reg' :
  (forall key' r', In (key', r') entries -> key' <> key) ->
  (forall key' r', In (key', r') entries -> addr r' = addr r -> key' = key) ->
  obj_get key (schemas reg) = Some v ->
  schemaMap reg !! addr r = Some key ->
  for_each (schema_step fuel) entries reg = Return reg' ->
  obj_get key (schemas reg') = Some v /\ schemaMap reg' !! addr r = Some key.
Proof.
  intros Hkeys Haddrs Hv Hm.
  apply (for_each_invariant
           (fun s => obj_get key (schemas s) = Some v /\ schemaMap s !! addr r = Some key));
    [now split|].
  intros s [key' r'] s' Hin [Hs1 Hs2]. unfold schema_step. cbn [fst snd].
  destruct (converted fuel (target r')) as [c| |]; cbn [bind]; try discriminate.
  intros [= <-]. cbn [schemas schemaMap]. split.
  - rewrite obj_get_set_ne; [exact Hs1 | eapply Hkeys; eauto].
  - destruct (decide (addr r' = addr r)) as [e|ne].
    + rewrite e, lookup_insert_eq. f_equal. eapply Haddrs; eauto.
    + now rewrite lookup_insert_ne.
Qed.

Lemma parameter_loop_keeps fuel entries reg reg' :
  for_each (parameter_step fuel) entries reg = Return reg' ->
  schemas reg' = schemas reg /\ schemaMap reg' = schemaMap reg /\
  convertedSchemasMap reg' = convertedSchemasMap reg.
Proof.
  apply (for_each_invariant
           (fun s => schemas s = schemas reg /\ schemaMap s = schemaMap reg /\
                     convertedSchemasMap s = convertedSchemasMap reg)); [auto|].
  intros s entry s' _ Hs. unfold parameter_step.
  destruct (has_describe (target (snd entry))); [|now intros [= <-]].
  destruct (converted fuel (target (snd entry))) as [sp| |]; cbn [bind]; try discriminate.
  destruct (read "properties" sp) as [ps| |]; cbn [bind]; try discriminate.
  destruct (obj_keys (own_props (or_else ps (JObj [])))) as [|paramName rest];
    [now intros [= <-]|].
  destruct (String.eqb paramName EmptyString); [now intros [= <-]|].
  destruct (parameter_envelope sp paramName) as [env| |]; cbn [bind]; try discriminate.
  now intros [= <-].
Qed.

(** a declared schema is stored under its key and bound to it, when the
    key is declared once and the object under no other key *)
Lemma declared_schema_bound fuel schemaClass reg key (joiSchema : ref) :
  buildSwaggerComponents fuel schemaClass = Return reg ->
  List.NoDup (map fst (component_schemas schemaClass)) ->
  In (key, joiSchema) (component_schemas schemaClass) ->
  (forall key' r', In (key', r') (component_schemas schemaClass) ->
                   addr r' = addr joiSchema -> key' = key) ->
  (exists convertedSchema,
      converted fuel (target joiSchema) = Return convertedSchema /\
      obj_get key (schemas reg) = Some convertedSchema) /\
  schemaMap reg !! addr joiSchema = Some key.
Proof.
  unfold buildSwaggerComponents. intros H Hnd Hin Haddrs.
  destruct (for_each (schema_step fuel) (component_schemas schemaClass) empty_registry)
    as [reg1| |] eqn:E; cbn [bind] in H; try discriminate.
  apply parameter_loop_keeps in H as (Hs & Hm & _). rewrite Hs, Hm.
  apply in_split in Hin as (pre & post & Hsplit). rewrite Hsplit in E, Hnd, Haddrs.
  rewrite for_each_app in E.
  destruct (for_each (schema_step fuel) pre empty_registry) as [reg0| |];
    cbn [bind] in E; try discriminate.
  cbn [for_each] in E. unfold schema_step at 1 in E. cbn [fst snd] in E.
  destruct (converted fuel (target joiSchema)) as [c| |] eqn:Hc; cbn [bind] in E;
    try discriminate.
  rewrite map_app in Hnd. cbn [map fst] in Hnd.
  apply List.NoDup_remove_2 in Hnd.
  apply (schema_loop_keeps fuel post key joiSchema c) in E as [Hv Hb].
  - split; [eauto | exact Hb].
  - intros key' r' Hin' ->. apply Hnd. apply in_or_app. right.
    apply in_map_iff. exists (key, r'). now split.
  - intros key' r' Hin'. apply Haddrs. apply in_or_app. right. now right.
  - cbn [schemas]. apply obj_get_set_eq.
  - cbn [schemaMap]. apply lookup_insert_eq.
Qed.

(** X16: a schema declared among the components of the class, under a
    key that is declared once and for an object that is declared under no
    other key, is stored under its key as it compiles (title included),
    and its identity is bound to the key: a route that uses the very same
    schema object is resolved to the declared key without compiling it
    again, whatever the budget. *)
Theorem declared_schema_resolves_to_key (fuel : nat) (schemaClass : schema_class)
    (reg : registry) (key : string) (joiSchema : ref) :
  buildSwaggerComponents fuel schemaClass = Return reg ->
  List.NoDup (map fst (component_schemas schemaClass)) ->
  In (key, joiSchema) (component_schemas schemaClass) ->
  (forall key' r', In (key', r') (component_schemas schemaClass) ->
                   addr r' = addr joiSchema -> key' = key) ->
  (exists convertedSchema,
      converted fuel (target joiSchema) = Return convertedSchema /\
      obj_get key (schemas reg) = Some convertedSchema) /\
  schemaMap reg !! addr joiSchema = Some key /\
  (forall budget, getSchemaNameFromObj budget joiSchema reg = Return (key, reg)).
Proof.
  intros H Hnd Hin Haddrs.
  destruct (declared_schema_bound _ _ _ _ _ H Hnd Hin Haddrs) as [Hv Hb].
  split; [exact Hv|]. split; [exact Hb|].
  intros budget. unfold getSchemaNameFromObj. now rewrite Hb.
Qed.

Lemma declared_schema_resolves_to_key_witness :
  (exists convertedSchema,
      converted 2 (target (item_at 30)) = Return convertedSchema /\
      obj_get "Item" (schemas declared_registry) = Some convertedSchema) /\
  schemaMap declared_registry !! addr (item_at 30) = Some "Item" /\
  (forall budget,
      getSchemaNameFromObj budget (item_at 30) declared_registry
      = Return ("Item", declared_registry)).
Proof.
  apply (declared_schema_resolves_to_key 2 declaring_class).
  - vm_compute; reflexivity.
  - repeat constructor; simpl; intuition discriminate.
  - left. reflexivity.
  - intros key' r' [[= <- <-] | [[= <- <-] | []]]; [reflexivity | discriminate].
Defined.

Lemma obj_keys_set k v o x :
  In x (obj_keys (obj_set k v o)) <-> x = k \/ In x (obj_keys o).
Proof.
  unfold obj_set. destruct (obj_has k o) eqn:E.
  - rewrite obj_keys_replace. split; [auto|]. intros [->|H]; [|exact H].
    unfold obj_has in E. destruct (obj_get k o) eqn:G; [|discriminate].
    destruct (in_dec string_dec k (obj_keys o)) as [Hin|Hout]; [exact Hin|].
    apply obj_get_None_keys in Hout. congruence.
  - destruct (array_index k).
    + apply obj_keys_insert_index.
    + unfold obj_keys. rewrite map_app, in_app_iff. cbn [map fst In].
      split; [intros [H|[H|[]]]; auto | intros [->|H]; auto].
Qed.

(** X27: the components of the registry are the declared ones and
    nothing else: after [buildSwaggerComponents] the keys of
    [components.schemas] are exactly the keys the class declares for its
    schemas, and every key of [components.parameters] is a declared
    parameter key; whatever components [parse] returned on the way (those
    of nodes with a [className]) are not added. *)
Theorem components_are_the_declared_ones (fuel : nat) (schemaClass : schema_class)
    (reg : registry) :
  buildSwaggerComponents fuel schemaClass = Return reg ->
  (forall k, In k (obj_keys (schemas reg)) <->
             In k (map fst (component_schemas schemaClass))) /\
  (forall k, In k (obj_keys (parameters reg)) ->
             In k (map fst (component_parameters schemaClass))).
Proof.
  unfold buildSwaggerComponents. intros E.
  destruct (for_each (schema_step fuel) (component_schemas schemaClass) empty_registry)
    as [reg1| |] eqn:E1; cbn [bind] in E; try discriminate.
  assert (H1 : (forall k, In k (obj_keys (schemas reg1)) <->
                          In k (map fst (component_schemas schemaClass)))
               /\ parameters reg1 = []).
  { revert E1. generalize (component_schemas schemaClass). intros entries.
    assert (Hgen : forall acc reg1,
      for_each (schema_step fuel) entries acc = Return reg1 ->
      (forall k, In k (obj_keys (schemas reg1)) <->
                 In k (obj_keys (schemas acc)) \/ In k (map fst entries))
      /\ parameters reg1 = parameters acc).
    { induction entries as [|[key r] entries IH]; intros acc reg1' Hloop.
      - injection Hloop as <-. split; [|reflexivity]. intros k. cbn. tauto.
      - cbn [for_each] in Hloop. unfold schema_step at 1 in Hloop. cbn [fst snd] in Hloop.
        destruct (converted fuel (target r)) as [cs| |]; cbn [bind] in Hloop;
          try discriminate.
        apply IH in Hloop as [Hk Hp]. cbn [schemas parameters] in Hk, Hp.
        split; [|exact Hp]. intros k. rewrite Hk, obj_keys_set. cbn [map fst In].
        intuition auto. }
    intros E1. apply Hgen in E1 as [Hk Hp]. split; [|exact Hp].
    intros k. rewrite Hk. cbn. tauto. }
  destruct H1 as [Hk1 Hp1].
  pose proof (parameter_loop_keeps _ _ _ _ E) as (Hs & _ & _). rewrite Hs.
  split; [exact Hk1|].
  revert E.
  assert (Hgen : forall entries acc reg',
    for_each (parameter_step fuel) entries acc = Return reg' ->
    forall k, In k (obj_keys (parameters reg')) ->
              In k (obj_keys (parameters acc)) \/ In k (map fst entries)).
  { induction entries as [|[refName r] entries IH]; intros acc reg'' Hloop k.
    - injection Hloop as <-. auto.
    - cbn [for_each] in Hloop.
      destruct (parameter_step fuel acc (refName, r)) as [acc'| |] eqn:Hstep;
        cbn [bind] in Hloop; try discriminate.
      intros Hin. destruct (IH _ _ Hloop k Hin) as [H|H]; [|right; now right].
      assert (Hacc : In k (obj_keys (parameters acc)) \/ k = refName).
      { unfold parameter_step in Hstep. cbn [fst snd] in Hstep.
        destruct (has_describe (target r)); [|injection Hstep as <-; now left].
        destruct (converted fuel (target r)) as [sp| |]; cbn [bind] in Hstep;
          try discriminate.
        destruct (read "properties" sp) as [ps| |]; cbn [bind] in Hstep;
          try discriminate.
        destruct (obj_keys (own_props (or_else ps (JObj [])))) as [|paramName ?];
          [injection Hstep as <-; now left|].
        destruct (String.eqb paramName EmptyString); [injection Hstep as <-; now left|].
        destruct (parameter_envelope sp paramName) as [env| |]; cbn [bind] in Hstep;
          try discriminate.
        injection Hstep as <-. cbn [parameters] in H.
        apply obj_keys_set in H as [->|H]; auto. }
      destruct Hacc as [Hacc| ->]; [now left | right; now left]. }
  intros E k Hin. destruct (Hgen _ _ _ E k Hin) as [H|H]; [|exact H].
  rewrite Hp1 in H. destruct H.
Qed.

Lemma components_are_the_declared_ones_witness :
  (forall k, In k (obj_keys (schemas declared_registry)) <->
             In k (map fst (component_schemas declaring_class))) /\
  (forall k, In k (obj_keys (parameters declared_registry)) ->
             In k (map fst (component_parameters declaring_class))).
Proof.
  apply (components_are_the_declared_ones 2 declaring_class declared_registry).
  vm_compute; reflexivity.
Defined.

(** the name map of [buildSwaggerPaths] is [paramNameToRefName] *)
Lemma buildSwaggerPaths_name_map fuel schemaClass reg :
  buildSwaggerPaths fuel schemaClass reg
  = for_each (path_step fuel (paramNameToRefName (parameters reg)))
             (paths schemaClass) ([], reg).
Proof. reflexivity. Qed.

Lemma paramNameToRefName_declared parameters refName envelope :
  In (refName, envelope) parameters ->
  (forall refName' envelope',
      In (refName', envelope') parameters ->
      to_string (prop "name" envelope') = to_string (prop "name" envelope) ->
      refName' = refName) ->
  obj_get (to_string (prop "name" envelope)) (paramNameToRefName parameters)
  = Some (JStr refName).
Proof.
  intros Hin Huniq. unfold paramNameToRefName.
  apply in_split in Hin as (pre & post & ->).
  rewrite fold_left_app. cbn [fold_left fst snd].
  assert (Hpost : forall acc,
    obj_get (to_string (prop "name" envelope)) acc = Some (JStr refName) ->
    obj_get (to_string (prop "name" envelope))
      (fold_left (fun acc entry =>
                    obj_set (to_string (prop "name" (snd entry))) (JStr (fst entry)) acc)
                 post acc) = Some (JStr refName)).
  { assert (Hu : forall refName' envelope', In (refName', envelope') post ->
                   to_string (prop "name" envelope') = to_string (prop "name" envelope) ->
                   refName' = refName).
    { intros r' e' Hin'. apply Huniq. apply in_or_app. right. now right. }
    clear Huniq. induction post as [|[r' e'] post IH]; intros acc Hacc; [exact Hacc|].
    cbn [fold_left fst snd]. apply IH.
    - intros r'' e'' Hin''. apply Hu. now right.
    - destruct (String.eqb_spec (to_string (prop "name" e'))
                                (to_string (prop "name" envelope))) as [e|ne].
      + rewrite e, obj_get_set_eq. do 2 f_equal. apply (Hu r' e'); [now left | exact e].
      + now rewrite obj_get_set_ne. }
  apply Hpost. apply obj_get_set_eq.
Qed.

Lemma paramNameToRefName_undeclared parameters k :
  (forall refName envelope,
      In (refName, envelope) parameters -> to_string (prop "name" envelope) <> k) ->
  obj_get k (paramNameToRefName parameters) = None.
Proof.
  unfold paramNameToRefName. intros H.
  assert (Hgen : forall acc, obj_get k acc = None ->
    obj_get k (fold_left (fun acc entry =>
                            obj_set (to_string (prop "name" (snd entry)))
                                    (JStr (fst entry)) acc)
                         parameters acc) = None); [|now apply Hgen].
  induction parameters as [|[r e] ps IH]; intros acc Hacc; [exact Hacc|].
  cbn [fold_left fst snd]. apply IH.
  - intros r' e' Hin. apply (H r'). now right.
  - rewrite obj_get_set_ne; [exact Hacc|]. apply (H r e). now left.
Qed.



(** the loop over a [content] map gives every MIME type its entry, with
    the name the final registry binds the schema to *)
Lemma content_loop_entries fuel with_examples ms st content reg' mime m :
  for_each (content_step fuel with_examples) ms st = Return (content, reg') ->
  List.NoDup (map fst ms) ->
  In (mime, m) ms ->
  exists name,
    schemaMap reg' !! addr (media_schema m) = Some name /\
    obj_get mime content = Some (media_entry with_examples m name).
Proof.
  intros E Hnd Hin. apply in_split in Hin as (pre & post & ->).
  rewrite for_each_app in E.
  destruct (for_each (content_step fuel with_examples) pre st) as [[content0 reg0]| |];
    cbn [bind] in E; try discriminate.
  cbn [for_each] in E. unfold content_step at 1 in E. cbn [fst snd] in E.
  destruct (getSchemaNameFromObj fuel (media_schema m) reg0) as [[name reg1]| |] eqn:Hr;
    cbn [bind] in E; try discriminate.
  apply resolver_keeps in Hr as (_ & Hbound & _).
  exists name.
  rewrite map_app in Hnd. cbn [map fst] in Hnd. apply List.NoDup_remove_2 in Hnd.
  assert (Hpost : forall mime' m', In (mime', m') post -> mime' <> mime).
  { intros mime' m' Hin' ->. apply Hnd. apply in_or_app. right.
    apply in_map_iff. exists (mime, m'). now split. }
  revert E.
  match goal with
  | |- for_each _ post (obj_set mime ?e content0, reg1) = _ -> _ =>
      assert (He : e = media_entry with_examples m name)
  end.
  { unfold media_entry, schema_ref.
    destruct (with_examples && truthy (media_examples m)); reflexivity. }
  rewrite He. intros E.
  refine (for_each_invariant
            (fun s => schemaMap (snd s) !! addr (media_schema m) = Some name /\
                      obj_get mime (fst s) = Some (media_entry with_examples m name))
            _ _ _ _ _ _ E).
  - cbn [fst snd]. split; [exact Hbound | apply obj_get_set_eq].
  - intros [c r] [mime' m'] [c' r'] Hin' [Hs1 Hs2]. cbn [fst snd] in *.
    unfold content_step. cbn [fst snd].
    destruct (getSchemaNameFromObj fuel (media_schema m') r) as [[n r1]| |] eqn:Hr';
      cbn [bind]; try discriminate.
    intros [= <- <-]. apply resolver_keeps in Hr' as ((_ & _ & Hg & _) & _ & _).
    split; [now apply Hg|].
    rewrite obj_get_set_ne; [exact Hs2 | eapply Hpost; eauto].
Qed.

(** every declared status code gets its entry *)
Lemma responses_loop_entries fuel (entries : list (string * response_config))
    (reg reg' : registry) (responses : object) (statusCode : string)
    (responseObj : response_config) :
  buildResponses fuel (Some entries) reg = Return (responses, reg') ->
  List.NoDup (map fst entries) ->
  In (statusCode, responseObj) entries ->
  exists content,
    obj_get statusCode responses
    = Some (JObj [("description", response_description responseObj);
                  ("content", JObj content)]) /\
    match response_content responseObj with
    | None => content = []
    | Some ms =>
        List.NoDup (map fst ms) ->
        forall mime m, In (mime, m) ms ->
          exists name,
            schemaMap reg' !! addr (media_schema m) = Some name /\
            obj_get mime content = Some (media_entry true m name)
    end.
Proof.
  unfold buildResponses. intros E Hnd Hin.
  apply in_split in Hin as (pre & post & ->). rewrite for_each_app in E.
  destruct (for_each (response_step fuel) pre ([], reg)) as [[responses0 reg0]| |];
    cbn [bind] in E; try discriminate.
  cbn [for_each] in E. unfold response_step at 1 in E. cbn [fst snd] in E.
  rewrite map_app in Hnd. cbn [map fst] in Hnd. apply List.NoDup_remove_2 in Hnd.
  assert (Hpost : forall status' rc', In (status', rc') post -> status' <> statusCode).
  { intros status' rc' Hin' ->. apply Hnd. apply in_or_app. right.
    apply in_map_iff. exists (statusCode, rc'). now split. }
  destruct (match response_content responseObj with
            | Some entries => for_each (content_step fuel true) entries ([], reg0)
            | None => Return ([], reg0)
            end) as [[content reg1]| |] eqn:Hc; cbn [bind] in E; try discriminate.
  exists content.
  assert (Hloop :
    obj_get statusCode responses
    = Some (JObj [("description", response_description responseObj);
                  ("content", JObj content)]) /\ grows reg1 reg').
  { refine (for_each_invariant
              (fun s => obj_get statusCode (fst s)
                        = Some (JObj [("description", response_description responseObj);
                                      ("content", JObj content)])
                        /\ grows reg1 (snd s)) _ _ _ _ _ _ E).
    - cbn [fst snd]. split; [apply obj_get_set_eq | apply grows_refl].
    - intros [rs r] [status' rc'] s' Hin' [Hs1 Hs2] Hstep. cbn [fst snd] in *.
      pose proof (response_step_keeps _ _ _ _ Hstep) as [Hg _]. cbn [snd] in Hg.
      split; [|eapply grows_trans; eauto].
      unfold response_step in Hstep. cbn [fst snd] in Hstep.
      destruct (match response_content rc' with
                | Some entries => for_each (content_step fuel true) entries ([], r)
                | None => Return ([], r)
                end) as [[c2 r2]| |]; cbn [bind] in Hstep; try discriminate.
      injection Hstep as <-. cbn [fst].
      rewrite obj_get_set_ne; [exact Hs1 | eapply Hpost; eauto]. }
  destruct Hloop as [Hget (_ & _ & Hg & _)]. split; [exact Hget|].
  destruct (response_content responseObj) as [ms|].
  - intros Hnd' mime m Hin'.
    destruct (content_loop_entries _ _ _ _ _ _ mime m Hc Hnd' Hin') as (name & Hb & He).
    exists name. split; [now apply Hg | exact He].
  - now injection Hc as <- _.
Qed.

(** X18: the responses of a route are built completely: without
    responses the result is the empty object and the registry is left as
    it is; otherwise every declared status code has an entry made of its
    description and a [content] map, empty when the response declares no
    content, that gives every declared MIME type a [$ref] to
    [#/components/schemas/<name>], [name] being the name the registry
    binds the identity of the schema to when the responses are built,
    together with the examples when some were given. *)
Theorem responses_are_complete (fuel : nat)
    (responsesConfig : option (list (string * response_config)))
    (reg reg' : registry) (responses : object) :
  buildResponses fuel responsesConfig reg = Return (responses, reg') ->
  match responsesConfig with
  | None => responses = [] /\ reg' = reg
  | Some entries =>
      List.NoDup (map fst entries) ->
      forall statusCode responseObj,
        In (statusCode, responseObj) entries ->
        exists content,
          obj_get statusCode responses
          = Some (JObj [("description", response_description responseObj);
                        ("content", JObj content)]) /\
          match response_content responseObj with
          | None => content = []
          | Some ms =>
              List.NoDup (map fst ms) ->
              forall mime m, In (mime, m) ms ->
                exists name,
                  schemaMap reg' !! addr (media_schema m) = Some name /\
                  obj_get mime content = Some (media_entry true m name)
          end
  end.
Proof.
  intros E. destruct responsesConfig as [entries|].
  - intros Hnd statusCode responseObj Hin.
    eapply responses_loop_entries; eauto.
  - unfold buildResponses in E. injection E as <- <-. now split.
Qed.

Lemma responses_are_complete_witness :
  (exists content,
      obj_get "200" two_responses_built
      = Some (JObj [("description", JStr "ok"); ("content", JObj content)]) /\
      (List.NoDup ["application/json"] ->
       forall mime m,
         In (mime, m) [("application/json",
                        {| media_schema := {| addr := 10; target := Schema item_schema |};
                           media_examples := JUndefined |})] ->
         exists name,
           schemaMap (with_item 10 empty_registry) !! addr (media_schema m) = Some name /\
           obj_get mime content = Some (media_entry true m name))) /\
  (exists content,
      obj_get "204" two_responses_built
      = Some (JObj [("description", JStr "empty"); ("content", JObj content)]) /\
      content = []).
Proof.
  assert (E : buildResponses 3 (Some two_responses) empty_registry
              = Return (two_responses_built, with_item 10 empty_registry))
    by (vm_compute; reflexivity).
  assert (Hnd : List.NoDup (map fst two_responses))
    by (repeat constructor; simpl; intuition discriminate).
  pose proof (responses_are_complete 3 (Some two_responses) empty_registry _ _ E Hnd) as H.
  split.
  - apply (H "200" (json_response 10 item_schema)). left. reflexivity.
  - apply (H "204" {| response_description := JStr "empty"; response_content := None |}).
    right. left. reflexivity.
Defined.

(** X19: the request body of a route: without a body, or with a body
    that declares no content, there is none ([null]); otherwise it is
    made of the description (the empty string when there is none), of
    [required] as a boolean and of a [content] map that gives every
    declared MIME type a [$ref] to the schema as the registry names it,
    without examples. *)
Theorem request_body_is_complete (fuel : nat) (bodyConfig : option body_config)
    (reg reg' : registry) (requestBody : json) :
  buildRequestBody fuel bodyConfig reg = Return (requestBody, reg') ->
  match bodyConfig with
  | Some b =>
      match body_content b with
      | Some ms =>
          exists content,
            requestBody
            = JObj [("description", or_else (body_description b) (JStr EmptyString));
                    ("required", JBool (truthy (body_required b)));
                    ("content", JObj content)] /\
            (List.NoDup (map fst ms) ->
             forall mime m, In (mime, m) ms ->
               exists name,
                 schemaMap reg' !! addr (media_schema m) = Some name /\
                 obj_get mime content = Some (media_entry false m name))
      | None => requestBody = JNull /\ reg' = reg
      end
  | None => requestBody = JNull /\ reg' = reg
  end.
Proof.
  unfold buildRequestBody. destruct bodyConfig as [b|]; [|now intros [= <- <-]].
  destruct (body_content b) as [ms|]; [|now intros [= <- <-]].
  destruct (for_each (content_step fuel false) ms ([], reg)) as [[content reg1]| |] eqn:E;
    cbn [bind]; try discriminate.
  intros [= <- <-]. exists content. split; [reflexivity|].
  intros Hnd mime m Hin. eapply content_loop_entries; eauto.
Qed.

Lemma request_body_is_complete_witness :
  exists content,
    JObj [("description", JStr "payload"); ("required", JBool true);
          ("content",
           JObj [("application/json",
                  JObj [("schema", JObj [("$ref", JStr "#/components/schemas/Item")])])])]
    = JObj [("description", JStr "payload"); ("required", JBool true);
            ("content", JObj content)] /\
    (List.NoDup ["application/json"] ->
     forall mime m,
       In (mime, m) [("application/json",
                      {| media_schema := {| addr := 11; target := Schema item_schema |};
                         media_examples := JUndefined |})] ->
       exists name,
         schemaMap (with_item 11 empty_registry) !! addr (media_schema m) = Some name /\
         obj_get mime content = Some (media_entry false m name)).
Proof.
  apply (request_body_is_complete 3 (Some (json_body 11 item_schema)) empty_registry).
  vm_compute; reflexivity.
Defined.

End RegistryFacts.

(* ===================================================================== *)
(** ** The route classes *)
(* ===================================================================== *)

Section RecordFacts.
Import JS RouteSchema.
Context {V : Type}.
Implicit Types (o : list (string * V)) (v : V) (k : string).

Lemma rec_get_None_keys k o : rec_get k o = None <-> ~ In k (map fst o).
Proof.
  induction o as [|[k' v'] o IH]; simpl.
  - tauto.
  - destruct (String.eqb_spec k' k) as [->|Hne].
    + split; [discriminate | intros H; exfalso; apply H; now left].
    + rewrite IH. split; [intros H [?|?]; [congruence | tauto] | tauto].
Qed.

Lemma rec_get_app k o1 o2 :
  rec_get k (o1 ++ o2) =
  match rec_get k o1 with Some v => Some v | None => rec_get k o2 end.
Proof.
  induction o1 as [|[k' v'] o1 IH]; simpl; [reflexivity|].
  destruct (String.eqb k' k); auto.
Qed.

Lemma rec_get_replace_eq k v o :
  rec_get k o <> None -> rec_get k (rec_replace k v o) = Some v.
Proof.
  induction o as [|[k' v'] o IH]; simpl; [congruence|].
  destruct (String.eqb k' k) eqn:E; simpl; rewrite E; auto.
Qed.

Lemma rec_get_replace_ne k k' v o :
  k <> k' -> rec_get k' (rec_replace k v o) = rec_get k' o.
Proof.
  intros Hne. induction o as [|[k1 v1] o IH]; simpl; [reflexivity|].
  destruct (String.eqb_spec k1 k) as [->|Hk]; simpl.
  - destruct (String.eqb_spec k k'); [contradiction | reflexivity].
  - destruct (String.eqb k1 k'); auto.
Qed.

Lemma rec_get_insert_index_eq i k v o :
  rec_get k o = None -> rec_get k (rec_insert_index i k v o) = Some v.
Proof.
  induction o as [|[k1 v1] o IH]; simpl.
  - now rewrite String.eqb_refl.
  - destruct (String.eqb k1 k) eqn:E; [discriminate|]. intros H.
    destruct (array_index k1) as [j|]; [destruct (j <? i)%N|]; simpl;
      rewrite ?E, ?String.eqb_refl; auto.
Qed.

Lemma rec_get_insert_index_ne i k k' v o :
  k <> k' -> rec_get k' (rec_insert_index i k v o) = rec_get k' o.
Proof.
  intros Hne. induction o as [|[k1 v1] o IH]; simpl.
  - destruct (String.eqb_spec k k'); [contradiction | reflexivity].
  - destruct (array_index k1) as [j|]; [destruct (j <? i)%N|]; simpl;
      try (destruct (String.eqb_spec k k'); [contradiction|]);
      destruct (String.eqb k1 k'); auto.
Qed.

Lemma rec_get_set_eq k v o : rec_get k (rec_set k v o) = Some v.
Proof.
  unfold rec_set. destruct (rec_get k o) eqn:E.
  - apply rec_get_replace_eq. congruence.
  - destruct (array_index k).
    + now apply rec_get_insert_index_eq.
    + rewrite rec_get_app, E. simpl. now rewrite String.eqb_refl.
Qed.

Lemma rec_get_set_ne k k' v o : k <> k' -> rec_get k' (rec_set k v o) = rec_get k' o.
Proof.
  intros Hne. unfold rec_set. destruct (rec_get k o).
  - now apply rec_get_replace_ne.
  - destruct (array_index k).
    + now apply rec_get_insert_index_ne.
    + rewrite rec_get_app. destruct (rec_get k' o); [reflexivity|]. simpl.
      destruct (String.eqb_spec k k'); [contradiction | reflexivity].
Qed.

Lemma rec_keys_replace k v o : map fst (rec_replace k v o) = map fst o.
Proof.
  induction o as [|[k1 v1] o IH]; simpl; [reflexivity|].
  destruct (String.eqb k1 k); simpl; [reflexivity | now rewrite IH].
Qed.

Lemma rec_keys_insert_index i k v o x :
  In x (map fst (rec_insert_index i k v o)) <-> x = k \/ In x (map fst o).
Proof.
  induction o as [|[k1 v1] o IH]; simpl; [intuition auto|].
  destruct (array_index k1) as [j|]; [destruct (j <? i)%N|]; simpl;
    rewrite ?IH; intuition auto.
Qed.

Lemma rec_insert_index_NoDup i k v o :
  ~ In k (map fst o) -> List.NoDup (map fst o) ->
  List.NoDup (map fst (rec_insert_index i k v o)).
Proof.
  induction o as [|[k1 v1] o IH]; simpl; intros Hk Hnd.
  - constructor; [tauto | constructor].
  - apply NoDup_cons_iff in Hnd as [Hk1 Hnd].
    destruct (array_index k1) as [j|]; [destruct (j <? i)%N|]; simpl.
    + constructor.
      * rewrite rec_keys_insert_index. intros [->|?]; tauto.
      * apply IH; tauto.
    + constructor; [simpl; tauto | now constructor].
    + constructor; [simpl; tauto | now constructor].
Qed.

Lemma rec_set_NoDup k v o : List.NoDup (map fst o) -> List.NoDup (map fst (rec_set k v o)).
Proof.
  intros Hnd. unfold rec_set. destruct (rec_get k o) eqn:E.
  - now rewrite rec_keys_replace.
  - assert (Hk : ~ In k (map fst o)) by now apply rec_get_None_keys.
    destruct (array_index k).
    + now apply rec_insert_index_NoDup.
    + rewrite map_app. apply List.NoDup_app.
      * exact Hnd.
      * constructor; [simpl; tauto | constructor].
      * intros x Hx [<-|[]]. contradiction.
Qed.

(** a key that is not an array index goes after the keys an object has *)
Lemma rec_set_head k0 v0 rest k v :
  array_index k = None ->
  exists v0' rest', rec_set k v ((k0, v0) :: rest) = (k0, v0') :: rest'.
Proof.
  intros Hk. unfold rec_set. cbn [rec_get].
  destruct (String.eqb k0 k) eqn:E.
  - cbn [rec_replace]. rewrite E. eauto.
  - destruct (rec_get k rest).
    + cbn [rec_replace]. rewrite E. eauto.
    + rewrite Hk. cbn [app]. eauto.
Qed.

Lemma rec_get_split k o v :
  List.NoDup (map fst o) -> rec_get k o = Some v ->
  exists pre post, o = pre ++ (k, v) :: post /\
                   (forall k' v', In (k', v') pre \/ In (k', v') post -> k' <> k).
Proof.
  induction o as [|[k1 v1] o IH]; simpl; [discriminate|]. intros Hnd.
  apply NoDup_cons_iff in Hnd as [Hk1 Hnd].
  destruct (String.eqb_spec k1 k) as [->|Hne].
  - intros [= ->]. exists [], o. split; [reflexivity|].
    intros k' v' [[]|Hin] ->. apply Hk1. apply in_map_iff. exists (k, v'). now split.
  - intros H. destruct (IH Hnd H) as (pre & post & -> & Hother).
    exists ((k1, v1) :: pre), post. split; [reflexivity|].
    intros k' v' [[[= <- <-]|Hin]|Hin]; [exact Hne | |]; eapply Hother; eauto.
Qed.

End RecordFacts.

Section RouteClasses.
Import JS Joi JoiToSwagger SchemaToSwagger RouteSchema Samples Classes MoreClasses.

(** X20: [createRoute] checks the route before it reads the tag: it
    throws the incomplete-route error exactly when the path, the method
    or the summary is missing or falsy, whatever the class; a complete
    route throws the missing-tag error exactly when the class does not
    override [tag]; and the route it returns has a truthy path and
    method, so that the [paths] getter takes it for a route, and carries
    the name of the tag of the class as its only tag. *)
Theorem createRoute_checks (c : route_class) (a : route_args) :
  (createRoute c a = inl RouteIncomplete <->
   truthy (arg_path a) && truthy (arg_method a) && truthy (arg_summary a) = false) /\
  (createRoute c a = inl TagNotImplemented <->
   truthy (arg_path a) && truthy (arg_method a) && truthy (arg_summary a) = true /\
   tag c = None) /\
  (forall r, createRoute c a = inr r ->
     looks_like_route (StaticObject r) = Some r /\
     exists t, tag c = Some t /\
               SchemaToSwagger.tags (config r) = JArr [prop "name" (JObj t)]).
Proof.
  unfold createRoute, RouteSchema.tags.
  destruct (truthy (arg_path a)) eqn:Hp, (truthy (arg_method a)) eqn:Hm,
    (truthy (arg_summary a)) eqn:Hs, (tag c) as [t|]; cbn [negb orb andb];
    (split; [split; intros H; try reflexivity; try discriminate|]);
    (split; [split; [intros H; try discriminate; now split
                    | intros [H1 H2]; try discriminate; reflexivity]|]);
    intros r H; try discriminate.
  injection H as <-. unfold looks_like_route. cbn [path config method].
  rewrite Hp, Hm. split; [reflexivity|]. exists t. now split.
Qed.

(** what the loop of the [paths] getter keeps true: every entry is the
    configuration of a static object that looks like a route and whose
    name is not reserved, no path is left without a method, and the keys
    are distinct *)
Lemma paths_loop_sound (statics0 : list (string * static_value)) props ps :
  (forall x, In x props -> In x statics0) ->
  let Inv (ps : list (string * list (string * method_config))) :=
    List.NoDup (map fst ps) /\
    forall p item,
      rec_get p ps = Some item ->
      item <> [] /\
      forall m cfg,
        rec_get m item = Some cfg ->
        exists name r,
          In (name, StaticObject r) statics0 /\
          includes builtins name = false /\ includes base_members name = false /\
          looks_like_route (StaticObject r) = Some r /\
          to_string (path r) = p /\ to_string (method (config r)) = m /\
          config r = cfg in
  Inv ps -> Inv (fold_left paths_step props ps).
Proof.
  intros Hsub Inv. revert ps.
  induction props as [|[name v] props IH]; intros ps Hps; [exact Hps|].
  cbn [fold_left]. apply IH; [intros x Hx; apply Hsub; now right|].
  unfold paths_step. cbn [fst snd].
  destruct (includes builtins name) eqn:Hb; [exact Hps|].
  destruct (includes base_members name) eqn:Hm; [exact Hps|].
  destruct (looks_like_route v) as [r|] eqn:Hr; [|exact Hps].
  assert (Hv : v = StaticObject r).
  { destruct v as [r'| |]; try discriminate. cbn in Hr.
    destruct (truthy (path r') && truthy (method (config r'))); congruence. }
  subst v. destruct Hps as [Hnd Hps]. split; [now apply rec_set_NoDup|].
  intros p item. destruct (String.eqb_spec (to_string (path r)) p) as [<-|Hne].
  - rewrite rec_get_set_eq. intros [= <-]. split.
    + intros Hnil.
      pose proof (rec_get_set_eq (to_string (method (config r))) (config r)
                    match rec_get (to_string (path r)) ps with
                    | Some item => item
                    | None => []
                    end) as Hget.
      rewrite Hnil in Hget. discriminate.
    + intros m cfg.
      destruct (String.eqb_spec (to_string (method (config r))) m) as [<-|Hne].
      * rewrite rec_get_set_eq. intros [= <-]. exists name, r.
        repeat split; auto. apply Hsub. now left.
      * rewrite rec_get_set_ne by assumption.
        destruct (rec_get (to_string (path r)) ps) as [item|] eqn:Hitem;
          [|discriminate].
        intros Hcfg. now apply (Hps _ _ Hitem).
  - rewrite rec_get_set_ne by assumption. apply Hps.
Qed.

(** X21: the [paths] getter lists the static objects that look like
    routes and nothing else: every entry [paths[p][m]] is the
    configuration of a static property of the class that is an object
    with a truthy path [p] and method [m] and whose name is none of the
    names the getter skips; static methods and the other values are never
    listed, so that a class whose routes are all static methods gets an
    empty collection of paths. *)
Theorem paths_lists_route_objects_only (c : route_class) :
  (forall p item m cfg,
      rec_get p (RouteSchema.paths c) = Some item ->
      rec_get m item = Some cfg ->
      exists name r,
        In (name, StaticObject r) (statics c) /\
        includes builtins name = false /\ includes base_members name = false /\
        truthy (path r) = true /\ truthy (method cfg) = true /\
        to_string (path r) = p /\ to_string (method cfg) = m /\ config r = cfg) /\
  ((forall name v, In (name, v) (statics c) -> looks_like_route v = None) ->
   RouteSchema.paths c = []).
Proof.
  split.
  - intros p item m cfg Hitem Hcfg.
    destruct (paths_loop_sound (statics c) (statics c) [] (fun x H => H)) as [_ H].
    { split; [constructor | discriminate]. }
    destruct (H p item Hitem) as [_ H'].
    destruct (H' m cfg Hcfg) as (name & r & Hin & Hb & Hm & Hr & Hp & Hmeth & <-).
    exists name, r. unfold looks_like_route in Hr.
    destruct (truthy (path r)) eqn:E1, (truthy (method (config r))) eqn:E2;
      try discriminate.
    repeat split; auto.
  - unfold RouteSchema.paths. generalize (statics c). intros props Hnone.
    induction props as [|[name v] props IH]; [reflexivity|].
    cbn [fold_left]. unfold paths_step at 2. cbn [fst snd].
    rewrite (Hnone name v) by now left.
    destruct (includes builtins name), (includes base_members name);
      apply IH; intros n w Hin; apply (Hnone n); now right.
Qed.

(** the entry of a static route stays in the collection while no later
    static route has the same path and method *)
Lemma paths_loop_keeps_entry props ps p m cfg :
  (forall name r, In (name, StaticObject r) props ->
                  to_string (path r) = p -> to_string (method (config r)) <> m) ->
  (exists item, rec_get p ps = Some item /\ rec_get m item = Some cfg) ->
  exists item, rec_get p (fold_left paths_step props ps) = Some item /\
               rec_get m item = Some cfg.
Proof.
  revert ps. induction props as [|[name v] props IH]; intros ps Hlater Hps; [exact Hps|].
  cbn [fold_left]. apply IH; [intros n r Hin; apply (Hlater n); now right|].
  unfold paths_step. cbn [fst snd].
  destruct (includes builtins name); [exact Hps|].
  destruct (includes base_members name); [exact Hps|].
  destruct (looks_like_route v) as [r|] eqn:Hr; [|exact Hps].
  assert (Hv : v = StaticObject r).
  { destruct v as [r'| |]; try discriminate. cbn in Hr.
    destruct (truthy (path r') && truthy (method (config r'))); congruence. }
  subst v. destruct Hps as (item & Hitem & Hcfg).
  destruct (String.eqb_spec (to_string (path r)) p) as [Hp|Hne].
  - rewrite Hp, Hitem, rec_get_set_eq. eexists. split; [reflexivity|].
    rewrite rec_get_set_ne; [exact Hcfg|]. apply (Hlater name r); [now left | exact Hp].
  - rewrite rec_get_set_ne by assumption. eauto.
Qed.


Lemma createRoute_checks_witness :
  createRoute untagged_class unnamed_route_args = inl RouteIncomplete /\
  createRoute untagged_class list_items_args = inl TagNotImplemented /\
  looks_like_route (StaticObject {| path := JStr "/items"; config := get_items |})
  = Some {| path := JStr "/items"; config := get_items |}.
Proof.
  split; [|split].
  - apply (createRoute_checks untagged_class unnamed_route_args). reflexivity.
  - apply (createRoute_checks untagged_class list_items_args). split; reflexivity.
  - apply (createRoute_checks items_route_class list_items_args). reflexivity.
Defined.

Lemma paths_lists_route_objects_only_witness :
  (exists name r,
      In (name, StaticObject r) (statics items_route_class) /\
      includes builtins name = false /\ includes base_members name = false /\
      truthy (path r) = true /\ truthy (method post_items) = true /\
      to_string (path r) = "/items" /\ to_string (method post_items) = "post" /\
      config r = post_items) /\
  RouteSchema.paths untagged_class = [].
Proof.
  split.
  - destruct (paths_lists_route_objects_only items_route_class) as [H _].
    apply (H "/items" [("get", get_items); ("post", post_items)] "post" post_items);
      reflexivity.
  - destruct (paths_lists_route_objects_only untagged_class) as [_ H].
    apply H. intros name v [].
Defined.


Lemma paths_loop_absent props ps p :
  (forall name r, In (name, StaticObject r) props -> to_string (path r) <> p) ->
  rec_get p ps = None ->
  rec_get p (fold_left paths_step props ps) = None.
Proof.
  revert ps. induction props as [|[name v] props IH]; intros ps Hp Hps; [exact Hps|].
  cbn [fold_left]. apply IH; [intros n r Hin; apply (Hp n); now right|].
  unfold paths_step. cbn [fst snd].
  destruct (includes builtins name); [exact Hps|].
  destruct (includes base_members name); [exact Hps|].
  destruct (looks_like_route v) as [r|] eqn:Hr; [|exact Hps].
  assert (Hv : v = StaticObject r).
  { destruct v as [r'| |]; try discriminate. cbn in Hr.
    destruct (truthy (path r') && truthy (method (config r'))); congruence. }
  subst v. rewrite rec_get_set_ne; [exact Hps|]. apply (Hp name). now left.
Qed.

Lemma paths_loop_first_method props ps p m1 :
  (forall name r, In (name, StaticObject r) props ->
                  array_index (to_string (method (config r))) = None) ->
  (exists cfg rest, rec_get p ps = Some ((m1, cfg) :: rest)) ->
  exists cfg rest, rec_get p (fold_left paths_step props ps) = Some ((m1, cfg) :: rest).
Proof.
  revert ps. induction props as [|[name v] props IH]; intros ps Hidx Hps; [exact Hps|].
  cbn [fold_left]. apply IH; [intros n r Hin; apply (Hidx n); now right|].
  unfold paths_step. cbn [fst snd].
  destruct (includes builtins name); [exact Hps|].
  destruct (includes base_members name); [exact Hps|].
  destruct (looks_like_route v) as [r|] eqn:Hr; [|exact Hps].
  assert (Hv : v = StaticObject r).
  { destruct v as [r'| |]; try discriminate. cbn in Hr.
    destruct (truthy (path r') && truthy (method (config r'))); congruence. }
  subst v. destruct Hps as (cfg & rest & Hitem).
  destruct (String.eqb_spec (to_string (path r)) p) as [Hp|Hne].
  - rewrite Hp, Hitem, rec_get_set_eq.
    destruct (rec_set_head m1 cfg rest (to_string (method (config r))) (config r))
      as (cfg' & rest' & ->); eauto.
    apply (Hidx name). now left.
  - rewrite rec_get_set_ne by assumption. eauto.
Qed.

(** the assembler documents the first method of a path that the route
    collection holds once *)
Lemma path_loop_documents fuel pnm entries reg sp reg' p m1 cfg rest :
  List.NoDup (map fst entries) ->
  rec_get p entries = Some ((m1, cfg) :: rest) ->
  truthy (method cfg) = true ->
  for_each (path_step fuel pnm) entries ([], reg) = Return (sp, reg') ->
  exists operation, obj_get p sp = Some (JObj [(m1, JObj operation)]).
Proof.
  intros Hnd Hget Hm E.
  destruct (rec_get_split _ _ _ Hnd Hget) as (pre & post & -> & Hother).
  rewrite for_each_app in E.
  destruct (for_each (path_step fuel pnm) pre ([], reg)) as [[sp0 reg0]| |];
    cbn [bind] in E; try discriminate.
  cbn [for_each] in E. unfold path_step at 1 in E. cbn [fst snd map route_get] in E.
  rewrite String.eqb_refl, Hm in E. cbn [negb] in E.
  destruct (buildRequestBody fuel (body cfg) reg0) as [[requestBody reg1]| |];
    cbn [bind] in E; try discriminate.
  destruct (buildResponses fuel (responses cfg) reg1) as [[rs reg2]| |];
    cbn [bind] in E; try discriminate.
  match type of E with
  | for_each _ post (obj_set p (JObj [(m1, JObj ?op)]) sp0, reg2) = _ => exists op
  end.
  refine (for_each_invariant
            (fun s => obj_get p (fst s) = Some (JObj [(m1, JObj _)])) _ _ _ _ _ _ E).
  - cbn [fst]. apply obj_get_set_eq.
  - intros [sp1 r1] [p' routeDef] s' Hin Hs. cbn [fst] in Hs.
    assert (Hne : p' <> p) by (eapply Hother; right; exact Hin).
    unfold path_step. cbn [fst snd].
    destruct (map fst routeDef) as [|methodKey ?]; [now intros [= <-]|].
    destruct (route_get methodKey routeDef) as [methodConfig|]; [|now intros [= <-]].
    destruct (negb (truthy (method methodConfig))); [now intros [= <-]|].
    destruct (buildRequestBody fuel (body methodConfig) r1) as [[rb r2]| |];
      cbn [bind]; try discriminate.
    destruct (buildResponses fuel (responses methodConfig) r2) as [[rs' r3]| |];
      cbn [bind]; try discriminate.
    intros [= <-]. cbn [fst]. now rewrite obj_get_set_ne.
Qed.



End RouteClasses.

(* ===================================================================== *)
(** ** The references of the document *)
(* ===================================================================== *)

Section DocumentReferences.
Import JS Joi JoiToSwagger SchemaToSwagger Spec Assembly Samples Classes MoreClasses.

Lemma get_undefined path : Lodash.get JUndefined path = JUndefined.
Proof. now destruct path. Qed.

Lemma get_app v p1 p2 : Lodash.get v (p1 ++ p2) = Lodash.get (Lodash.get v p1) p2.
Proof.
  revert v. induction p1 as [|k p1 IH]; intros v; [reflexivity|].
  cbn [app Lodash.get]. destruct v; try (now rewrite get_undefined).
  destruct (obj_get k props); [apply IH | now rewrite get_undefined].
Qed.

Lemma get_obj_set_ne k k' v o rest :
  k <> k' ->
  Lodash.get (JObj (obj_set k v o)) (k' :: rest) = Lodash.get (JObj o) (k' :: rest).
Proof. intros H. cbn [Lodash.get]. now rewrite obj_get_set_ne. Qed.

Lemma resolves_grows reg reg' s :
  grows reg reg' -> resolves (schemas reg) s -> resolves (schemas reg') s.
Proof.
  intros (_ & Hs & _) (name & -> & Ht). exists name. split; [reflexivity|].
  unfold prop in *. cbn [own_props] in *.
  destruct (obj_get name (schemas reg)) as [v|] eqn:E; [|discriminate].
  now rewrite (Hs name v E Ht).
Qed.

(** the references of a [content] map built on a sound registry name
    schemas of the registry *)
Lemma content_loop_resolves fuel with_examples ms st st' :
  for_each (content_step fuel with_examples) ms st = Return st' ->
  sound (snd st) ->
  (forall mime, Lodash.get (JObj (fst st)) [mime; "schema"; "$ref"] <> JUndefined ->
                resolves (schemas (snd st)) (Lodash.get (JObj (fst st)) [mime; "schema"; "$ref"])) ->
  sound (snd st') /\ grows (snd st) (snd st') /\
  (forall mime, Lodash.get (JObj (fst st')) [mime; "schema"; "$ref"] <> JUndefined ->
                resolves (schemas (snd st'))
                  (Lodash.get (JObj (fst st')) [mime; "schema"; "$ref"])).
Proof.
  intros E Hsound Hrefs.
  refine (for_each_invariant
            (fun s => sound (snd s) /\ grows (snd st) (snd s) /\
                      forall mime,
                        Lodash.get (JObj (fst s)) [mime; "schema"; "$ref"] <> JUndefined ->
                        resolves (schemas (snd s))
                          (Lodash.get (JObj (fst s)) [mime; "schema"; "$ref"]))
            _ _ _ _ _ _ E).
  - split; [exact Hsound|]. split; [apply grows_refl | exact Hrefs].
  - clear. intros [content reg] [mimeType m] s' _ (Hsound & Hgrows & Hrefs).
    cbn [fst snd] in *. unfold content_step. cbn [fst snd].
    destruct (getSchemaNameFromObj fuel (media_schema m) reg) as [[name reg1]| |] eqn:Hr;
      cbn [bind]; try discriminate.
    intros [= <-]. cbn [fst snd].
    apply resolver_keeps in Hr as (Hg & _ & Hs). destruct (Hs Hsound) as [Hsound1 Hname].
    split; [exact Hsound1|]. split; [eapply grows_trans; eauto|].
    intros mime. cbn [Lodash.get].
    destruct (String.eqb_spec mimeType mime) as [<-|Hne].
    + rewrite obj_get_set_eq. intros _.
      assert (Hbuilt : forall b : bool,
        Lodash.get
          (if b
           then match schema_ref name with
                | JObj o => JObj (obj_set "examples" (media_examples m) o)
                | v => v
                end
           else schema_ref name) ["schema"; "$ref"]
        = JStr ("#/components/schemas/" +:+ name)) by (intros []; reflexivity).
      cbn [Lodash.get] in Hbuilt. rewrite Hbuilt. exists name. now split.
    + rewrite obj_get_set_ne by assumption. intros Hdef.
      apply (resolves_grows reg); [exact Hg|]. apply (Hrefs mime). exact Hdef.
Qed.

Lemma requestBody_resolves fuel bodyConfig reg requestBody reg' mime :
  buildRequestBody fuel bodyConfig reg = Return (requestBody, reg') ->
  sound reg ->
  Lodash.get requestBody ["content"; mime; "schema"; "$ref"] <> JUndefined ->
  resolves (schemas reg') (Lodash.get requestBody ["content"; mime; "schema"; "$ref"]).
Proof.
  unfold buildRequestBody. intros E Hsound.
  destruct bodyConfig as [b|]; [|injection E as <- <-; now intros []].
  destruct (body_content b) as [ms|]; [|injection E as <- <-; now intros []].
  destruct (for_each (content_step fuel false) ms ([], reg)) as [[content reg1]| |] eqn:El;
    cbn [bind] in E; try discriminate.
  injection E as <- <-.
  apply content_loop_resolves in El as (_ & _ & H); [|exact Hsound|now intros mime' []].
  cbn [fst snd] in H.
  change (Lodash.get (JObj [("description", or_else (body_description b) (JStr EmptyString));
                            ("required", JBool (truthy (body_required b)));
                            ("content", JObj content)])
                     ["content"; mime; "schema"; "$ref"])
    with (Lodash.get (JObj content) [mime; "schema"; "$ref"]).
  apply H.
Qed.

Lemma responses_resolve fuel responsesConfig reg responses reg' status mime :
  buildResponses fuel responsesConfig reg = Return (responses, reg') ->
  sound reg ->
  Lodash.get (JObj responses) [status; "content"; mime; "schema"; "$ref"] <> JUndefined ->
  resolves (schemas reg')
    (Lodash.get (JObj responses) [status; "content"; mime; "schema"; "$ref"]).
Proof.
  unfold buildResponses. intros E Hsound.
  destruct responsesConfig as [entries|]; [|injection E as <- <-; now intros []].
  revert status mime.
  refine (proj2 (for_each_invariant
            (fun s => sound (snd s) /\
                      forall status mime,
                        Lodash.get (JObj (fst s)) [status; "content"; mime; "schema"; "$ref"]
                        <> JUndefined ->
                        resolves (schemas (snd s))
                          (Lodash.get (JObj (fst s))
                             [status; "content"; mime; "schema"; "$ref"]))
            _ _ _ _ _ _ E)).
  - split; [exact Hsound | now intros status mime []].
  - clear. intros [responses reg] [statusCode rc] s' _ (Hsound & Hrefs).
    cbn [fst snd] in *. unfold response_step. cbn [fst snd].
    destruct (match response_content rc with
              | Some entries => for_each (content_step fuel true) entries ([], reg)
              | None => Return ([], reg)
              end) as [[content reg1]| |] eqn:Hc; cbn [bind]; try discriminate.
    intros [= <-]. cbn [fst snd].
    assert (Hcontent : sound reg1 /\ grows reg reg1 /\
              forall mime, Lodash.get (JObj content) [mime; "schema"; "$ref"] <> JUndefined ->
                           resolves (schemas reg1)
                             (Lodash.get (JObj content) [mime; "schema"; "$ref"])).
    { destruct (response_content rc) as [ms|].
      - apply content_loop_resolves in Hc; [exact Hc | exact Hsound | now intros mime' []].
      - injection Hc as <- <-. split; [exact Hsound|].
        split; [apply grows_refl | now intros mime' []]. }
    destruct Hcontent as (Hsound1 & Hg & Hc1). split; [exact Hsound1|].
    intros status mime. cbn [Lodash.get].
    destruct (String.eqb_spec statusCode status) as [<-|Hne].
    + rewrite obj_get_set_eq.
      change (obj_get "content" [("description", response_description rc);
                                 ("content", JObj content)])
        with (Some (JObj content)).
      apply Hc1.
    + rewrite obj_get_set_ne by assumption. intros Hdef.
      apply (resolves_grows reg); [exact Hg|]. apply (Hrefs status mime). exact Hdef.
Qed.

(** the references under the paths built on a sound registry name
    schemas of the registry *)
Lemma paths_resolve fuel pnm entries reg sp reg' :
  for_each (path_step fuel pnm) entries ([], reg) = Return (sp, reg') ->
  sound reg ->
  sound reg' /\
  forall p m mime,
    (forall status,
        Lodash.get (JObj sp) [p; m; "responses"; status; "content"; mime; "schema"; "$ref"]
        <> JUndefined ->
        resolves (schemas reg')
          (Lodash.get (JObj sp)
             [p; m; "responses"; status; "content"; mime; "schema"; "$ref"])) /\
    (Lodash.get (JObj sp) [p; m; "requestBody"; "content"; mime; "schema"; "$ref"]
     <> JUndefined ->
     resolves (schemas reg')
       (Lodash.get (JObj sp) [p; m; "requestBody"; "content"; mime; "schema"; "$ref"])).
Proof.
  intros E Hsound.
  refine (for_each_invariant
            (fun s : object * registry =>
               sound (snd s) /\
               forall p m mime,
                 (forall status,
                     Lodash.get (JObj (fst s))
                       [p; m; "responses"; status; "content"; mime; "schema"; "$ref"]
                     <> JUndefined ->
                     resolves (schemas (snd s))
                       (Lodash.get (JObj (fst s))
                          [p; m; "responses"; status; "content"; mime; "schema"; "$ref"])) /\
                 (Lodash.get (JObj (fst s))
                    [p; m; "requestBody"; "content"; mime; "schema"; "$ref"]
                  <> JUndefined ->
                  resolves (schemas (snd s))
                    (Lodash.get (JObj (fst s))
                       [p; m; "requestBody"; "content"; mime; "schema"; "$ref"])))
            _ _ _ _ _ _ E).
  - split; [exact Hsound|]. intros p m mime. split; [intros status|]; now intros [].
  - clear. intros [sp reg] [path routeDef] s' _ (Hsound & Hrefs).
    cbn [fst snd] in *. unfold path_step. cbn [fst snd].
    destruct (map fst routeDef) as [|methodKey ?]; [intros [= <-]; now split|].
    destruct (route_get methodKey routeDef) as [cfg|]; [|intros [= <-]; now split].
    destruct (negb (truthy (method cfg))); [intros [= <-]; now split|].
    destruct (buildRequestBody fuel (body cfg) reg) as [[requestBody reg1]| |] eqn:E1;
      cbn [bind]; try discriminate.
    destruct (buildResponses fuel (responses cfg) reg1) as [[responses reg2]| |] eqn:E2;
      cbn [bind]; try discriminate.
    intros [= <-]. cbn [fst snd].
    pose proof (buildRequestBody_keeps _ _ _ _ _ E1) as [Hg1 Hs1].
    pose proof (buildResponses_keeps _ _ _ _ _ E2) as [Hg2 Hs2].
    split; [auto|]. intros p m mime.
    destruct (String.eqb_spec path p) as [<-|Hne].
    + cbn [Lodash.get]. rewrite obj_get_set_eq. cbn [obj_get].
      destruct (String.eqb methodKey m); [|split; [intros status|]; now intros []].
      destruct (truthy requestBody) eqn:Htr.
      * repeat match goal with
               | |- context [obj_get "responses" ?l] =>
                   change (obj_get "responses" l) with (Some (JObj responses))
               | |- context [obj_get "requestBody" ?l] =>
                   change (obj_get "requestBody" l) with (Some requestBody)
               end.
        split.
        -- intros status.
           apply (responses_resolve fuel (SchemaToSwagger.responses cfg) reg1 responses reg2
                    status mime E2).
           auto.
        -- intros Hdef. apply (resolves_grows reg1); [exact Hg2|].
           apply (requestBody_resolves fuel (body cfg) reg requestBody reg1 mime E1 Hsound
                    Hdef).
      * repeat match goal with
               | |- context [obj_get "responses" ?l] =>
                   change (obj_get "responses" l) with (Some (JObj responses))
               | |- context [obj_get "requestBody" ?l] =>
                   change (obj_get "requestBody" l) with (@None json)
               end.
        split; [|now intros []].
        intros status.
        apply (responses_resolve fuel (SchemaToSwagger.responses cfg) reg1 responses reg2
                    status mime E2).
        auto.
    + destruct (Hrefs p m mime) as [Hr1 Hr2].
      assert (Hg : grows reg reg2) by (eapply grows_trans; eauto).
      split; [intros status|]; rewrite !(get_obj_set_ne path p) by assumption;
        intros Hdef; apply (resolves_grows reg); auto.
Qed.

(** the registry of the declared components is sound when every declared
    schema compiles to a schema *)
Lemma components_sound fuel schemaClass reg :
  buildSwaggerComponents fuel schemaClass = Return reg ->
  (forall key r, In (key, r) (component_schemas schemaClass) ->
                 j2s fuel (target r) <> Return None) ->
  sound reg.
Proof.
  unfold buildSwaggerComponents. intros E Hall.
  destruct (for_each (schema_step fuel) (component_schemas schemaClass) empty_registry)
    as [reg1| |] eqn:E1; cbn [bind] in E; try discriminate.
  apply parameter_loop_keeps in E as (Hs & Hm & Hc).
  assert (H1 : sound reg1).
  { refine (for_each_invariant sound _ _ _ _ _ _ E1); [apply empty_registry_sound|].
    intros s [key r] s' Hin [Hs1 Hs2]. unfold schema_step. cbn [fst snd].
    destruct (converted fuel (target r)) as [cs| |] eqn:Hcs; cbn [bind]; try discriminate.
    intros [= <-].
    assert (Ht : truthy cs = true).
    { unfold converted in Hcs.
      destruct (j2s fuel (target r)) as [[[sw c]|]| |] eqn:Hj; cbn [bind] in Hcs;
        try discriminate.
      - injection Hcs as <-. unfold j2s in Hj. eapply parse_truthy; exact Hj.
      - exfalso. exact (Hall key r Hin Hj). }
    assert (Hprop : forall n,
      truthy (prop n (JObj (schemas s))) = true \/ n = key ->
      truthy (prop n (JObj (obj_set key cs (schemas s)))) = true).
    { intros n Hcase. destruct (String.eqb_spec key n) as [<-|Hne].
      - now rewrite prop_obj_set_eq.
      - rewrite prop_obj_set_ne by assumption. destruct Hcase; congruence. }
    split; cbn [schemas schemaMap convertedSchemasMap].
    - intros a n. destruct (decide (addr r = a)) as [<-|Hne].
      + rewrite lookup_insert_eq. intros [= <-]. auto.
      + rewrite lookup_insert_ne by assumption. eauto.
    - intros str n. destruct (decide (JSON_stringify cs = str)) as [<-|Hne].
      + rewrite lookup_insert_eq. intros [= <-]. auto.
      + rewrite lookup_insert_ne by assumption. eauto. }
  destruct H1 as [Ha Hb]. split.
  - intros a n. rewrite Hm, Hs. apply Ha.
  - intros str n. rewrite Hc, Hs. apply Hb.
Qed.



(** the operation the assembler stores for a path that the route
    collection holds once: it is built from the first method of the path,
    on a registry that has grown from the initial one *)
Lemma path_loop_operation fuel pnm entries reg sp reg' p m1 cfg rest :
  List.NoDup (map fst entries) ->
  In (p, (m1, cfg) :: rest) entries ->
  truthy (method cfg) = true ->
  for_each (path_step fuel pnm) entries ([], reg) = Return (sp, reg') ->
  exists reg_a reg_b reg_c requestBody built,
    grows reg reg_a /\
    buildRequestBody fuel (body cfg) reg_a = Return (requestBody, reg_b) /\
    buildResponses fuel (SchemaToSwagger.responses cfg) reg_b = Return (built, reg_c) /\
    grows reg_c reg' /\
    exists operation,
      obj_get p sp = Some (JObj [(m1, JObj operation)]) /\
      obj_get "responses" operation = Some (JObj built).
Proof.
  intros Hnd Hin Hm E.
  apply in_split in Hin as (pre & post & ->). rewrite for_each_app in E.
  destruct (for_each (path_step fuel pnm) pre ([], reg)) as [[sp0 reg0]| |] eqn:Epre;
    cbn [bind] in E; try discriminate.
  apply (keeps_loop _ _ _ _ (path_step_keeps fuel pnm)) in Epre as [Hg0 _].
  cbn [snd] in Hg0.
  cbn [for_each] in E. unfold path_step at 1 in E. cbn [fst snd map route_get] in E.
  rewrite String.eqb_refl, Hm in E. cbn [negb] in E.
  destruct (buildRequestBody fuel (body cfg) reg0) as [[requestBody reg1]| |] eqn:E1;
    cbn [bind] in E; try discriminate.
  destruct (buildResponses fuel (SchemaToSwagger.responses cfg) reg1)
    as [[built reg2]| |] eqn:E2; cbn [bind] in E; try discriminate.
  exists reg0, reg1, reg2, requestBody, built.
  split; [exact Hg0|]. split; [exact E1|]. split; [exact E2|].
  rewrite map_app in Hnd. cbn [map fst] in Hnd. apply List.NoDup_remove_2 in Hnd.
  assert (Hpost : forall p' routeDef, In (p', routeDef) post -> p' <> p).
  { intros p' routeDef Hin' ->. apply Hnd. apply in_or_app. right.
    apply in_map_iff. exists (p, routeDef). now split. }
  match type of E with
  | for_each _ post (obj_set p (JObj [(m1, JObj ?op)]) sp0, reg2) = _ =>
      assert (Hloop : obj_get p sp = Some (JObj [(m1, JObj op)]) /\ grows reg2 reg');
        [|destruct Hloop as [Hget Hg]; split; [exact Hg|]; exists op;
          split; [exact Hget|]]
  end.
  - refine (for_each_invariant
              (fun s => obj_get p (fst s) = Some (JObj [(m1, JObj _)]) /\
                        grows reg2 (snd s)) _ _ _ _ _ _ E).
    + cbn [fst snd]. split; [apply obj_get_set_eq | apply grows_refl].
    + intros [sp1 r1] [p' routeDef] s' Hin' [Hs1 Hs2] Hstep. cbn [fst snd] in *.
      pose proof (path_step_keeps _ _ _ _ _ Hstep) as [Hg _]. cbn [snd] in Hg.
      split; [|eapply grows_trans; eauto].
      assert (Hne : p' <> p) by (eapply Hpost; eauto).
      unfold path_step in Hstep. cbn [fst snd] in Hstep.
      destruct (map fst routeDef) as [|methodKey ?]; [now injection Hstep as <-|].
      destruct (route_get methodKey routeDef) as [methodConfig|];
        [|now injection Hstep as <-].
      destruct (negb (truthy (method methodConfig))); [now injection Hstep as <-|].
      destruct (buildRequestBody fuel (body methodConfig) r1) as [[rb r2]| |];
        cbn [bind] in Hstep; try discriminate.
      destruct (buildResponses fuel (SchemaToSwagger.responses methodConfig) r2)
        as [[rs' r3]| |]; cbn [bind] in Hstep; try discriminate.
      injection Hstep as <-. cbn [fst]. now rewrite obj_get_set_ne.
  - destruct (truthy requestBody); reflexivity.
Qed.

(** X26: a route that answers with the very schema object the class
    declares among its components is documented with a reference to the
    declared key.  In a class whose component keys, paths, status codes
    and MIME types are each distinct, if the first method of a path
    declares, for a status code and a MIME type, the schema object that is
    declared under the key [key] (and under no other key), then the
    document holds [#/components/schemas/<key>] as the [$ref] of that
    MIME type of that response. *)
Theorem declared_schema_is_referenced_by_key (fuel : nat) (schemaClass : schema_class)
    (doc : json) (key : string) (joiSchema : ref)
    (p m : string) (cfg : method_config) (rest : list (string * method_config))
    (entries : list (string * response_config)) (statusCode : string)
    (responseObj : response_config) (ms : list (string * media)) (mime : string)
    (mediaObj : media) :
  schemaToSwagger fuel schemaClass = Return doc ->
  List.NoDup (map fst (component_schemas schemaClass)) ->
  In (key, joiSchema) (component_schemas schemaClass) ->
  (forall key' r', In (key', r') (component_schemas schemaClass) ->
                   addr r' = addr joiSchema -> key' = key) ->
  List.NoDup (map fst (paths schemaClass)) ->
  In (p, (m, cfg) :: rest) (paths schemaClass) ->
  truthy (method cfg) = true ->
  SchemaToSwagger.responses cfg = Some entries ->
  List.NoDup (map fst entries) ->
  In (statusCode, responseObj) entries ->
  response_content responseObj = Some ms ->
  List.NoDup (map fst ms) ->
  In (mime, mediaObj) ms ->
  addr (media_schema mediaObj) = addr joiSchema ->
  Lodash.get doc
    ["definition"; "paths"; p; m; "responses"; statusCode; "content"; mime; "schema"; "$ref"]
  = JStr ("#/components/schemas/" +:+ key).
Proof.
  unfold schemaToSwagger.
  intros E Hkeys Hin Haddrs Hpaths Hroute Hm Hresp Hstatus Hentry Hcontent Hmimes Hmedia
         Hsame.
  destruct (buildSwaggerComponents fuel schemaClass) as [reg0| |] eqn:E0; cbn [bind] in E;
    try discriminate.
  destruct (buildSwaggerPaths fuel schemaClass reg0) as [[sp reg]| |] eqn:E1;
    cbn [bind] in E; try discriminate.
  injection E as <-.
  destruct (declared_schema_bound _ _ _ _ _ E0 Hkeys Hin Haddrs) as [_ Hbound].
  unfold buildSwaggerPaths in E1.
  destruct (path_loop_operation _ _ _ _ _ _ _ _ _ _ Hpaths Hroute Hm E1)
    as (reg_a & reg_b & reg_c & requestBody & built & Hga & Eb & Er & _ & operation
        & Hitem & Hop).
  apply buildRequestBody_keeps in Eb as [Hgb _].
  rewrite Hresp in Er.
  destruct (responses_loop_entries _ _ _ _ _ _ _ Er Hstatus Hentry) as (content & Hst & Hc).
  rewrite Hcontent in Hc.
  destruct (Hc Hmimes mime mediaObj Hmedia) as (name & Hname & Hget).
  assert (Hkey : schemaMap reg_c !! addr joiSchema = Some key).
  { pose proof (buildResponses_keeps _ _ _ _ _ Er) as [Hgc _].
    destruct Hga as (_ & _ & Ha & _), Hgb as (_ & _ & Hb & _), Hgc as (_ & _ & Hc' & _).
    auto. }
  rewrite Hsame, Hkey in Hname. injection Hname as <-.
  change (Lodash.get
            (JObj [("definition",
                    JObj [("tags", or_else (class_tags schemaClass) (JArr []));
                          ("paths", JObj sp);
                          ("components",
                           JObj [("schemas", JObj (schemas reg));
                                 ("parameters", JObj (parameters reg))])])])
            ["definition"; "paths"; p; m; "responses"; statusCode; "content"; mime;
             "schema"; "$ref"])
    with (Lodash.get (JObj sp)
            [p; m; "responses"; statusCode; "content"; mime; "schema"; "$ref"]).
  cbn [Lodash.get]. rewrite Hitem. cbn [obj_get]. rewrite String.eqb_refl.
  cbv beta iota. rewrite Hop. cbv beta iota. rewrite Hst. cbv beta iota.
  change (obj_get "content" [("description", response_description responseObj);
                             ("content", JObj content)])
    with (Some (JObj content)).
  cbv beta iota. rewrite Hget. unfold media_entry.
  destruct (true && truthy (media_examples mediaObj)); reflexivity.
Qed.

Lemma declared_schema_is_referenced_by_key_witness :
  Lodash.get referencing_document
    ["definition"; "paths"; "/items"; "get"; "responses"; "200"; "content";
     "application/json"; "schema"; "$ref"]
  = JStr "#/components/schemas/Thing".
Proof.
  apply (declared_schema_is_referenced_by_key 3 referencing_class referencing_document
           "Thing" (item_at 10) "/items" "get" get_items [("post", post_items)]
           [("200", json_response 10 item_schema)] "200" (json_response 10 item_schema)
           [("application/json",
             {| media_schema := item_at 10; media_examples := JUndefined |})]
           "application/json"
           {| media_schema := item_at 10; media_examples := JUndefined |}).
  - vm_compute; reflexivity.
  - repeat constructor; simpl; intuition discriminate.
  - left. reflexivity.
  - intros key' r' [[= <- <-] | []]. reflexivity.
  - repeat constructor; simpl; intuition discriminate.
  - left. reflexivity.
  - reflexivity.
  - reflexivity.
  - repeat constructor; simpl; intuition discriminate.
  - left. reflexivity.
  - reflexivity.
  - repeat constructor; simpl; intuition discriminate.
  - left. reflexivity.
  - reflexivity.
Defined.

End DocumentReferences.
